(** * robotics_photo_db: the data-access layer of the robotics marketplace

    A shallow embedding of [RoboticsPhotoDatabase] (robotics_photo_db.py):
    the relational tables as lists of rows in rowid order, the sqlite3
    connection with its implicit transaction, the photo storage tree, and
    the methods [add_robot], [add_photo], [add_tag_to_photo],
    [search_photos], [get_statistics] and [list_all_robots].

    Text is modelled by [string], one [ascii] per character (code points
    below 256); integers by [Z]; row counts by [nat]. *)

From Stdlib Require Import ZArith QArith List Lia Bool Ascii String Sorting.Sorted.
From Stdlib Require Import FunInd Recdef.
From stdpp Require Import base tactics option list numbers strings pretty gmap sorting.

Open Scope string_scope.
Open Scope Z_scope.

(** ** Tables *)

Record category := Category {
  category_id : Z;
  category_name : string
}.

Record robot := Robot {
  robot_id : Z;
  robot_category_id : Z;
  manufacturer : string;
  model_name : string;
  robot_type : string;
  year_released : option Z;
  specifications : option string
}.

Record photo := Photo {
  photo_id : Z;
  photo_robot_id : Z;
  file_name : string;
  file_path : string;
  upload_date : string;
  photo_type : string;
  file_size_kb : Z;
  description : option string;
  photographer : option string
}.

Record tag := Tag {
  tag_id : Z;
  tag_name : string
}.

Record photo_tag := PhotoTag {
  link_photo_id : Z;
  link_tag_id : Z
}.

Record db := Db {
  robot_categories : list category;
  robots : list robot;
  photos : list photo;
  tags : list tag;
  photo_tags : list photo_tag
}.

#[global] Instance category_eq_dec : EqDecision category.
Proof. solve_decision. Defined.
#[global] Instance robot_eq_dec : EqDecision robot.
Proof. solve_decision. Defined.
#[global] Instance photo_eq_dec : EqDecision photo.
Proof. solve_decision. Defined.
#[global] Instance tag_eq_dec : EqDecision tag.
Proof. solve_decision. Defined.
#[global] Instance photo_tag_eq_dec : EqDecision photo_tag.
Proof. solve_decision. Defined.

(** ** The connection and the world around it

    [sqlite3.connect] with the default isolation level: a data-modifying
    statement opens a transaction when none is open, [commit] ends it.
    [view] is what this connection reads (its own uncommitted writes
    included), [durable] what is committed, and [journal] lists every
    snapshot a commit has made durable, newest first. *)

Record connection := Connection {
  durable : db;
  view : db;
  in_txn : bool;
  journal : list db
}.

(** The photo storage tree: a path is a string with "/" between its
    components and names a file or a directory, each with the size [stat]
    reports. Paths are compared as written (no normalisation of "." or of
    doubled separators). *)
Inductive node :=
  | File (size : Z)
  | Dir (size : Z).

Definition filesystem := list (string * node).

Record world := World {
  photo_storage : string;
  conn : connection;
  disk : filesystem
}.

Inductive exn :=
  | ValueError (msg : string)
  | FileNotFoundError (msg : string)
  | NotADirectoryError (msg : string)
  | TypeError (msg : string)
  | OverflowError (msg : string)
  | OSError (msg : string).

Inductive outcome (A : Type) :=
  | Returns (a : A)
  | Raises (e : exn).
Arguments Returns {A} a.
Arguments Raises {A} e.

(** A method body: it reads and updates the world and returns or raises.
    The world a raised exception leaves behind is kept: nothing in the
    class rolls back. *)
Definition py (A : Type) : Type := world → outcome A * world.

#[global] Instance py_ret : MRet py := λ A a w, (Returns a, w).
#[global] Instance py_bind : MBind py := λ A B k m w,
  match m w with
  | (Returns a, w') => k a w'
  | (Raises e, w') => (Raises e, w')
  end.

Definition raise {A} (e : exn) : py A := λ w, (Raises e, w).

Definition query {A} (q : db → A) : py A :=
  λ w, (Returns (q (view (conn w))), w).

Definition with_conn (f : connection → connection) : py unit :=
  λ w, (Returns tt, World (photo_storage w) (f (conn w)) (disk w)).

(** The implicit BEGIN of a statement that changes a table. sqlite3 issues
    it before it binds the parameters of the statement. *)
Definition implicit_begin : py unit :=
  with_conn (λ c, Connection (durable c) (view c) true (journal c)).

(** INSERT statements: the implicit BEGIN, then the change to the view. *)
Definition dml (f : db → db) : py unit :=
  with_conn (λ c, Connection (durable c) (f (view c)) true (journal c)).

(** [self.conn.commit()] *)
Definition commit : py unit :=
  with_conn (λ c,
    if in_txn c
    then Connection (view c) (view c) false (view c :: journal c)
    else c).

(** ** Parameters of a statement

    sqlite3 binds a Python int as a 64-bit INTEGER and raises OverflowError
    for a value outside that range. The engine stores no identifier outside
    it either; the tables of the model are lists over Z and not restricted
    so, and an identifier the table in question holds ([stored]) is bound
    like any identifier the engine has stored. On the tables an engine can
    hold, [bind_integer] raises exactly where the binding does. *)
Definition sqlite_integer (n : Z) : Prop := - 2 ^ 63 ≤ n < 2 ^ 63.

Definition bindable (stored : list Z) (n : Z) : Prop :=
  sqlite_integer n ∨ n ∈ stored.

#[global] Instance sqlite_integer_dec n : Decision (sqlite_integer n).
Proof. unfold sqlite_integer. apply _. Defined.

#[global] Instance bindable_dec stored n : Decision (bindable stored n).
Proof. unfold bindable. apply _. Defined.

Definition bind_error : exn :=
  OverflowError "Python int too large to convert to SQLite INTEGER".

Definition bind_integer_of (tables : connection → db) (stored : db → list Z)
    (n : Z) : py unit :=
  λ w,
    if decide (bindable (stored (tables (conn w))) n) then (Returns tt, w)
    else (Raises bind_error, w).

(** A parameter of a statement on the connection of the class. *)
Definition bind_integer : (db → list Z) → Z → py unit := bind_integer_of view.

Definition stored_robot_ids (d : db) : list Z := robot_id <$> robots d.

Definition stored_photo_ids (d : db) : list Z := photo_id <$> photos d.

(** ** Row identifiers

    Modelled from the spec: the schema file database_schema.sql is not
    part of the sources; the spec's data model gives each table a generated
    integer identifier. For such an INTEGER PRIMARY KEY the engine takes one
    more than the largest identifier in use, and 1 in an empty table (below
    the largest 64-bit integer; at it the engine looks for an unused
    identifier at random). The statements below use that the identifier is
    not in use. *)
Definition next_rowid (ids : list Z) : Z :=
  match ids with
  | [] => 1
  | i :: rest => foldr Z.max i rest + 1
  end.

(** ** add_robot *)

(** SELECT category_id FROM robot_categories WHERE category_name = ? *)
Definition select_category_id (name : string) (d : db) : option Z :=
  category_id <$> head (filter (λ c, category_name c = name) (robot_categories d)).

Definition new_robot (d : db) (cid : Z) (manufacturer model_name robot_type : string)
    (year_released : option Z) (specifications : option string) : robot :=
  Robot (next_rowid (robot_id <$> robots d)) cid manufacturer model_name
        robot_type year_released specifications.

Definition insert_robot (r : robot) (d : db) : db :=
  Db (robot_categories d) (robots d ++ [r]) (photos d) (tags d) (photo_tags d).

Definition add_robot (category_name manufacturer model_name robot_type : string)
    (year_released : option Z) (specifications : option string) : py Z :=
  result ← query (select_category_id category_name);
  match result with
  | None => raise (ValueError ("Category '" +:+ category_name +:+ "' not found"))
  | Some category_id =>
      r ← query (λ d, new_robot d category_id manufacturer model_name
                        robot_type year_released specifications);
      implicit_begin;;
      match year_released with
      | Some year => bind_integer (λ _, []) year
      | None => mret tt
      end;;
      dml (insert_robot r);;
      commit;;
      mret (robot_id r)
  end.

(** ** Paths and files *)

Definition node_size (n : node) : Z :=
  match n with File s | Dir s => s end.

Fixpoint lookup_path (p : string) (l : filesystem) : option node :=
  match l with
  | [] => None
  | (q, n) :: l' => if bool_decide (q = p) then Some n else lookup_path p l'
  end.

Fixpoint path_name_go (p cur last : string) : string :=
  match p with
  | EmptyString => if bool_decide (cur = "") then last else cur
  | String c p' =>
      if bool_decide (c = "/"%char)
      then path_name_go p' "" (if bool_decide (cur = "") then last else cur)
      else path_name_go p' (cur +:+ String c "") last
  end.

(** [Path(p).name]: the final component. *)
Definition path_name (p : string) : string := path_name_go p "" "".

Fixpoint path_parent_go (p cur acc : string) : string :=
  match p with
  | EmptyString => acc
  | String c p' =>
      if bool_decide (c = "/"%char)
      then path_parent_go p' (cur +:+ "/") cur
      else path_parent_go p' (cur +:+ String c "") acc
  end.

(** [Path(p).parent]: everything before the last separator. *)
Definition path_parent (p : string) : string := path_parent_go p "" "".

(** [a / b] for a relative, non-empty component [b]. *)
Definition path_join (a b : string) : string := a +:+ "/" +:+ b.

(** [Path(p).exists()] *)
Definition path_exists (p : string) : py bool :=
  λ w, (Returns (bool_decide (is_Some (lookup_path p (disk w)))), w).

Definition write_file (p : string) (size : Z) : py unit :=
  λ w, (Returns tt,
        World (photo_storage w) (conn w)
              ((p, File size) :: filter (λ e, e.1 ≠ p) (disk w))).

(** [shutil.copy2(src, dst)]: a directory as destination receives the file
    under the source's name; otherwise the destination's directory has to
    exist and be a directory. *)
Definition copy2 (src dst : string) : py unit :=
  λ w,
    match lookup_path src (disk w) with
    | None => raise (FileNotFoundError ("No such file or directory: " +:+ src)) w
    | Some (Dir _) => raise (OSError ("Is a directory: " +:+ src)) w
    | Some (File size) =>
        match lookup_path dst (disk w) with
        | Some (Dir _) => write_file (path_join dst (path_name src)) size w
        | Some (File _) => write_file dst size w
        | None =>
            match lookup_path (path_parent dst) (disk w) with
            | Some (Dir _) => write_file dst size w
            | Some (File _) => raise (NotADirectoryError ("Not a directory: " +:+ dst)) w
            | None => raise (FileNotFoundError ("No such file or directory: " +:+ dst)) w
            end
        end
    end.

(** [p.stat().st_size] *)
Definition st_size (p : string) : py Z :=
  λ w,
    match lookup_path p (disk w) with
    | Some n => (Returns (node_size n), w)
    | None => raise (FileNotFoundError ("No such file or directory: " +:+ p)) w
    end.

(** [str.lower()] on code points below 256: the ASCII capitals and the
    Latin-1 capitals (0xC0-0xDE, the multiplication sign excepted). *)
Definition py_lower_char (c : ascii) : ascii :=
  let n := N_of_ascii c in
  if bool_decide ((65 ≤ n ≤ 90) ∨ (192 ≤ n ≤ 222 ∧ n ≠ 215))%N
  then ascii_of_N (n + 32) else c.

Fixpoint map_string (f : ascii → ascii) (s : string) : string :=
  match s with
  | EmptyString => EmptyString
  | String c s' => String (f c) (map_string f s')
  end.

Definition py_lower : string → string := map_string py_lower_char.

(** [s.replace(' ', '_')] *)
Definition replace_spaces : string → string :=
  map_string (λ c, if bool_decide (c = " "%char) then "_"%char else c).

(** ** add_tag_to_photo

    Modelled from the spec: database_schema.sql is not part of the sources.
    The spec makes tag names unique (case-sensitive) and a photo-tag link
    unique per (photo, tag) pair; INSERT OR IGNORE skips the row that would
    break such a constraint. *)

(** INSERT OR IGNORE INTO tags (tag_name) VALUES (?) *)
Definition insert_or_ignore_tag (name : string) (d : db) : db :=
  if bool_decide (name ∈ tag_name <$> tags d) then d
  else Db (robot_categories d) (robots d) (photos d)
          (tags d ++ [Tag (next_rowid (tag_id <$> tags d)) name])
          (photo_tags d).

(** SELECT tag_id FROM tags WHERE tag_name = ? *)
Definition select_tag_id (name : string) (d : db) : option Z :=
  tag_id <$> head (filter (λ t, tag_name t = name) (tags d)).

(** INSERT OR IGNORE INTO photo_tags (photo_id, tag_id) VALUES (?, ?) *)
Definition insert_or_ignore_link (pid tid : Z) (d : db) : db :=
  if bool_decide (PhotoTag pid tid ∈ photo_tags d) then d
  else Db (robot_categories d) (robots d) (photos d) (tags d)
          (photo_tags d ++ [PhotoTag pid tid]).

Definition add_tag_to_photo (photo_id : Z) (tag_name : string) : py unit :=
  dml (insert_or_ignore_tag tag_name);;
  row ← query (select_tag_id tag_name);
  match row with
  | None => raise (TypeError "'NoneType' object is not subscriptable")
  | Some tag_id =>
      bind_integer stored_photo_ids photo_id;;
      dml (insert_or_ignore_link photo_id tag_id);;
      commit
  end.

(** ** add_photo *)

(** SELECT rc.category_name FROM robots r
    JOIN robot_categories rc ON r.category_id = rc.category_id
    WHERE r.robot_id = ? *)
Definition select_robot_category (rid : Z) (d : db) : option string :=
  head (r ← filter (λ r, robot_id r = rid) (robots d);
        rc ← filter (λ rc, category_id rc = robot_category_id r) (robot_categories d);
        [category_name rc]).

Definition insert_photo (p : photo) (d : db) : db :=
  Db (robot_categories d) (robots d) (photos d ++ [p]) (tags d) (photo_tags d).

Fixpoint for_each {A} (l : list A) (body : A → py unit) : py unit :=
  match l with
  | [] => mret tt
  | x :: l' => body x;; for_each l' body
  end.

(** [timestamp] and [today] are the two readings of the clock,
    [datetime.now().strftime("%Y%m%d_%H%M%S")] and
    [datetime.now().date().isoformat()]. *)
Definition add_photo (robot_id : Z) (source_file photo_type : string)
    (description : option string) (tags : option (list string))
    (photographer : option string) (timestamp today : string) : py Z :=
  found ← path_exists source_file;
  if negb found
  then raise (FileNotFoundError ("Source file not found: " +:+ source_file))
  else
    bind_integer stored_robot_ids robot_id;;
    result ← query (select_robot_category robot_id);
    match result with
    | None => raise (ValueError ("Robot with ID " +:+ pretty robot_id +:+ " not found"))
    | Some category_name =>
        let category := replace_spaces (py_lower category_name) in
        let file_name := timestamp +:+ "_" +:+ path_name source_file in
        storage ← (λ w, (Returns (photo_storage w), w));
        let dest_path := path_join (path_join storage category) file_name in
        copy2 source_file dest_path;;
        size ← st_size dest_path;
        let file_size_kb := size `div` 1024 in
        photo_id ← query (λ d, next_rowid (photo_id <$> photos d));
        dml (insert_photo (Photo photo_id robot_id file_name dest_path today
                                 photo_type file_size_kb description photographer));;
        match tags with
        | Some (t :: ts) => for_each (t :: ts) (add_tag_to_photo photo_id)
        | _ => mret tt
        end;;
        commit;;
        mret photo_id
    end.

(** ** search_photos *)

Record photo_row := PhotoRow {
  row_photo_id : Z;
  row_file_name : string;
  row_file_path : string;
  row_upload_date : string;
  row_photo_type : string;
  row_description : option string;
  row_manufacturer : string;
  row_model_name : string;
  row_category_name : string
}.

(** SQLite's LIKE folds the 26 ASCII letters only. *)
Definition sql_lower (c : ascii) : ascii :=
  let n := N_of_ascii c in
  if bool_decide (65 ≤ n ≤ 90)%N then ascii_of_N (n + 32) else c.

(** [text LIKE pattern]: "%" stands for any run of characters, "_" for any
    one character, every other character for itself up to ASCII case. *)
Fixpoint sql_like (pattern text : string) : bool :=
  match pattern with
  | EmptyString => bool_decide (text = "")
  | String c pattern' =>
      if bool_decide (c = "%"%char)
      then (fix skip (t : string) : bool :=
              sql_like pattern' t ||
              match t with
              | EmptyString => false
              | String _ t' => skip t'
              end) text
      else match text with
           | EmptyString => false
           | String d text' =>
               (bool_decide (c = "_"%char) || bool_decide (sql_lower c = sql_lower d))
               && sql_like pattern' text'
           end
  end.

(** Truth value of an optional argument in [if category:] and the like:
    [None], the empty string and the empty list count as absent. *)
Definition given_str (o : option string) : option string :=
  match o with
  | Some s => if bool_decide (s = "") then None else Some s
  | None => None
  end.

Definition given_list (o : option (list string)) : option (list string) :=
  match o with
  | Some (t :: ts) => Some (t :: ts)
  | _ => None
  end.

(** SELECT pt.photo_id FROM photo_tags pt JOIN tags t ON pt.tag_id = t.tag_id
    WHERE t.tag_name IN (...) *)
Definition tagged_photo_ids (names : list string) (d : db) : list Z :=
  pt ← photo_tags d;
  t ← filter (λ t, tag_id t = link_tag_id pt) (tags d);
  if bool_decide (tag_name t ∈ names) then [link_photo_id pt] else [].

(** The conditions appended after WHERE 1=1, in the order the code adds
    them; [categ] and [manuf] are the arguments [category] and
    [manufacturer]. *)
Definition where_clauses (categ manuf model : option string)
    (tags : option (list string)) (d : db) : list (photo → robot → category → bool) :=
  match given_str categ with
  | Some c => [λ _ _ rc, bool_decide (category_name rc = c)]
  | None => []
  end ++
  match given_str manuf with
  | Some m => [λ _ r _, sql_like ("%" +:+ m +:+ "%") (manufacturer r)]
  | None => []
  end ++
  match given_str model with
  | Some m => [λ _ r _, sql_like ("%" +:+ m +:+ "%") (model_name r)]
  | None => []
  end ++
  match given_list tags with
  | Some names => [λ p _ _, bool_decide (photo_id p ∈ tagged_photo_ids names d)]
  | None => []
  end.

Definition make_photo_row (p : photo) (r : robot) (rc : category) : photo_row :=
  PhotoRow (photo_id p) (file_name p) (file_path p) (upload_date p)
           (photo_type p) (description p)
           (manufacturer r) (model_name r) (category_name rc).

(** FROM photos p JOIN robots r ON p.robot_id = r.robot_id
    JOIN robot_categories rc ON r.category_id = rc.category_id WHERE ...
    The query has no ORDER BY: the rows are listed here as a scan of the
    photo table yields them, and what is stated about the result is on its
    members and their number, not on their order. *)
Definition select_photos (clauses : list (photo → robot → category → bool))
    (d : db) : list photo_row :=
  p ← photos d;
  r ← filter (λ r, robot_id r = photo_robot_id p) (robots d);
  rc ← filter (λ rc, category_id rc = robot_category_id r) (robot_categories d);
  if forallb (λ clause, clause p r rc) clauses then [make_photo_row p r rc] else [].

Definition search_photos (categ manuf model : option string)
    (tags : option (list string)) : py (list photo_row) :=
  query (λ d, select_photos (where_clauses categ manuf model tags d) d).

(** ** get_statistics *)

(** [a LEFT JOIN b ON ...]: every left row is kept, with NULL when nothing
    on the right matches. *)
Definition left_join {A B} (l : list A) (matching : A → list B) : list (A * option B) :=
  a ← l;
  match matching a with
  | [] => [(a, None)]
  | bs => (λ b, (a, Some b)) <$> bs
  end.

(** FROM robot_categories rc
    LEFT JOIN robots r ON rc.category_id = r.category_id
    LEFT JOIN photos p ON r.robot_id = p.robot_id *)
Definition categories_robots_photos (d : db) : list (category * option robot * option photo) :=
  left_join
    (left_join (robot_categories d)
       (λ rc, filter (λ r, robot_category_id r = category_id rc) (robots d)))
    (λ j, match j.2 with
          | Some r => filter (λ p, photo_robot_id p = robot_id r) (photos d)
          | None => []
          end).

(** SELECT rc.category_name, COUNT(p.photo_id) ... GROUP BY rc.category_name:
    one row per name, counting the joined rows whose photo is not NULL. *)
Definition photos_by_category (d : db) : list (string * nat) :=
  let joined := categories_robots_photos d in
  (λ name,
     (name,
      length (filter (λ j, category_name j.1.1 = name ∧ is_Some j.2) joined)))
  <$> remove_dups ((λ j, category_name j.1.1) <$> joined).

(** [{row[0]: row[1] for row in rows}] *)
Definition dict_of_rows (rows : list (string * nat)) : gmap string nat :=
  foldl (λ m row, <[row.1 := row.2]> m) ∅ rows.

(** SELECT SUM(x): NULL over no rows. *)
Definition sql_sum (xs : list Z) : option Z :=
  match xs with
  | [] => None
  | _ => Some (foldr Z.add 0 xs)
  end.

(** Nearest integer, ties to the even one. *)
Definition round_half_even (q : Q) : Z :=
  let n := Qnum q in
  let d := Z.pos (Qden q) in
  let fl := n `div` d in
  match (2 * (n `mod` d) ?= d)%Z with
  | Lt => fl
  | Gt => fl + 1
  | Eq => if Z.even fl then fl else fl + 1
  end.

(** [round(x, 2)]. The float [total_kb / 1024] is exact for a total below
    2^53 and [round] rounds its exact value, so the result is given as the
    decimal it denotes. *)
Definition py_round2 (x : Q) : Q :=
  Qmake (round_half_even (x * 100)%Q) 100.

Record statistics := Statistics {
  total_photos : nat;
  by_category : gmap string nat;
  total_robots : nat;
  total_storage_mb : Q
}.

(** [value or 0]: [None] and zero both give 0. *)
Definition or_zero (value : option Z) : Z :=
  match value with
  | Some n => if bool_decide (n = 0) then 0 else n
  | None => 0
  end.

Definition get_statistics : py statistics :=
  total_photos ← query (λ d, length (photos d));
  rows ← query photos_by_category;
  total_robots ← query (λ d, length (robots d));
  total ← query (λ d, sql_sum (file_size_kb <$> photos d));
  let total_kb := or_zero total in
  mret (Statistics total_photos (dict_of_rows rows) total_robots
                   (py_round2 (inject_Z total_kb / 1024)%Q)).

(** ** list_all_robots *)

Record robot_summary := RobotSummary {
  sum_robot_id : Z;
  sum_manufacturer : string;
  sum_model_name : string;
  sum_robot_type : string;
  sum_year_released : option Z;
  sum_category_name : string;
  photo_count : nat
}.

(** FROM robots r JOIN robot_categories rc ON r.category_id = rc.category_id *)
Definition robots_categories (d : db) : list (robot * category) :=
  r ← robots d;
  rc ← filter (λ rc, category_id rc = robot_category_id r) (robot_categories d);
  [(r, rc)].

(** ... LEFT JOIN photos p ON r.robot_id = p.robot_id *)
Definition robots_categories_photos (d : db) : list (robot * category * option photo) :=
  left_join (robots_categories d)
    (λ j, filter (λ p, photo_robot_id p = robot_id j.1) (photos d)).

(** GROUP BY r.robot_id: one row per identifier; the plain columns come
    from the first joined row of the group and COUNT(p.photo_id) counts the
    rows of the group whose photo is not NULL. *)
Definition make_summary (r : robot) (rc : category) (count : nat) : robot_summary :=
  RobotSummary (robot_id r) (manufacturer r) (model_name r) (robot_type r)
               (year_released r) (category_name rc) count.

Definition group_by_robot (joined : list (robot * category * option photo)) : list robot_summary :=
  rid ← remove_dups ((λ j, robot_id j.1.1) <$> joined);
  let rows := filter (λ j, robot_id j.1.1 = rid) joined in
  match rows with
  | [] => []
  | (r, rc, _) :: _ =>
      [make_summary r rc (length (filter (λ j, is_Some j.2) rows))]
  end.

(** ORDER BY rc.category_name, r.manufacturer, r.model_name under the
    BINARY collation: character codes, left to right. *)
Definition order_key (s : robot_summary) : string * string * string :=
  (sum_category_name s, sum_manufacturer s, sum_model_name s).

Definition key_le (a b : string * string * string) : Prop :=
  if decide (a.1.1 = b.1.1)
  then if decide (a.1.2 = b.1.2)
       then String.le a.2 b.2
       else String.le a.1.2 b.1.2
  else String.le a.1.1 b.1.1.

Definition summary_le (a b : robot_summary) : Prop :=
  key_le (order_key a) (order_key b).

#[global] Instance key_le_dec : RelDecision key_le.
Proof. intros a b. unfold key_le. repeat case_decide; apply _. Defined.

#[global] Instance summary_le_dec : RelDecision summary_le.
Proof. intros a b. unfold summary_le. apply _. Defined.

Definition list_all_robots : py (list robot_summary) :=
  query (λ d, merge_sort summary_le (group_by_robot (robots_categories_photos d))).

(** ** The spec's error taxonomy *)

Inductive error_kind :=
  | NotFoundError
  | IOError
  | OtherError.

(** The lookups of the class raise [ValueError] for an unknown category or
    robot and [FileNotFoundError] for a missing file. *)
Definition classify (e : exn) : error_kind :=
  match e with
  | ValueError _ => NotFoundError
  | FileNotFoundError _ => NotFoundError
  | NotADirectoryError _ => IOError
  | OSError _ => IOError
  | TypeError _ => OtherError
  | OverflowError _ => OtherError
  end.

(** ** Invariants of the data model

    Modelled from the spec: the constraints database_schema.sql declares
    are not part of the sources. The spec's data model makes identifiers
    keys of their tables, tag names unique and a photo-tag link unique per
    pair ([schema_ok]), and has every robot reference an existing category
    and every photo an existing robot ([references_ok]). *)
Definition schema_ok (d : db) : Prop :=
  NoDup (category_id <$> robot_categories d) ∧
  NoDup (robot_id <$> robots d) ∧
  NoDup (photo_id <$> photos d) ∧
  NoDup (tag_id <$> tags d) ∧
  NoDup (tag_name <$> tags d) ∧
  NoDup (photo_tags d).

Definition references_ok (d : db) : Prop :=
  Forall (λ r, robot_category_id r ∈ category_id <$> robot_categories d) (robots d) ∧
  Forall (λ p, photo_robot_id p ∈ robot_id <$> robots d) (photos d).

#[global] Instance schema_ok_dec d : Decision (schema_ok d).
Proof. unfold schema_ok. apply _. Defined.

#[global] Instance references_ok_dec d : Decision (references_ok d).
Proof. unfold references_ok. apply _. Defined.

(** A connection with nothing pending. *)
Definition fresh_connection (d : db) : connection := Connection d d false [].

(** The scenario of the spec: the three categories, one drone, and a
    storage tree with the directories [__init__] creates. *)
Definition demo_db : db :=
  Db [Category 1 "Drones"; Category 2 "AMRs"; Category 3 "Robotic Arms"]
     [Robot 1 1 "Acme" "X1" "quadcopter" None None]
     [] [] [].

Definition demo_disk : filesystem :=
  [("photo_storage", Dir 4096);
   ("photo_storage/drones", Dir 4096);
   ("photo_storage/amrs", Dir 4096);
   ("photo_storage/robotic_arms", Dir 4096);
   ("uploads/x1.jpg", File 200000)].

Definition demo_world : world :=
  World "photo_storage" (fresh_connection demo_db) demo_disk.

(** The demo world after one photo with two tags has been added. *)
Definition demo_world_with_photo : world :=
  (add_photo 1 "uploads/x1.jpg" "general" None (Some ["aerial"; "4k"]) None
             "20240501_101500" "2024-05-01" demo_world).2.

(** ** Vocabulary of the claims about search *)

(** [needle] occurs in [text] as a contiguous run of characters, letter
    case included. *)
Definition occurs_in (needle text : string) : Prop :=
  ∃ before after, text = before +:+ needle +:+ after.

(** The same up to the case of the ASCII letters. *)
Definition occurs_in_nocase (needle text : string) : Prop :=
  ∃ before mid after,
    text = before +:+ mid +:+ after ∧
    map_string sql_lower mid = map_string sql_lower needle.

(** No character of [s] is one of the wildcards of LIKE. *)
Fixpoint plain_text (s : string) : bool :=
  match s with
  | EmptyString => true
  | String c s' =>
      negb (bool_decide (c = "%"%char)) && negb (bool_decide (c = "_"%char))
      && plain_text s'
  end.

(** The photo's robot is there, and that robot's category too. *)
Definition photo_resolves (d : db) (p : photo) : Prop :=
  Exists (λ r, robot_id r = photo_robot_id p ∧
               robot_category_id r ∈ category_id <$> robot_categories d)
         (robots d).

#[global] Instance photo_resolves_dec d p : Decision (photo_resolves d p).
Proof. unfold photo_resolves. apply _. Defined.

(** The sum of the values of the by_category dictionary. *)
Definition dict_total (m : gmap string nat) : nat :=
  sum_list (snd <$> map_to_list m).

(** Both invariants, for the tables as the connection reads them. *)
Definition world_ok (w : world) : Prop :=
  schema_ok (view (conn w)) ∧ references_ok (view (conn w)).

(** ** The tables after a call

    What add_tag_to_photo and add_photo do to the tables the connection
    reads, as functions of those tables. *)

Definition tag_photo (pid : Z) (name : string) (d : db) : db :=
  let d1 := insert_or_ignore_tag name d in
  match select_tag_id name d1 with
  | Some tid => insert_or_ignore_link pid tid d1
  | None => d1
  end.

Definition tag_photo_all (pid : Z) (names : list string) (d : db) : db :=
  foldl (λ d' name, tag_photo pid name d') d names.

(** The tag list add_photo loops over: [if tags:] skips [None] and []. *)
Definition tags_given (o : option (list string)) : list string :=
  match o with
  | Some names => names
  | None => []
  end.

(** Where add_photo puts the copy of [source_file] for a robot whose
    category is named [cname]. *)
Definition destination (storage cname timestamp source_file : string) : string :=
  path_join (path_join storage (replace_spaces (py_lower cname)))
            (timestamp +:+ "_" +:+ path_name source_file).

(** A world whose only robot is in a category that has no directory in
    the storage tree. *)
Definition humanoid_world : world :=
  World "photo_storage"
        (fresh_connection
           (Db [Category 1 "Drones"; Category 4 "Humanoids"]
               [Robot 1 4 "Acme" "H1" "biped" None None] [] [] []))
        demo_disk.

(** The photo carries the tag: a tag row of that name and a link row
    from the photo to it. *)
Definition linked (pid : Z) (name : string) (d : db) : Prop :=
  ∃ tg, tg ∈ tags d ∧ tag_name tg = name ∧ PhotoTag pid (tag_id tg) ∈ photo_tags d.

(** ** The upload form (web_upload_interface.py) *)

Definition ALLOWED_EXTENSIONS : list string := ["jpg"; "jpeg"; "png"; "gif"; "webp"].

(** [c in s] for a one-character [c]. *)
Fixpoint contains_char (c : ascii) (s : string) : bool :=
  match s with
  | EmptyString => false
  | String x s' => bool_decide (x = c) || contains_char c s'
  end.

(** The text before and after the last [sep] of [s], if [s] has one. *)
Fixpoint cut_last (sep : ascii) (s : string) : option (string * string) :=
  match s with
  | EmptyString => None
  | String c s' =>
      match cut_last sep s' with
      | Some (before, after) => Some (String c before, after)
      | None => if bool_decide (c = sep) then Some ("", s') else None
      end
  end.

(** [s.rsplit(sep, 1)] *)
Definition rsplit1 (sep : ascii) (s : string) : list string :=
  match cut_last sep s with
  | Some (before, after) => [before; after]
  | None => [s]
  end.

(** [allowed_file]: the index 1 is only taken when the name has a dot. *)
Definition allowed_file (filename : string) : bool :=
  contains_char "." filename &&
  match rsplit1 "." filename !! 1%nat with
  | Some extension => bool_decide (py_lower extension ∈ ALLOWED_EXTENSIONS)
  | None => false
  end.

(** [str.isspace] on code points below 256. *)
Definition py_isspace (c : ascii) : bool :=
  let n := N_of_ascii c in
  bool_decide ((9 ≤ n ≤ 13) ∨ (28 ≤ n ≤ 32) ∨ n = 133 ∨ n = 160)%N.

Fixpoint py_lstrip (s : string) : string :=
  match s with
  | EmptyString => EmptyString
  | String c s' => if py_isspace c then py_lstrip s' else s
  end.

Fixpoint py_rstrip (s : string) : string :=
  match s with
  | EmptyString => EmptyString
  | String c s' =>
      match py_rstrip s' with
      | EmptyString => if py_isspace c then EmptyString else String c EmptyString
      | rest => String c rest
      end
  end.

(** [s.strip()] *)
Definition py_strip (s : string) : string := py_lstrip (py_rstrip s).

(** [s.split(sep)]: one field more than there are separators. *)
Fixpoint split_on (sep : ascii) (s : string) : list string :=
  match s with
  | EmptyString => [EmptyString]
  | String c s' =>
      if bool_decide (c = sep) then EmptyString :: split_on sep s'
      else match split_on sep s' with
           | first :: rest => String c first :: rest
           | [] => [String c EmptyString]
           end
  end.

(** The tag list upload_photo hands to add_photo, from the form field
    "tags" ([None] when the form has no such field):
    [tags = request.form.get('tags', '').split(',') if request.form.get('tags') else None]
    [tags = [t.strip() for t in tags if t.strip()] if tags else None] *)
Definition upload_photo_tags (field : option string) : option (list string) :=
  let tags :=
    match given_str field with
    | Some s => Some (split_on "," s)
    | None => None
    end in
  match given_list tags with
  | Some fields => Some (py_strip <$> filter (λ t, py_strip t ≠ "") fields)
  | None => None
  end.

(** ** The storage tree and the photo route

    [RoboticsPhotoDatabase.__init__] and the route serve_photo of
    marketplace_integrated.py, marketplace_integrated_v2.py and
    photo_gallery_viewer.py. *)

(** [Path(p).is_dir()] *)
Definition is_dir (p : string) (l : filesystem) : bool :=
  match lookup_path p l with
  | Some (Dir _) => true
  | _ => false
  end.

(** [Path(p).mkdir(exist_ok=True)]: the directory above has to be there;
    the empty parent is the working directory (or the root), which is. *)
Definition mkdir_exist_ok (p : string) : py unit :=
  λ w,
    match lookup_path p (disk w) with
    | Some (Dir _) => (Returns tt, w)
    | Some (File _) => raise (OSError ("File exists: " +:+ p)) w
    | None =>
        if bool_decide (path_parent p = "") || is_dir (path_parent p) (disk w)
        then (Returns tt,
              World (photo_storage w) (conn w) ((p, Dir 4096) :: disk w))
        else
          match lookup_path (path_parent p) (disk w) with
          | Some _ => raise (NotADirectoryError ("Not a directory: " +:+ p)) w
          | None => raise (FileNotFoundError ("No such file or directory: " +:+ p)) w
          end
    end.

Definition storage_categories : list string := ["drones"; "amrs"; "robotic_arms"].

(** The directories [__init__] creates for the storage [storage]; the
    fields it sets belong to the new object. *)
Definition init (storage : string) : py unit :=
  mkdir_exist_ok storage;;
  for_each storage_categories (λ category, mkdir_exist_ok (path_join storage category)).

Inductive response :=
  | SendFile (path : string) (size : Z) (mimetype : string)
  | NotFound.

(** SELECT file_path FROM photos WHERE photo_id = ? *)
Definition select_file_path (pid : Z) (d : db) : option string :=
  file_path <$> head (filter (λ p, photo_id p = pid) (photos d)).

(** [send_file(path, mimetype=...)]: the file is opened for reading. *)
Definition send_file (path mimetype : string) : py response :=
  λ w,
    match lookup_path path (disk w) with
    | Some (File size) => (Returns (SendFile path size mimetype), w)
    | Some (Dir _) => raise (OSError ("Is a directory: " +:+ path)) w
    | None => raise (FileNotFoundError ("No such file or directory: " +:+ path)) w
    end.

(** The route makes a database object of its own, with the default
    storage, and connects: the new connection reads the committed tables. *)
Definition serve_photo (photo_id : Z) : py response :=
  init "photo_storage";;
  bind_integer_of durable stored_photo_ids photo_id;;
  result ← (λ w, (Returns (select_file_path photo_id (durable (conn w))), w));
  match result with
  | Some photo_path =>
      found ← path_exists photo_path;
      if (found : bool) then send_file photo_path "image/jpeg" else mret NotFound
  | None => mret NotFound
  end.

(** The directories of [init storage] are there. *)
Definition storage_ready (storage : string) (l : filesystem) : Prop :=
  Forall (λ p, is_dir p l = true)
         (storage :: (path_join storage <$> storage_categories)).

(** The photo's robot is in a category of that name. *)
Definition photo_in_category (d : db) (name : string) (p : photo) : Prop :=
  Exists (λ r, robot_id r = photo_robot_id p ∧
               Exists (λ rc, category_id rc = robot_category_id r ∧
                             category_name rc = name)
                      (robot_categories d))
         (robots d).

#[global] Instance photo_in_category_dec d name p : Decision (photo_in_category d name p).
Proof. unfold photo_in_category. apply _. Defined.

(** ** Content types (upload_to_s3.py) *)

(** [s.endswith(suffix)] *)
Fixpoint ends_with (suffix s : string) {struct s} : bool :=
  bool_decide (s = suffix) ||
  match s with
  | EmptyString => false
  | String _ s' => ends_with suffix s'
  end.

(** The content type upload_photos gives the S3 object of a photo. *)
Definition content_type (file_name : string) : string :=
  if ends_with ".png" (py_lower file_name) then "image/png"
  else if ends_with ".webp" (py_lower file_name) then "image/webp"
  else if ends_with ".gif" (py_lower file_name) then "image/gif"
  else "image/jpeg".

(** ** Product images (generate_static_api.py, marketplace_integrated_v2.py) *)

Definition placeholder_url (manufacturer model_name : string) : string :=
  "https://via.placeholder.com/400x300?text=" +:+ manufacturer +:+ "+" +:+ model_name.

(** [while len(urls) < 4: urls.append(urls[0])]; [None] stands for the
    IndexError of [urls[0]] on an empty list. *)
Function pad_to_four (urls : list string)
    {measure (λ l : list string, (4 - length l)%nat) urls} : option (list string) :=
  if (length urls <? 4)%nat then
    match urls with
    | [] => None
    | u :: rest => pad_to_four (u :: rest ++ [u])%list
    end
  else Some urls.
Proof.
  intros urls u rest -> Hlt. apply Nat.ltb_lt in Hlt.
  simpl in *. rewrite length_app. simpl. lia.
Defined.

(** The fields 'image' and 'images' of a product, from the URLs of the
    robot's photos: the placeholder when there are none, then the padding,
    then [urls[0]] and [urls[:4]]. *)
Definition product_images (urls : list string) (manufacturer model_name : string)
    : option (string * list string) :=
  let urls :=
    match urls with
    | [] => [placeholder_url manufacturer model_name]
    | _ => urls
    end in
  urls ← pad_to_four urls;
  image ← head urls;
  Some (image, take 4 urls).

(** No character of [s] other than the wildcard "%". *)
Fixpoint all_percent (s : string) : bool :=
  match s with
  | EmptyString => true
  | String c s' => bool_decide (c = "%"%char) && all_percent s'
  end.

(** ** Routes that read (marketplace_integrated.py, photo_gallery_viewer.py)

    [db = RoboticsPhotoDatabase(); db.connect(); ...; db.close()] around
    calls that only read: the object of the request makes its directories,
    its connection reads the committed tables, and closing it leaves the
    rest of the world as it is. *)
Definition with_new_database {A} (reads : py A) : py A :=
  init "photo_storage";;
  ((λ w, ((reads (World "photo_storage" (fresh_connection (durable (conn w)))
                        (disk w))).1, w)) : py A).

Fixpoint map_py {A B} (f : A → py B) (l : list A) : py (list B) :=
  match l with
  | [] => mret []
  | x :: l' => y ← f x; ys ← map_py f l'; mret (y :: ys)
  end.

Record robot_photo := RobotPhoto {
  rp_photo_id : Z;
  rp_file_name : string;
  rp_description : option string
}.

Record robot_with_photos := RobotWithPhotos {
  rwp_robot : robot_summary;
  rwp_photos : list robot_photo
}.

(** SELECT photo_id, file_name, description FROM photos WHERE robot_id = ? *)
Definition select_robot_photos (rid : Z) (d : db) : list robot_photo :=
  (λ p, RobotPhoto (photo_id p) (file_name p) (description p))
  <$> filter (λ p, photo_robot_id p = rid) (photos d).

(** [get_robots] of marketplace_integrated.py *)
Definition get_robots : py (list robot_with_photos) :=
  with_new_database
    (robots_data ← list_all_robots;
     map_py (λ robot,
               photos ← query (select_robot_photos (sum_robot_id robot));
               mret (RobotWithPhotos robot photos))
            robots_data).

(** [gallery] of photo_gallery_viewer.py: what the template is given. *)
Definition gallery : py (list photo_row * statistics) :=
  with_new_database
    (photos ← search_photos None None None None;
     stats ← get_statistics;
     mret (photos, stats)).

(** * Properties *)

(** Decidable side conditions on concrete data are settled by evaluation. *)
Ltac by_evaluation := apply (bool_decide_unpack _); vm_compute; exact I.

(** ** Row identifiers are fresh *)

Lemma foldr_max_ge (i : Z) (rest : list Z) :
  i ≤ foldr Z.max i rest ∧ Forall (λ j, j ≤ foldr Z.max i rest) rest.
Proof.
  induction rest as [|j rest [IH1 IH2]]; simpl.
  - split; [lia | constructor].
  - split; [lia|]. constructor; [lia|].
    eapply Forall_impl; [exact IH2|]. simpl. intros. lia.
Qed.

Lemma next_rowid_fresh (ids : list Z) : next_rowid ids ∉ ids.
Proof.
  destruct ids as [|i rest]; simpl.
  - apply not_elem_of_nil.
  - destruct (foldr_max_ge i rest) as [H1 H2].
    rewrite Forall_forall in H2.
    intros [Hi | Hin]%elem_of_cons; [lia|].
    specialize (H2 _ Hin). lia.
Qed.

(** ** Lookups by key *)

Lemma head_filter_None {A} (P : A → Prop) `{∀ x, Decision (P x)} (l : list A) :
  Forall (λ x, ¬ P x) l → head (filter P l) = None.
Proof.
  induction 1 as [|x l Hx _ IH]; [done|].
  rewrite filter_cons. by destruct (decide (P x)).
Qed.

Lemma head_filter_Some {A} (P : A → Prop) `{∀ x, Decision (P x)} (l : list A) x :
  x ∈ l → P x → ∃ y, head (filter P l) = Some y ∧ y ∈ l ∧ P y.
Proof.
  induction l as [|z l IH]; intros Hin HP.
  - by apply elem_of_nil in Hin.
  - rewrite filter_cons. destruct (decide (P z)) as [Hz|Hz].
    + exists z. split; [done|]. split; [left | done].
    + apply elem_of_cons in Hin as [->|Hin]; [done|].
      destruct (IH Hin HP) as (y & ? & ? & ?).
      exists y. split; [done|]. split; [by right | done].
Qed.

Lemma select_category_id_None name d :
  name ∉ category_name <$> robot_categories d → select_category_id name d = None.
Proof.
  intros Hn. unfold select_category_id.
  rewrite head_filter_None; [done|].
  apply Forall_forall. intros c Hc Heq. apply Hn.
  apply list_elem_of_fmap. by exists c.
Qed.

Lemma select_category_id_Some name d :
  name ∈ category_name <$> robot_categories d →
  ∃ c, select_category_id name d = Some (category_id c) ∧
       c ∈ robot_categories d ∧ category_name c = name.
Proof.
  intros (c & -> & Hc)%list_elem_of_fmap. unfold select_category_id.
  destruct (head_filter_Some (λ c', category_name c' = category_name c)
              (robot_categories d) c Hc eq_refl) as (y & -> & ? & ?).
  by exists y.
Qed.

(** ** Binding a parameter *)

Lemma bind_integer_of_ok tables stored n w :
  bindable (stored (tables (conn w))) n →
  bind_integer_of tables stored n w = (Returns tt, w).
Proof. intros Hn. unfold bind_integer_of. by rewrite decide_True. Qed.

Lemma bind_integer_of_overflow tables stored n w :
  ¬ bindable (stored (tables (conn w))) n →
  bind_integer_of tables stored n w = (Raises bind_error, w).
Proof. intros Hn. unfold bind_integer_of. by rewrite decide_False. Qed.

Lemma bind_integer_keeps_world tables stored n w o w' :
  bind_integer_of tables stored n w = (o, w') → w' = w.
Proof. unfold bind_integer_of. case_decide; by intros [= _ <-]. Qed.

Lemma stored_is_bindable (stored : list Z) n : n ∈ stored → bindable stored n.
Proof. by right. Qed.

Lemma integer_is_bindable (stored : list Z) n : sqlite_integer n → bindable stored n.
Proof. by left. Qed.

(** ** add_robot *)

(** C3: add_robot with a category name that is not in robot_categories
    raises the not-found error and leaves the world as it was (no robot row
    is inserted); with a name that is there (and a year_released, if one is
    given, that is a 64-bit integer) it appends exactly one robot row, under
    a fresh identifier, commits it and returns the identifier of that row.
    A year_released outside the 64-bit range cannot be bound: the call then
    raises OverflowError with the tables, the committed tables, the journal
    and the storage tree as they were (the INSERT has begun a transaction
    and changed nothing). *)
Theorem add_robot_resolves_category
    (cname manuf model rtype : string) (year : option Z) (specs : option string)
    (w : world) :
  let d := view (conn w) in
  (cname ∉ category_name <$> robot_categories d →
     ∃ e, add_robot cname manuf model rtype year specs w = (Raises e, w) ∧
          classify e = NotFoundError) ∧
  (cname ∈ category_name <$> robot_categories d →
   (∀ y, year = Some y → sqlite_integer y) →
     ∃ c r w',
       add_robot cname manuf model rtype year specs w = (Returns (robot_id r), w') ∧
       c ∈ robot_categories d ∧ category_name c = cname ∧
       r = Robot (robot_id r) (category_id c) manuf model rtype year specs ∧
       (robot_id r ∉ robot_id <$> robots d) ∧
       robots (view (conn w')) = (robots d ++ [r])%list ∧
       robot_categories (view (conn w')) = robot_categories d ∧
       photos (view (conn w')) = photos d ∧
       tags (view (conn w')) = tags d ∧
       photo_tags (view (conn w')) = photo_tags d ∧
       durable (conn w') = view (conn w') ∧
       disk w' = disk w) ∧
  (cname ∈ category_name <$> robot_categories d →
   ∀ y, year = Some y → ¬ sqlite_integer y →
     ∃ msg w',
       add_robot cname manuf model rtype year specs w
       = (Raises (OverflowError msg), w') ∧
       view (conn w') = d ∧
       durable (conn w') = durable (conn w) ∧
       journal (conn w') = journal (conn w) ∧
       disk w' = disk w).
Proof.
  intros d. split; [|split].
  - intros Hn. eexists. split.
    + unfold add_robot, mbind, py_bind, query. fold d.
      rewrite (select_category_id_None _ _ Hn). reflexivity.
    + reflexivity.
  - intros Hin Hyear.
    destruct (select_category_id_Some _ _ Hin) as (c & Hsel & Hc & Hname).
    exists c, (new_robot d (category_id c) manuf model rtype year specs).
    eexists. split.
    { unfold add_robot, mbind, py_bind, query. fold d. rewrite Hsel.
      destruct year as [y|]; [|reflexivity].
      unfold implicit_begin, with_conn, bind_integer. cbv beta iota.
      rewrite bind_integer_of_ok by (left; by apply Hyear). reflexivity. }
    simpl. repeat split; try done.
    apply next_rowid_fresh.
  - intros Hin y -> Hy.
    destruct (select_category_id_Some _ _ Hin) as (c & Hsel & Hc & Hname).
    eexists _, _. split.
    { unfold add_robot, mbind, py_bind, query. fold d. rewrite Hsel.
      unfold implicit_begin, with_conn, bind_integer. cbv beta iota.
      rewrite bind_integer_of_overflow; [reflexivity|].
      intros [?|Hin']; [done|]. by apply elem_of_nil in Hin'. }
    done.
Qed.

Lemma add_robot_resolves_category_witness :
  (∃ e, add_robot "Humanoids" "Acme" "H1" "biped" None None demo_world
        = (Raises e, demo_world) ∧ classify e = NotFoundError) ∧
  (∃ r w', add_robot "AMRs" "Bolt" "M2" "tugger" (Some 2021) None demo_world
           = (Returns (robot_id r), w') ∧
           robots (view (conn w')) = (robots demo_db ++ [r])%list) ∧
  (∃ msg w', add_robot "AMRs" "Bolt" "M2" "tugger" (Some (2 ^ 63)) None demo_world
             = (Raises (OverflowError msg), w') ∧
             view (conn w') = demo_db).
Proof.
  pose proof (add_robot_resolves_category "Humanoids" "Acme" "H1" "biped"
                None None demo_world) as [H1 _].
  pose proof (add_robot_resolves_category "AMRs" "Bolt" "M2" "tugger"
                (Some 2021) None demo_world) as (_ & H2 & _).
  pose proof (add_robot_resolves_category "AMRs" "Bolt" "M2" "tugger"
                (Some (2 ^ 63)) None demo_world) as (_ & _ & H3).
  split; [|split].
  - apply H1. by_evaluation.
  - destruct H2 as (c & r & w' & Hrun & _ & _ & _ & _ & Hrobots & _).
    + by_evaluation.
    + intros y [= <-]. by_evaluation.
    + exists r, w'. split; [exact Hrun | exact Hrobots].
  - destruct (H3 ltac:(by_evaluation) (2 ^ 63) eq_refl) as (msg & w' & Hrun & Hview & _).
    + by_evaluation.
    + exists msg, w'. split; [exact Hrun | exact Hview].
Defined.

(** ** add_photo: the two lookups *)

Lemma filter_none {A} (P : A → Prop) `{∀ x, Decision (P x)} (l : list A) :
  Forall (λ x, ¬ P x) l → filter P l = [].
Proof.
  induction 1 as [|x l Hx _ IH]; [done|].
  rewrite filter_cons. by destruct (decide (P x)).
Qed.

Lemma select_robot_category_None rid d :
  rid ∉ robot_id <$> robots d → select_robot_category rid d = None.
Proof.
  intros Hn. unfold select_robot_category.
  rewrite filter_none; [done|].
  apply Forall_forall. intros r Hr Heq. apply Hn.
  apply list_elem_of_fmap. by exists r.
Qed.

(** C4, as stated, fails for a robot_id outside the 64-bit range: the
    SELECT cannot bind it and the call raises OverflowError, which is not a
    not-found error. *)
Lemma add_photo_unknown_robot_counterexample :
  ¬ (∀ (w : world) (rid : Z) (source_file ptype : string) (descr : option string)
       (tag_names : option (list string)) (photog : option string)
       (timestamp today : string),
       is_Some (lookup_path source_file (disk w)) →
       rid ∉ robot_id <$> robots (view (conn w)) →
       ∃ e w',
         add_photo rid source_file ptype descr tag_names photog timestamp today w
         = (Raises e, w') ∧
         classify e = NotFoundError).
Proof.
  intros Hclaim.
  destruct (Hclaim demo_world (2 ^ 63) "uploads/x1.jpg" "general" None None None
              "20240501_101500" "2024-05-01")
    as (e & w' & Hrun & Hkind).
  - by_evaluation.
  - by_evaluation.
  - vm_compute in Hrun. injection Hrun as <- _. discriminate Hkind.
Qed.

(** C4, amended: add_photo for a robot_id that no robot row carries,
    called with a source file that exists, leaves the whole world as it
    was: nothing is copied into the storage tree and no row is inserted.
    For a robot_id in the 64-bit range it raises the not-found error; for
    one outside that range it raises OverflowError. *)
Theorem add_photo_unknown_robot
    (rid : Z) (source_file ptype : string) (descr : option string)
    (tag_names : option (list string)) (photog : option string)
    (timestamp today : string) (w : world) :
  is_Some (lookup_path source_file (disk w)) →
  rid ∉ robot_id <$> robots (view (conn w)) →
  (sqlite_integer rid →
     add_photo rid source_file ptype descr tag_names photog timestamp today w
     = (Raises (ValueError ("Robot with ID " +:+ pretty rid +:+ " not found")), w) ∧
     classify (ValueError ("Robot with ID " +:+ pretty rid +:+ " not found"))
     = NotFoundError) ∧
  (¬ sqlite_integer rid →
     ∃ msg,
       add_photo rid source_file ptype descr tag_names photog timestamp today w
       = (Raises (OverflowError msg), w) ∧
       classify (OverflowError msg) ≠ NotFoundError).
Proof.
  intros Hsrc Hn. split.
  - intros Hint. split; [|reflexivity].
    unfold add_photo, mbind, py_bind, path_exists, query.
    rewrite (bool_decide_eq_true_2 _ Hsrc). cbn [negb].
    unfold bind_integer. rewrite bind_integer_of_ok by by left.
    by rewrite (select_robot_category_None _ _ Hn).
  - intros Hint. eexists. split; [|done].
    unfold add_photo, mbind, py_bind, path_exists, query.
    rewrite (bool_decide_eq_true_2 _ Hsrc). cbn [negb].
    unfold bind_integer. rewrite bind_integer_of_overflow; [reflexivity|].
    by intros [?|?].
Qed.

Lemma add_photo_unknown_robot_witness :
  add_photo 7 "uploads/x1.jpg" "general" None (Some ["aerial"]) None
            "20240501_101500" "2024-05-01" demo_world
  = (Raises (ValueError "Robot with ID 7 not found"), demo_world).
Proof.
  refine (proj1 (proj1 (add_photo_unknown_robot 7 "uploads/x1.jpg" "general" None
                          (Some ["aerial"]) None "20240501_101500" "2024-05-01"
                          demo_world _ _) _)); by_evaluation.
Defined.



(** ** add_tag_to_photo *)

Lemma filter_key_singleton {A K} (f : A → K) `{EqDecision K} (l : list A) (x : A) :
  NoDup (f <$> l) → x ∈ l → filter (λ y, f y = f x) l = [x].
Proof.
  induction l as [|y l IH]; intros Hnd Hin.
  - by apply elem_of_nil in Hin.
  - rewrite fmap_cons in Hnd. apply NoDup_cons in Hnd as [Hy Hnd].
    rewrite filter_cons. apply elem_of_cons in Hin as [->|Hin].
    + rewrite decide_True by done. f_equal.
      apply filter_none, Forall_forall. intros z Hz Heq.
      apply Hy. rewrite <- Heq. apply list_elem_of_fmap. by exists z.
    + rewrite decide_False; [by apply IH|].
      intros Heq. apply Hy. rewrite Heq. apply list_elem_of_fmap. by exists x.
Qed.

Lemma tag_names_after_insert name d :
  name ∈ tag_name <$> tags (insert_or_ignore_tag name d).
Proof.
  unfold insert_or_ignore_tag. case_bool_decide as Hin; [done|]. simpl.
  rewrite fmap_app. apply elem_of_app. right. simpl. left.
Qed.

Lemma insert_or_ignore_tag_present name d :
  name ∈ tag_name <$> tags d → insert_or_ignore_tag name d = d.
Proof. intros Hin. unfold insert_or_ignore_tag. by rewrite bool_decide_eq_true_2. Qed.

Lemma insert_or_ignore_link_present pid tid d :
  PhotoTag pid tid ∈ photo_tags d → insert_or_ignore_link pid tid d = d.
Proof. intros Hin. unfold insert_or_ignore_link. by rewrite bool_decide_eq_true_2. Qed.

Lemma link_after_insert pid tid d :
  PhotoTag pid tid ∈ photo_tags (insert_or_ignore_link pid tid d).
Proof.
  unfold insert_or_ignore_link. case_bool_decide as Hin; [done|]. simpl.
  apply elem_of_app. right. left.
Qed.

Lemma tags_after_link pid tid d : tags (insert_or_ignore_link pid tid d) = tags d.
Proof. unfold insert_or_ignore_link. by case_bool_decide. Qed.

Lemma tag_names_unique_after_insert name d :
  NoDup (tag_name <$> tags d) → NoDup (tag_name <$> tags (insert_or_ignore_tag name d)).
Proof.
  intros Hnd. unfold insert_or_ignore_tag. case_bool_decide as Hin; [done|]. simpl.
  rewrite fmap_app. apply NoDup_app. split; [done|]. split.
  - intros x Hx [->|[]%elem_of_nil]%elem_of_cons. done.
  - apply NoDup_singleton.
Qed.

Lemma links_unique_after_insert pid tid d :
  NoDup (photo_tags d) → NoDup (photo_tags (insert_or_ignore_link pid tid d)).
Proof.
  intros Hnd. unfold insert_or_ignore_link. case_bool_decide as Hin; [done|]. simpl.
  apply NoDup_app. split; [done|]. split.
  - intros x Hx [->|[]%elem_of_nil]%elem_of_cons. done.
  - apply NoDup_singleton.
Qed.

Lemma select_tag_id_present name d :
  name ∈ tag_name <$> tags d →
  ∃ t, select_tag_id name d = Some (tag_id t) ∧ t ∈ tags d ∧ tag_name t = name.
Proof.
  intros (t & -> & Ht)%list_elem_of_fmap. unfold select_tag_id.
  destruct (head_filter_Some (λ t', tag_name t' = tag_name t) (tags d) t Ht eq_refl)
    as (y & -> & ? & ?).
  by exists y.
Qed.

Lemma photos_after_tag name d : photos (insert_or_ignore_tag name d) = photos d.
Proof. unfold insert_or_ignore_tag. by case_bool_decide. Qed.

(** What one call does, once the SELECT has found the tag and the
    photo_id can be bound. *)
Lemma add_tag_to_photo_run pid name w tid :
  bindable (photo_id <$> photos (view (conn w))) pid →
  select_tag_id name (insert_or_ignore_tag name (view (conn w))) = Some tid →
  add_tag_to_photo pid name w
  = (Returns tt,
     let d' := insert_or_ignore_link pid tid
                 (insert_or_ignore_tag name (view (conn w))) in
     World (photo_storage w)
           (Connection d' d' false (d' :: journal (conn w))) (disk w)).
Proof.
  intros Hpid Hsel.
  unfold add_tag_to_photo, mbind, py_bind, dml, with_conn, query, commit.
  cbn [view conn]. rewrite Hsel. unfold bind_integer.
  rewrite bind_integer_of_ok; [reflexivity|].
  cbn [view conn]. unfold stored_photo_ids. by rewrite photos_after_tag.
Qed.

(** A photo_id that cannot be bound: the tag row is there, uncommitted,
    when the INSERT of the link raises. *)
Lemma add_tag_to_photo_overflow pid name w :
  ¬ bindable (photo_id <$> photos (view (conn w))) pid →
  add_tag_to_photo pid name w
  = (Raises bind_error,
     World (photo_storage w)
           (Connection (durable (conn w))
                       (insert_or_ignore_tag name (view (conn w))) true
                       (journal (conn w)))
           (disk w)).
Proof.
  intros Hpid.
  destruct (select_tag_id_present name _ (tag_names_after_insert name (view (conn w))))
    as (t & Hsel & _).
  unfold add_tag_to_photo, mbind, py_bind, dml, with_conn, query, commit.
  cbn [view conn]. rewrite Hsel. unfold bind_integer.
  rewrite bind_integer_of_overflow; [reflexivity|].
  cbn [view conn]. unfold stored_photo_ids. by rewrite photos_after_tag.
Qed.

(** C6, as stated, fails for a photo_id outside the 64-bit range: the
    INSERT of the link cannot bind it, both calls raise OverflowError and no
    link row is there afterwards. *)
Lemma add_tag_to_photo_idempotent_counterexample :
  ¬ (∀ (w : world) (pid : Z) (name : string),
       NoDup (tag_name <$> tags (view (conn w))) →
       NoDup (photo_tags (view (conn w))) →
       let w2 := (add_tag_to_photo pid name (add_tag_to_photo pid name w).2).2 in
       ∃ tg,
         filter (λ t, tag_name t = name) (tags (view (conn w2))) = [tg] ∧
         filter (λ l, link_photo_id l = pid ∧ link_tag_id l = tag_id tg)
                (photo_tags (view (conn w2)))
         = [PhotoTag pid (tag_id tg)]).
Proof.
  intros Hclaim.
  destruct (Hclaim demo_world (2 ^ 63) "aerial") as (tg & _ & Hlink).
  - by_evaluation.
  - by_evaluation.
  - vm_compute in Hlink. discriminate Hlink.
Qed.

(** C6, amended: for a photo_id in the 64-bit range, and with tag names
    and links unique as the schema has them, calling add_tag_to_photo twice
    with the same photo_id and tag_name succeeds both times; the second
    call leaves the tables (as read and as committed) exactly as the first
    call left them, and afterwards the tag table has exactly one row of that
    name and the link table exactly one row for the photo_id and the
    tag_id of that row. *)
Theorem add_tag_to_photo_idempotent (pid : Z) (name : string) (w : world) :
  sqlite_integer pid →
  NoDup (tag_name <$> tags (view (conn w))) →
  NoDup (photo_tags (view (conn w))) →
  ∃ w1 w2 tg,
    add_tag_to_photo pid name w = (Returns tt, w1) ∧
    add_tag_to_photo pid name w1 = (Returns tt, w2) ∧
    view (conn w2) = view (conn w1) ∧
    durable (conn w2) = durable (conn w1) ∧
    durable (conn w2) = view (conn w2) ∧
    disk w2 = disk w ∧
    filter (λ t, tag_name t = name) (tags (view (conn w2))) = [tg] ∧
    filter (λ l, link_photo_id l = pid ∧ link_tag_id l = tag_id tg)
           (photo_tags (view (conn w2)))
    = [PhotoTag pid (tag_id tg)].
Proof.
  intros Hpid Htags Hlinks.
  set (d1 := insert_or_ignore_tag name (view (conn w))).
  destruct (select_tag_id_present name d1 (tag_names_after_insert _ _))
    as (t & Hsel & Ht & Hname).
  set (d2 := insert_or_ignore_link pid (tag_id t) d1).
  assert (Hin2 : name ∈ tag_name <$> tags d2).
  { unfold d2. rewrite tags_after_link. apply tag_names_after_insert. }
  assert (Hsel2 : select_tag_id name d2 = Some (tag_id t)).
  { unfold select_tag_id, d2. rewrite tags_after_link. exact Hsel. }
  assert (Hlink2 : PhotoTag pid (tag_id t) ∈ photo_tags d2) by apply link_after_insert.
  eexists _, _, t.
  split; [exact (add_tag_to_photo_run _ _ _ _ (integer_is_bindable _ _ Hpid) Hsel)|].
  split.
  { apply add_tag_to_photo_run; [by left|]. simpl. fold d1 d2.
    rewrite (insert_or_ignore_tag_present _ _ Hin2). exact Hsel2. }
  simpl. fold d1 d2.
  rewrite (insert_or_ignore_tag_present _ _ Hin2).
  rewrite (insert_or_ignore_link_present _ _ _ Hlink2).
  repeat split; try done.
  - assert (Ht2 : t ∈ tags d2) by (unfold d2; by rewrite tags_after_link).
    rewrite <- Hname.
    rewrite (filter_key_singleton tag_name (tags d2) t); [done| |done].
    unfold d2. rewrite tags_after_link. by apply tag_names_unique_after_insert.
  - pose proof (filter_key_singleton id (photo_tags d2) (PhotoTag pid (tag_id t))) as Hf.
    simpl in Hf. rewrite <- Hf; [| |done].
    + apply list_filter_iff. intros [p0 t0]. simpl. split.
      * by intros [-> ->].
      * by intros [= -> ->].
    + rewrite list_fmap_id. apply links_unique_after_insert.
      unfold d1, insert_or_ignore_tag. by case_bool_decide.
Qed.

Lemma add_tag_to_photo_idempotent_witness :
  ∃ w1 w2 tg,
    add_tag_to_photo 1 "aerial" demo_world = (Returns tt, w1) ∧
    add_tag_to_photo 1 "aerial" w1 = (Returns tt, w2) ∧
    view (conn w2) = view (conn w1) ∧
    tags (view (conn demo_world)) = [] ∧
    tags (view (conn w2)) = [tg] ∧
    photo_tags (view (conn w2)) = [PhotoTag 1 (tag_id tg)].
Proof.
  destruct (add_tag_to_photo_idempotent 1 "aerial" demo_world)
    as (w1 & w2 & tg & H1 & H2 & H3 & _ & _ & _ & Htag & Hlink).
  - by_evaluation.
  - by_evaluation.
  - by_evaluation.
  - exists w1, w2, tg. split; [exact H1|]. split; [exact H2|]. split; [exact H3|].
    split; [reflexivity|].
    assert (Hview : view (conn w2)
                    = Db (robot_categories demo_db) (robots demo_db) []
                         [Tag 1 "aerial"] [PhotoTag 1 1]).
    { rewrite H3. apply (f_equal snd) in H1. vm_compute in H1. by subst w1. }
    rewrite Hview in Htag, Hlink |- *.
    vm_compute in Htag. injection Htag as <-. done.
Defined.

(** ** add_photo: commits *)

(** C1: add_photo commits once per tag, inside add_tag_to_photo, and not
    once per call. For the demo upload with the tags "aerial" and "4k" the
    journal of committed snapshots gains two entries; the first already
    holds the photo row with the tag "aerial" and its link, and not yet the
    tag "4k". *)
Theorem add_photo_commits_after_each_tag :
  (add_photo 1 "uploads/x1.jpg" "general" None (Some ["aerial"; "4k"]) None
             "20240501_101500" "2024-05-01" demo_world).1 = Returns 1 ∧
  journal (conn demo_world) = [] ∧
  ∃ final mid,
    journal (conn demo_world_with_photo) = [final; mid] ∧
    photo_id <$> photos mid = [1] ∧
    tag_name <$> tags mid = ["aerial"] ∧
    photo_tags mid = [PhotoTag 1 1] ∧
    photo_id <$> photos final = [1] ∧
    tag_name <$> tags final = ["aerial"; "4k"] ∧
    photo_tags final = [PhotoTag 1 1; PhotoTag 1 2].
Proof.
  split; [by vm_compute|]. split; [done|].
  eexists _, _. vm_compute. repeat split.
Qed.

(** Every call of add_tag_to_photo that returns ends with its own commit:
    nothing is pending afterwards and the journal has grown. *)
Lemma add_tag_to_photo_commits pid name w w' :
  add_tag_to_photo pid name w = (Returns tt, w') →
  in_txn (conn w') = false ∧
  durable (conn w') = view (conn w') ∧
  journal (conn w') = view (conn w') :: journal (conn w) ∧
  photos (view (conn w')) = photos (view (conn w)).
Proof.
  destruct (select_tag_id_present name _ (tag_names_after_insert name (view (conn w))))
    as (t & Hsel & _).
  destruct (decide (bindable (photo_id <$> photos (view (conn w))) pid)) as [Hpid|Hpid].
  - rewrite (add_tag_to_photo_run _ _ _ _ Hpid Hsel). intros [= <-].
    repeat split. cbn [view conn].
    unfold insert_or_ignore_link. case_bool_decide; apply photos_after_tag.
  - by rewrite (add_tag_to_photo_overflow _ _ _ Hpid).
Qed.

Lemma add_tag_to_photo_returns pid name w :
  bindable (photo_id <$> photos (view (conn w))) pid →
  ∃ w', add_tag_to_photo pid name w = (Returns tt, w').
Proof.
  intros Hpid.
  destruct (select_tag_id_present name _ (tag_names_after_insert name (view (conn w))))
    as (t & Hsel & _).
  eexists. apply (add_tag_to_photo_run _ _ _ _ Hpid Hsel).
Qed.

Lemma for_each_add_tag_commits pid (names : list string) w :
  bindable (photo_id <$> photos (view (conn w))) pid →
  ∃ w',
    for_each names (add_tag_to_photo pid) w = (Returns tt, w') ∧
    length (journal (conn w')) = (length (journal (conn w)) + length names)%nat ∧
    (names ≠ [] → in_txn (conn w') = false).
Proof.
  revert w. induction names as [|name names IH]; intros w Hpid.
  - exists w. split; [done|]. split; [simpl; lia | done].
  - destruct (add_tag_to_photo_returns pid name w Hpid) as (w1 & Hrun).
    destruct (add_tag_to_photo_commits _ _ _ _ Hrun) as (Htxn & _ & Hj & Hphotos).
    destruct (IH w1) as (w' & Hrest & Hlen & Htxn'); [by rewrite Hphotos|].
    exists w'. split.
    { cbn [for_each]. unfold mbind, py_bind. rewrite Hrun. exact Hrest. }
    split.
    { rewrite Hlen, Hj. simpl. lia. }
    intros _. destruct names as [|n ns]; [|by apply Htxn'].
    simpl in Hrest. injection Hrest as <-. exact Htxn.
Qed.

(** The photo row add_photo has just inserted makes its photo_id one the
    table holds. *)
Lemma inserted_photo_is_bindable p d :
  bindable (photo_id <$> photos (insert_photo p d)) (photo_id p).
Proof.
  right. simpl. rewrite fmap_app. apply elem_of_app. right. left.
Qed.

(** In general: a call of add_photo with tags that returns has committed
    as many times as it was given tags; its own commit after the loop finds
    nothing pending. *)
Lemma add_photo_one_commit_per_tag
    rid source_file ptype descr t ts photog timestamp today w pid w' :
  add_photo rid source_file ptype descr (Some (t :: ts)) photog timestamp today w
  = (Returns pid, w') →
  length (journal (conn w')) = (length (journal (conn w)) + length (t :: ts))%nat.
Proof.
  unfold add_photo, mbind, py_bind, path_exists, query.
  destruct (negb _); [done|].
  destruct (bind_integer stored_robot_ids rid w) as [[[]|e] w0] eqn:Hbind; [|done].
  apply bind_integer_keeps_world in Hbind. subst w0.
  destruct (select_robot_category rid (view (conn w))) as [cname|]; [|done].
  match goal with
  | |- context [copy2 ?s ?d ?w0] =>
      destruct (copy2 s d w0) as [[[]|e] w1] eqn:Hcopy
  end; [|done].
  match goal with
  | |- context [st_size ?d ?w0] =>
      destruct (st_size d w0) as [[size|e] w2] eqn:Hsize
  end; [|done].
  assert (Hw2 : conn w2 = conn w).
  { unfold st_size in Hsize. destruct (lookup_path _ (disk w1)); [|done].
    injection Hsize as _ <-.
    unfold copy2, write_file, raise in Hcopy.
    repeat case_match; simplify_eq; done. }
  unfold dml, with_conn.
  match goal with
  | |- context [for_each ?l (add_tag_to_photo ?i) ?w0] =>
      destruct (for_each_add_tag_commits i l w0) as (w3 & Hfor & Hlen & Htxn)
  end.
  { cbn [view conn]. apply (inserted_photo_is_bindable (Photo _ _ _ _ _ _ _ _ _)). }
  rewrite Hfor. unfold commit, with_conn.
  rewrite (Htxn ltac:(done)). intros [= _ <-]. simpl.
  rewrite Hlen. simpl. by rewrite Hw2.
Qed.

(** ** LIKE *)

Lemma sql_like_percent (p t : string) :
  sql_like (String "%" p) t
  = sql_like p t ||
    match t with
    | EmptyString => false
    | String _ t' => sql_like (String "%" p) t'
    end.
Proof. destruct t; reflexivity. Qed.

Lemma sql_like_char (c : ascii) (p t : string) :
  c ≠ "%"%char →
  sql_like (String c p) t
  = match t with
    | EmptyString => false
    | String d t' =>
        (bool_decide (c = "_"%char) || bool_decide (sql_lower c = sql_lower d))
        && sql_like p t'
    end.
Proof.
  intros Hc. cbn [sql_like]. rewrite (bool_decide_eq_false_2 _ Hc). done.
Qed.

Lemma append_nil_l (s : string) : "" +:+ s = s.
Proof. reflexivity. Qed.

Lemma append_cons (c : ascii) (s t : string) :
  String c s +:+ t = String c (s +:+ t).
Proof. reflexivity. Qed.

Lemma append_nil_r (s : string) : s +:+ "" = s.
Proof. induction s as [|c s IH]; [done|]. by rewrite append_cons, IH. Qed.

Ltac simpl_append := rewrite ?append_nil_l, ?append_cons in *.

Lemma sql_like_percent_iff (p t : string) :
  sql_like (String "%" p) t = true ↔
  ∃ before rest, t = before +:+ rest ∧ sql_like p rest = true.
Proof.
  induction t as [|c t IH]; rewrite sql_like_percent.
  - rewrite orb_false_r. split.
    + intros H. by exists "", "".
    + intros (b & r & Heq & H). destruct b as [|c b]; simpl_append; [|done].
      by subst.
  - rewrite orb_true_iff, IH. split.
    + intros [H | (b & r & -> & H)].
      * by exists "", (String c t).
      * by exists (String c b), r.
    + intros (b & r & Heq & H). destruct b as [|c' b]; simpl_append.
      * left. by subst.
      * right. injection Heq as -> ->. by exists b, r.
Qed.

Lemma sql_like_percent_all (t : string) : sql_like "%" t = true.
Proof.
  apply sql_like_percent_iff. exists t, "". by rewrite append_nil_r.
Qed.

Lemma plain_text_cons c s :
  plain_text (String c s) = true →
  c ≠ "%"%char ∧ c ≠ "_"%char ∧ plain_text s = true.
Proof.
  simpl. rewrite !andb_true_iff, !negb_true_iff.
  intros [[H1 H2] H3]. apply bool_decide_eq_false in H1, H2. done.
Qed.

Lemma sql_like_plain_prefix (m t : string) :
  plain_text m = true →
  sql_like (m +:+ "%") t = true ↔
  ∃ mid rest, t = mid +:+ rest ∧
              map_string sql_lower mid = map_string sql_lower m.
Proof.
  revert t. induction m as [|c m IH]; intros t Hm.
  - rewrite append_nil_l. split.
    + intros _. by exists "", t.
    + intros _. apply sql_like_percent_all.
  - apply plain_text_cons in Hm as (Hc1 & Hc2 & Hm).
    rewrite append_cons, (sql_like_char _ _ _ Hc1), (bool_decide_eq_false_2 _ Hc2).
    destruct t as [|d t].
    + split; [done|]. intros (mid & rest & Heq & Hl).
      destruct mid; simpl_append; simpl in Hl; done.
    + rewrite orb_false_l, andb_true_iff, (IH t Hm), bool_decide_eq_true. split.
      * intros [Hcd (mid & rest & -> & Hl)].
        exists (String d mid), rest. split; [done|]. simpl. by rewrite Hcd, Hl.
      * intros (mid & rest & Heq & Hl).
        destruct mid as [|d' mid]; simpl_append; simpl in Hl; [done|].
        injection Heq as -> ->. injection Hl as Hd Hl.
        split; [done|]. by exists mid, rest.
Qed.

(** A filter without wildcards between the two "%" of the code matches
    exactly the texts that contain it up to ASCII case. *)
Lemma sql_like_contains (m text : string) :
  plain_text m = true →
  sql_like ("%" +:+ m +:+ "%") text = true ↔ occurs_in_nocase m text.
Proof.
  intros Hm. rewrite append_cons, append_nil_l.
  rewrite sql_like_percent_iff. unfold occurs_in_nocase. split.
  - intros (b & r & -> & (mid & rest & -> & Hl)%(sql_like_plain_prefix _ _ Hm)).
    by exists b, mid, rest.
  - intros (b & mid & rest & -> & Hl).
    exists b, (mid +:+ rest). split; [done|].
    apply (sql_like_plain_prefix _ _ Hm). by exists mid, rest.
Qed.

(** ** search_photos *)

Lemma elem_of_select_photos row clauses d :
  row ∈ select_photos clauses d ↔
  ∃ p r rc,
    p ∈ photos d ∧
    r ∈ robots d ∧ robot_id r = photo_robot_id p ∧
    rc ∈ robot_categories d ∧ category_id rc = robot_category_id r ∧
    forallb (λ clause, clause p r rc) clauses = true ∧
    row = make_photo_row p r rc.
Proof.
  unfold select_photos. split.
  - intros (p & (r & (rc & Hrow & Hrc)%list_elem_of_bind & Hr)%list_elem_of_bind
            & Hp)%list_elem_of_bind.
    apply list_elem_of_filter in Hr as [Hrid Hr].
    apply list_elem_of_filter in Hrc as [Hcid Hrc].
    destruct (forallb _ clauses) eqn:Hall; [|by apply elem_of_nil in Hrow].
    apply list_elem_of_singleton in Hrow.
    by exists p, r, rc.
  - intros (p & r & rc & Hp & Hr & Hrid & Hrc & Hcid & Hall & ->).
    apply list_elem_of_bind. exists p. split; [|done].
    apply list_elem_of_bind. exists r. split; [|by apply list_elem_of_filter].
    apply list_elem_of_bind. exists rc. split; [|by apply list_elem_of_filter].
    rewrite Hall. by apply list_elem_of_singleton.
Qed.

Lemma given_str_nonempty (s : string) : s ≠ "" → given_str (Some s) = Some s.
Proof. intros Hs. unfold given_str. by rewrite bool_decide_eq_false_2. Qed.

Lemma where_clauses_manufacturer categ m model tag_names d p r rc :
  m ≠ "" →
  forallb (λ clause, clause p r rc) (where_clauses categ (Some m) model tag_names d)
  = sql_like ("%" +:+ m +:+ "%") (manufacturer r)
    && forallb (λ clause, clause p r rc) (where_clauses categ None model tag_names d).
Proof.
  intros Hm. unfold where_clauses. rewrite (given_str_nonempty _ Hm).
  rewrite !forallb_app. simpl.
  destruct (forallb _ (match given_str categ with Some _ => _ | None => _ end));
    simpl; [|by rewrite andb_false_r].
  by rewrite andb_true_r.
Qed.

Lemma where_clauses_model categ manuf m tag_names d p r rc :
  m ≠ "" →
  forallb (λ clause, clause p r rc) (where_clauses categ manuf (Some m) tag_names d)
  = sql_like ("%" +:+ m +:+ "%") (model_name r)
    && forallb (λ clause, clause p r rc) (where_clauses categ manuf None tag_names d).
Proof.
  intros Hm. unfold where_clauses. rewrite (given_str_nonempty _ Hm).
  rewrite !forallb_app. simpl.
  destruct (forallb _ (match given_str categ with Some _ => _ | None => _ end));
    simpl; [|by rewrite andb_false_r].
  destruct (forallb _ (match given_str manuf with Some _ => _ | None => _ end));
    simpl; [|by rewrite andb_false_r].
  by rewrite andb_true_r.
Qed.


Lemma acme_not_in_Acme : ¬ occurs_in "acme" "Acme".
Proof.
  intros (b & a & Heq).
  destruct b as [|c1 [|c2 [|c3 [|c4 [|c5 b]]]]]; simpl_append; discriminate Heq.
Qed.

(** C2, as stated, fails: the search for manufacturer "acme" returns the
    photo of the robot made by "Acme", although "acme" does not occur in
    "Acme" with identical letter case. *)
Lemma search_photos_case_sensitive_counterexample :
  ¬ (∀ (w : world) (m : string) (rows : list photo_row) (row : photo_row),
       search_photos None (Some m) None None w = (Returns rows, w) →
       row ∈ rows →
       occurs_in m (row_manufacturer row)).
Proof.
  intros Hclaim.
  apply acme_not_in_Acme.
  apply (Hclaim demo_world_with_photo "acme"
           [PhotoRow 1 "20240501_101500_x1.jpg"
                     "photo_storage/drones/20240501_101500_x1.jpg"
                     "2024-05-01" "general" None "Acme" "X1" "Drones"]
           (PhotoRow 1 "20240501_101500_x1.jpg"
                     "photo_storage/drones/20240501_101500_x1.jpg"
                     "2024-05-01" "general" None "Acme" "X1" "Drones")).
  - vm_compute. reflexivity.
  - left.
Qed.

(** C2, amended: a manufacturer (or model) filter is the LIKE pattern
    "%filter%", which SQLite compares without regard to the case of ASCII
    letters. For a non-empty filter without the wildcards "%" and "_", the
    rows returned are exactly the rows the search without that filter
    returns whose manufacturer (model name) contains the filter as a
    contiguous run of characters up to ASCII letter case. *)
Theorem search_photos_like_filter
    (categ other : option string) (tag_names : option (list string))
    (m : string) (w : world) :
  m ≠ "" →
  plain_text m = true →
  ∃ by_manufacturer without_manufacturer by_model without_model,
    search_photos categ (Some m) other tag_names w = (Returns by_manufacturer, w) ∧
    search_photos categ None other tag_names w = (Returns without_manufacturer, w) ∧
    (∀ row, row ∈ by_manufacturer ↔
            row ∈ without_manufacturer ∧
            occurs_in_nocase m (row_manufacturer row)) ∧
    search_photos categ other (Some m) tag_names w = (Returns by_model, w) ∧
    search_photos categ other None tag_names w = (Returns without_model, w) ∧
    (∀ row, row ∈ by_model ↔
            row ∈ without_model ∧
            occurs_in_nocase m (row_model_name row)).
Proof.
  intros Hm Hplain. eexists _, _, _, _.
  split; [reflexivity|]. split; [reflexivity|]. split; [|split; [reflexivity|]; split; [reflexivity|]].
  - intros row. rewrite !elem_of_select_photos. split.
    + intros (p & r & rc & Hp & Hr & Hrid & Hrc & Hcid & Hall & ->).
      rewrite (where_clauses_manufacturer _ _ _ _ _ _ _ _ Hm) in Hall.
      apply andb_true_iff in Hall as [Hlike Hall].
      split; [by exists p, r, rc|].
      by apply (sql_like_contains _ _ Hplain).
    + intros [(p & r & rc & Hp & Hr & Hrid & Hrc & Hcid & Hall & ->) Hocc].
      exists p, r, rc. repeat split; try done.
      rewrite (where_clauses_manufacturer _ _ _ _ _ _ _ _ Hm), Hall, andb_true_r.
      by apply (sql_like_contains _ _ Hplain).
  - intros row. rewrite !elem_of_select_photos. split.
    + intros (p & r & rc & Hp & Hr & Hrid & Hrc & Hcid & Hall & ->).
      rewrite (where_clauses_model _ _ _ _ _ _ _ _ Hm) in Hall.
      apply andb_true_iff in Hall as [Hlike Hall].
      split; [by exists p, r, rc|].
      by apply (sql_like_contains _ _ Hplain).
    + intros [(p & r & rc & Hp & Hr & Hrid & Hrc & Hcid & Hall & ->) Hocc].
      exists p, r, rc. repeat split; try done.
      rewrite (where_clauses_model _ _ _ _ _ _ _ _ Hm), Hall, andb_true_r.
      by apply (sql_like_contains _ _ Hplain).
Qed.

Lemma search_photos_like_filter_witness :
  ∃ by_manufacturer without_manufacturer,
    search_photos None (Some "acme") None None demo_world_with_photo
    = (Returns by_manufacturer, demo_world_with_photo) ∧
    search_photos None None None None demo_world_with_photo
    = (Returns without_manufacturer, demo_world_with_photo) ∧
    (∀ row, row ∈ by_manufacturer ↔
            row ∈ without_manufacturer ∧
            occurs_in_nocase "acme" (row_manufacturer row)).
Proof.
  destruct (search_photos_like_filter None None None "acme" demo_world_with_photo)
    as (r1 & r2 & _ & _ & H1 & H2 & H3 & _).
  - discriminate.
  - reflexivity.
  - exists r1, r2. split; [exact H1|]. split; [exact H2 | exact H3].
Defined.

Lemma key_determines_row {A K} (f : A → K) `{EqDecision K} (l : list A) (x y : A) :
  NoDup (f <$> l) → x ∈ l → y ∈ l → f y = f x → y = x.
Proof.
  intros Hnd Hx Hy Heq.
  assert (Hin : y ∈ filter (λ z, f z = f x) l) by by apply list_elem_of_filter.
  rewrite (filter_key_singleton f l x Hnd Hx) in Hin.
  by apply list_elem_of_singleton in Hin.
Qed.

Lemma filter_all {A} (P : A → Prop) `{∀ x, Decision (P x)} (l : list A) :
  Forall P l → filter P l = l.
Proof.
  induction 1 as [|x l Hx _ IH]; [done|].
  rewrite filter_cons, decide_True by done. by rewrite IH.
Qed.

Lemma filter_key_absent {A K} (f : A → K) `{EqDecision K} (l : list A) (k : K) :
  k ∉ f <$> l → filter (λ y, f y = k) l = [].
Proof.
  intros Hk. apply filter_none, Forall_forall. intros y Hy Heq.
  apply Hk. rewrite <- Heq. apply list_elem_of_fmap. by exists y.
Qed.

(** With identifiers as keys, the join gives one row to a photo whose
    robot and category are there and none to any other photo. *)
Lemma joined_rows_of_photo d p :
  NoDup (robot_id <$> robots d) →
  NoDup (category_id <$> robot_categories d) →
  length (r ← filter (λ r, robot_id r = photo_robot_id p) (robots d);
          rc ← filter (λ rc, category_id rc = robot_category_id r) (robot_categories d);
          [make_photo_row p r rc])
  = if decide (photo_resolves d p) then 1%nat else 0%nat.
Proof.
  intros Hrobots Hcats.
  destruct (decide (photo_robot_id p ∈ robot_id <$> robots d)) as [Hin|Hout].
  - apply list_elem_of_fmap in Hin as (r0 & Hid & Hr0).
    rewrite Hid, (filter_key_singleton robot_id (robots d) r0 Hrobots Hr0).
    rewrite bind_singleton.
    destruct (decide (robot_category_id r0 ∈ category_id <$> robot_categories d))
      as [Hcin|Hcout].
    + apply list_elem_of_fmap in Hcin as (rc0 & Hcid & Hrc0).
      rewrite Hcid, (filter_key_singleton category_id _ rc0 Hcats Hrc0).
      rewrite bind_singleton. simpl.
      rewrite decide_True; [done|].
      apply Exists_exists. exists r0. split; [done|].
      split; [done|]. rewrite Hcid. apply list_elem_of_fmap. by exists rc0.
    + rewrite (filter_key_absent category_id _ _ Hcout). simpl.
      rewrite decide_False; [done|].
      intros (r & Hr & Hrid & Hrc)%Exists_exists.
      assert (r = r0) as -> by (apply (key_determines_row robot_id (robots d)); congruence).
      done.
  - rewrite (filter_key_absent robot_id _ _ Hout). simpl.
    rewrite decide_False; [done|].
    intros (r & Hr & Hrid & Hrc)%Exists_exists.
    apply Hout. rewrite <- Hrid. apply list_elem_of_fmap. by exists r.
Qed.

Lemma length_filter_cons {A} (P : A → Prop) `{∀ x, Decision (P x)} (x : A) (l : list A) :
  length (filter P (x :: l))
  = ((if decide (P x) then 1 else 0) + length (filter P l))%nat.
Proof. rewrite filter_cons. by destruct (decide (P x)). Qed.


Lemma references_ok_resolves d p :
  references_ok d → p ∈ photos d → photo_resolves d p.
Proof.
  intros [Hr Hp] Hin. rewrite Forall_forall in Hr. rewrite Forall_forall in Hp.
  specialize (Hp p Hin). apply list_elem_of_fmap in Hp as (r & Hid & Hrin).
  apply Exists_exists. exists r. split; [done|].
  split; [done|]. by apply Hr.
Qed.





(** ** get_statistics: storage *)

Lemma or_zero_sql_sum (xs : list Z) : or_zero (sql_sum xs) = foldr Z.add 0 xs.
Proof.
  destruct xs as [|x xs]; [done|]. unfold sql_sum, or_zero.
  by case_bool_decide.
Qed.

Lemma round_half_even_nearest (n : Z) (d : positive) :
  let k := round_half_even (n # d) in
  2 * Z.abs (n - Z.pos d * k) ≤ Z.pos d ∧
  (2 * Z.abs (n - Z.pos d * k) = Z.pos d → Z.even k = true).
Proof.
  unfold round_half_even. cbn [Qnum Qden].
  pose proof (Z.div_mod n (Z.pos d) ltac:(lia)) as Hdiv.
  pose proof (Z.mod_pos_bound n (Z.pos d) ltac:(lia)) as Hmod.
  set (p := Z.pos d) in *.
  set (fl := n `div` p) in *. set (r := n `mod` p) in *.
  assert (Hfl : n - p * fl = r) by lia.
  assert (Hfl1 : n - p * (fl + 1) = r - p) by lia.
  destruct (Z.compare_spec (2 * r) p) as [Heq|Hlt|Hgt].
  - destruct (Z.even fl) eqn:Heven.
    + rewrite Hfl. split; [lia|]. done.
    + rewrite Hfl1. split; [lia|]. intros _.
      rewrite Z.even_add, Heven. reflexivity.
  - rewrite Hfl. split; lia.
  - rewrite Hfl1. split; lia.
Qed.

(** C10: over photo rows whose recorded sizes are not negative and add up
    to less than 2^53 KB, get_statistics returns and leaves the state as it
    was, and total_storage_mb is a number of hundredths, k/100, that is
    nearest to the sum of the recorded file_size_kb divided by 1024: the two
    differ by at most half a hundredth, and when they differ by exactly half
    a hundredth k is even. Over an empty photo table SUM gives NULL, [or 0]
    turns it into 0 and the figure is 0. *)
Theorem get_statistics_storage (w : world) :
  let d := view (conn w) in
  let total_kb := foldr Z.add 0%Z (file_size_kb <$> photos d) in
  Forall (λ p, 0 ≤ file_size_kb p) (photos d) →
  total_kb < 2 ^ 53 →
  ∃ s k,
    get_statistics w = (Returns s, w) ∧
    total_storage_mb s = (k # 100)%Q ∧
    2 * Z.abs (100 * total_kb - 1024 * k) ≤ 1024 ∧
    (2 * Z.abs (100 * total_kb - 1024 * k) = 1024 → Z.even k = true) ∧
    (photos d = [] → sql_sum (file_size_kb <$> photos d) = None ∧ k = 0).
Proof.
  intros d total_kb Hsizes Hbound.
  exists (Statistics (length (photos d)) (dict_of_rows (photos_by_category d))
                     (length (robots d))
                     (py_round2 (inject_Z (or_zero (sql_sum (file_size_kb <$> photos d)))
                                 / 1024)%Q)),
         (round_half_even ((total_kb * 100) # 1024)).
  split; [reflexivity|]. cbn [total_storage_mb].
  rewrite or_zero_sql_sum. fold total_kb.
  assert (Hq : (inject_Z total_kb / 1024 * 100)%Q = (total_kb * 100) # 1024).
  { unfold Qdiv, Qmult, Qinv, inject_Z. cbn [Qnum Qden].
    f_equal. lia. }
  split; [unfold py_round2; by rewrite Hq|].
  destruct (round_half_even_nearest (total_kb * 100) 1024) as [Hnear Htie].
  cbn zeta in Hnear, Htie.
  split; [lia|]. split; [intros Heq; apply Htie; lia|].
  intros Hempty. split; [by rewrite Hempty|].
  unfold total_kb. rewrite Hempty. reflexivity.
Qed.

Lemma get_statistics_storage_witness :
  (∃ s, get_statistics demo_world_with_photo = (Returns s, demo_world_with_photo) ∧
        foldr Z.add 0%Z (file_size_kb <$> photos (view (conn demo_world_with_photo)))
        = 195 ∧
        total_storage_mb s = (19 # 100)%Q) ∧
  (∃ s, get_statistics demo_world = (Returns s, demo_world) ∧
        total_storage_mb s = (0 # 100)%Q).
Proof.
  split.
  - destruct (get_statistics_storage demo_world_with_photo)
      as (s & k & Hrun & Hmb & Hnear & _).
    + by_evaluation.
    + vm_compute. reflexivity.
    + exists s. split; [exact Hrun|]. split; [vm_compute; reflexivity|].
      rewrite Hmb. f_equal.
      change (foldr Z.add 0%Z
                (file_size_kb <$> photos (view (conn demo_world_with_photo))))
        with 195 in Hnear.
      lia.
  - destruct (get_statistics_storage demo_world)
      as (s & k & Hrun & Hmb & _ & _ & Hempty).
    + by_evaluation.
    + vm_compute. reflexivity.
    + exists s. split; [exact Hrun|].
      destruct Hempty as [_ ->]; [reflexivity|]. exact Hmb.
Defined.

(** One photo of 200000 bytes is recorded as 195 KB, reported as 0.19 MB. *)
Example get_statistics_storage_demo :
  ∃ s, get_statistics demo_world_with_photo = (Returns s, demo_world_with_photo) ∧
       total_storage_mb s = (19 # 100)%Q.
Proof. eexists. split; [reflexivity|]. vm_compute. reflexivity. Qed.

(** ** Counting over joins *)

Lemma sum_list_with_add {A} (f g : A → nat) (l : list A) :
  sum_list_with (λ a, f a + g a)%nat l
  = (sum_list_with f l + sum_list_with g l)%nat.
Proof. induction l as [|a l IH]; simpl; lia. Qed.

Lemma sum_list_with_zero {A} (l : list A) : sum_list_with (λ _, 0%nat) l = 0%nat.
Proof. induction l as [|a l IH]; simpl; lia. Qed.

Lemma sum_list_with_one {A} (l : list A) : sum_list_with (λ _, 1%nat) l = length l.
Proof. induction l as [|a l IH]; simpl; lia. Qed.

Lemma sum_list_with_agree {A} (f g : A → nat) (l : list A) :
  Forall (λ a, f a = g a) l → sum_list_with f l = sum_list_with g l.
Proof. induction 1 as [|a l Ha _ IH]; simpl; [done|]. by rewrite Ha, IH. Qed.

Lemma sum_list_with_bind {A B} (f : B → nat) (g : A → list B) (l : list A) :
  sum_list_with f (l ≫= g) = sum_list_with (λ a, sum_list_with f (g a)) l.
Proof.
  induction l as [|a l IH]; [done|].
  rewrite bind_cons, sum_list_with_app, IH. done.
Qed.

Lemma sum_list_with_fmap {A B} (f : B → nat) (g : A → B) (l : list A) :
  sum_list_with f (g <$> l) = sum_list_with (λ a, f (g a)) l.
Proof. induction l as [|a l IH]; [done|]. rewrite fmap_cons. simpl. by rewrite IH. Qed.

Section counting.
Context {A B : Type}.

Lemma sum_list_with_filter (R : B → Prop) `{∀ b, Decision (R b)}
    (h : B → nat) (m : list B) :
  sum_list_with h (filter R m)
  = sum_list_with (λ b, (if decide (R b) then 1 else 0) * h b)%nat m.
Proof.
  induction m as [|b m IH]; [done|].
  rewrite filter_cons. simpl. destruct (decide (R b)); simpl; lia.
Qed.

(** Summing a weight over the matches of every left row is summing, over
    the right rows, the weight times the number of left rows they match. *)
Lemma sum_over_matches_swap (R : A → B → Prop) `{∀ a b, Decision (R a b)}
    (h : B → nat) (l : list A) (m : list B) :
  sum_list_with (λ a, sum_list_with h (filter (R a) m)) l
  = sum_list_with (λ b, length (filter (λ a, R a b) l) * h b)%nat m.
Proof.
  induction l as [|a l IH].
  - simpl. symmetry. apply sum_list_with_zero.
  - simpl. rewrite IH, sum_list_with_filter, <- sum_list_with_add.
    apply sum_list_with_agree, Forall_forall. intros b _.
    rewrite filter_cons. destruct (decide (R a b)); simpl; lia.
Qed.

Lemma count_matches_swap (R : A → B → Prop) `{∀ a b, Decision (R a b)}
    (l : list A) (m : list B) :
  sum_list_with (λ a, length (filter (R a) m)) l
  = sum_list_with (λ b, length (filter (λ a, R a b) l)) m.
Proof.
  transitivity (sum_list_with (λ a, sum_list_with (λ _, 1%nat) (filter (R a) m)) l).
  { apply sum_list_with_agree, Forall_forall. intros a _.
    by rewrite sum_list_with_one. }
  rewrite sum_over_matches_swap.
  apply sum_list_with_agree, Forall_forall. intros b _. lia.
Qed.

(** The rows of a left join whose right side is not NULL. *)
Lemma left_join_matched (g : A → list B) (l : list A) :
  length (filter (λ j, is_Some j.2) (left_join l g))
  = sum_list_with (λ a, length (g a)) l.
Proof.
  unfold left_join. induction l as [|a l IH]; [done|].
  rewrite bind_cons, filter_app, length_app, IH.
  change (sum_list_with (λ a0, length (g a0)) (a :: l))
    with (length (g a) + sum_list_with (λ a0, length (g a0)) l)%nat.
  f_equal. destruct (g a) as [|b bs]; [done|].
  rewrite filter_all; [apply length_fmap|].
  apply Forall_forall. intros j (b' & -> & _)%list_elem_of_fmap. simpl. eauto.
Qed.

Lemma left_join_sum (h : B → nat) (g : A → list B) (l : list A) :
  sum_list_with (λ j, match j.2 with Some b => h b | None => 0%nat end)
                (left_join l g)
  = sum_list_with (λ a, sum_list_with h (g a)) l.
Proof.
  unfold left_join. rewrite sum_list_with_bind.
  apply sum_list_with_agree, Forall_forall. intros a _.
  destruct (g a) as [|b bs]; [done|].
  exact (sum_list_with_fmap _ (λ b', (a, Some b')) (b :: bs)).
Qed.

Lemma left_join_keeps (g : A → list B) (l : list A) (a : A) :
  a ∈ l → ∃ b, (a, b) ∈ left_join l g.
Proof.
  intros Ha. unfold left_join.
  destruct (g a) as [|b bs] eqn:Hg.
  - exists None. apply list_elem_of_bind. exists a. rewrite Hg.
    split; [left | done].
  - exists (Some b). apply list_elem_of_bind. exists a. rewrite Hg.
    split; [|done]. rewrite fmap_cons. left.
Qed.

Lemma elem_of_left_join (g : A → list B) (l : list A) (a : A) (b : B) :
  (a, Some b) ∈ left_join l g ↔ a ∈ l ∧ b ∈ g a.
Proof.
  unfold left_join. rewrite list_elem_of_bind. split.
  - intros (a' & Hin & Ha'). destruct (g a') as [|b0 bs] eqn:Hg.
    + apply list_elem_of_singleton in Hin. done.
    + apply list_elem_of_fmap in Hin as (b' & [= -> ->] & Hb').
      by rewrite Hg.
  - intros [Ha Hb]. exists a. split; [|done].
    destruct (g a) as [|b0 bs] eqn:Hg; [by apply elem_of_nil in Hb|].
    apply list_elem_of_fmap. by exists b.
Qed.
End counting.

(** ** get_statistics: photos by category *)

Lemma filter_key_singleton_flip {A K} (f : A → K) `{EqDecision K} (l : list A) (x : A) :
  NoDup (f <$> l) → x ∈ l → filter (λ y, f x = f y) l = [x].
Proof.
  intros Hnd Hx. rewrite <- (filter_key_singleton f l x Hnd Hx).
  apply list_filter_iff. intros y. split; congruence.
Qed.

Lemma sum_indicator {K} `{EqDecision K} (Q : Prop) `{Decision Q} (k0 : K) (ks : list K) :
  NoDup ks → k0 ∈ ks →
  sum_list_with (λ k, if decide (k0 = k ∧ Q) then 1 else 0)%nat ks
  = if decide Q then 1%nat else 0%nat.
Proof.
  induction ks as [|k ks IH]; intros Hnd Hin.
  - by apply elem_of_nil in Hin.
  - apply NoDup_cons in Hnd as [Hk Hnd]. simpl.
    destruct (decide (k0 = k)) as [->|Hne].
    + assert (Hrest : sum_list_with (λ k', if decide (k = k' ∧ Q) then 1 else 0)%nat ks = 0%nat).
      { etrans; [|apply (sum_list_with_zero ks)].
        apply sum_list_with_agree, Forall_forall. intros k' Hk'.
        rewrite decide_False; [done|]. intros [-> _]. done. }
      rewrite Hrest. destruct (decide Q).
      * rewrite decide_True; [lia | done].
      * rewrite decide_False; [lia | tauto].
    + apply elem_of_cons in Hin as [->|Hin]; [done|].
      rewrite decide_False by tauto. by rewrite IH.
Qed.

(** Counting per key and adding up is counting once. *)
Lemma sum_by_key {A K} `{EqDecision K} (f : A → K) (P : A → Prop)
    `{∀ x, Decision (P x)} (l : list A) (ks : list K) :
  NoDup ks →
  (∀ x, x ∈ l → f x ∈ ks) →
  sum_list_with (λ k, length (filter (λ x, f x = k ∧ P x) l)) ks
  = length (filter P l).
Proof.
  intros Hnd. induction l as [|x l IH]; intros Hks.
  - simpl. apply sum_list_with_zero.
  - rewrite length_filter_cons, <- IH by (intros y Hy; apply Hks; by right).
    rewrite <- (sum_indicator (P x) (f x) ks Hnd) by (apply Hks; left).
    rewrite <- sum_list_with_add.
    apply sum_list_with_agree, Forall_forall. intros k _.
    rewrite length_filter_cons. done.
Qed.

Lemma NoDup_reverse {A} (l : list A) : NoDup l → NoDup (reverse l).
Proof. by rewrite reverse_Permutation. Qed.

Lemma dict_of_rows_list_to_map (rows : list (string * nat)) :
  dict_of_rows rows = list_to_map (reverse rows).
Proof.
  unfold dict_of_rows. induction rows as [|row rows IH] using rev_ind; [done|].
  rewrite foldl_snoc, IH, reverse_snoc. done.
Qed.

Lemma dict_total_of_rows (rows : list (string * nat)) :
  NoDup (rows.*1) → dict_total (dict_of_rows rows) = sum_list (rows.*2).
Proof.
  intros Hnd. unfold dict_total. rewrite dict_of_rows_list_to_map.
  rewrite map_to_list_to_map.
  - by rewrite fmap_reverse, sum_list_with_reverse.
  - rewrite fmap_reverse. by apply NoDup_reverse.
Qed.

Lemma dict_of_rows_lookup (rows : list (string * nat)) (k : string) (v : nat) :
  NoDup (rows.*1) → (k, v) ∈ rows → dict_of_rows rows !! k = Some v.
Proof.
  intros Hnd Hin. rewrite dict_of_rows_list_to_map.
  apply elem_of_list_to_map_1.
  - rewrite fmap_reverse. by apply NoDup_reverse.
  - by apply elem_of_reverse.
Qed.

Lemma photos_by_category_keys d :
  (photos_by_category d).*1
  = remove_dups ((λ j, category_name j.1.1) <$> categories_robots_photos d).
Proof.
  unfold photos_by_category. rewrite <- list_fmap_compose.
  apply list_fmap_id.
Qed.

(** With identifiers as keys and every reference resolved, each photo
    shows up once in the join behind the per-category counts. *)
Lemma categories_robots_photos_matched d :
  NoDup (category_id <$> robot_categories d) →
  NoDup (robot_id <$> robots d) →
  references_ok d →
  length (filter (λ j, is_Some j.2) (categories_robots_photos d))
  = length (photos d).
Proof.
  intros Hcats Hrobots [Hrc Hpr].
  rewrite Forall_forall in Hrc. rewrite Forall_forall in Hpr.
  unfold categories_robots_photos. rewrite left_join_matched.
  set (h := λ r, length (filter (λ p, photo_robot_id p = robot_id r) (photos d))).
  etrans.
  { apply sum_list_with_agree, Forall_forall. intros j _.
    instantiate (1 := λ j, match j.2 with Some r => h r | None => 0%nat end).
    simpl. by destruct (j.2). }
  rewrite left_join_sum.
  rewrite (sum_over_matches_swap
             (λ rc r, robot_category_id r = category_id rc) h).
  etrans.
  { apply sum_list_with_agree, Forall_forall. intros r Hr.
    instantiate (1 := h). simpl.
    destruct (proj1 (list_elem_of_fmap _ _ _) (Hrc r Hr)) as (rc0 & Hcid & Hrc0).
    rewrite Hcid, (filter_key_singleton_flip category_id _ rc0 Hcats Hrc0).
    simpl. lia. }
  unfold h.
  rewrite (count_matches_swap (λ r p, photo_robot_id p = robot_id r)).
  rewrite <- (sum_list_with_one (photos d)).
  apply sum_list_with_agree, Forall_forall. intros p Hp.
  destruct (proj1 (list_elem_of_fmap _ _ _) (Hpr p Hp)) as (r0 & Hrid & Hr0).
  by rewrite Hrid, (filter_key_singleton_flip robot_id _ r0 Hrobots Hr0).
Qed.

Lemma photos_by_category_entry d (rc : category) :
  rc ∈ robot_categories d →
  (category_name rc,
   length (filter (λ j, category_name j.1.1 = category_name rc ∧ is_Some j.2)
                  (categories_robots_photos d)))
  ∈ photos_by_category d.
Proof.
  intros Hrc. unfold photos_by_category.
  apply list_elem_of_fmap. exists (category_name rc). split; [done|].
  apply elem_of_remove_dups, list_elem_of_fmap.
  unfold categories_robots_photos.
  destruct (left_join_keeps
              (λ rc, filter (λ r, robot_category_id r = category_id rc) (robots d))
              (robot_categories d) rc Hrc) as (r & Hj1).
  destruct (left_join_keeps
              (λ j : category * option robot,
                 match j.2 with
                 | Some r => filter (λ p, photo_robot_id p = robot_id r) (photos d)
                 | None => []
                 end) _ (rc, r) Hj1) as (p & Hj2).
  by exists (rc, r, p).
Qed.

(** C9: get_statistics returns; by_category has an entry for every
    category, which is 0 when no photo belongs to a robot of a category of
    that name (no robots, or robots without photos); and when identifiers
    are keys and every photo references a robot and every robot a category,
    total_photos is the sum of the by_category values. *)
Theorem get_statistics_by_category (w : world) :
  let d := view (conn w) in
  ∃ s,
    get_statistics w = (Returns s, w) ∧
    (∀ rc, rc ∈ robot_categories d →
       is_Some (by_category s !! category_name rc)) ∧
    (∀ rc, rc ∈ robot_categories d →
       (∀ rc' r p,
          rc' ∈ robot_categories d → category_name rc' = category_name rc →
          r ∈ robots d → robot_category_id r = category_id rc' →
          p ∈ photos d → photo_robot_id p ≠ robot_id r) →
       by_category s !! category_name rc = Some 0%nat) ∧
    (schema_ok d → references_ok d →
       total_photos s = dict_total (by_category s)).
Proof.
  intros d. eexists. split; [reflexivity|]. simpl. fold d.
  assert (Hkeys : NoDup ((photos_by_category d).*1)).
  { rewrite photos_by_category_keys. apply NoDup_remove_dups. }
  split; [|split].
  - intros rc Hrc. eexists.
    apply (dict_of_rows_lookup _ _ _ Hkeys), photos_by_category_entry, Hrc.
  - intros rc Hrc Hnone.
    rewrite (dict_of_rows_lookup _ _ _ Hkeys (photos_by_category_entry d rc Hrc)).
    f_equal. rewrite filter_none; [done|].
    apply Forall_forall. intros [[rc' ro] po] Hj [Hname [p ?]]. simpl in *. subst po.
    unfold categories_robots_photos in Hj.
    apply elem_of_left_join in Hj as [Hj1 Hp]. simpl in Hp.
    destruct ro as [r|]; [|by apply elem_of_nil in Hp].
    apply list_elem_of_filter in Hp as [Hrid Hp].
    apply elem_of_left_join in Hj1 as [Hrc' Hr].
    apply list_elem_of_filter in Hr as [Hcid Hr].
    by apply (Hnone rc' r p).
  - intros (Hcats & Hrobots & _) Hrefs.
    rewrite (dict_total_of_rows _ Hkeys).
    rewrite <- (categories_robots_photos_matched d Hcats Hrobots Hrefs).
    unfold photos_by_category. rewrite <- list_fmap_compose.
    etrans; [|symmetry; apply sum_list_with_fmap].
    symmetry. apply (sum_by_key (λ j, category_name j.1.1) (λ j, is_Some j.2)).
    + apply NoDup_remove_dups.
    + intros j Hj. apply elem_of_remove_dups, list_elem_of_fmap. by exists j.
Qed.

Lemma get_statistics_by_category_witness :
  ∃ s,
    get_statistics demo_world_with_photo = (Returns s, demo_world_with_photo) ∧
    by_category s !! "AMRs" = Some 0%nat ∧
    total_photos s = dict_total (by_category s).
Proof.
  destruct (get_statistics_by_category demo_world_with_photo)
    as (s & Hrun & _ & Hzero & Htotal).
  exists s. split; [exact Hrun|]. split.
  - apply (Hzero (Category 2 "AMRs")); [by_evaluation|].
    intros rc' r p Hrc' Hname Hr Hcid Hp Hrid.
    assert (Hr1 : r = Robot 1 1 "Acme" "X1" "quadcopter" None None).
    { vm_compute in Hr. by apply list_elem_of_singleton in Hr. }
    subst r. simpl in Hcid.
    vm_compute in Hrc'.
    repeat (apply elem_of_cons in Hrc' as [->|Hrc']; [simpl in *; discriminate|]).
    by apply elem_of_nil in Hrc'.
  - apply Htotal; by_evaluation.
Defined.

(** ** list_all_robots *)

Lemma le_antisym_eq (a b : string) : String.le a b → String.le b a → a = b.
Proof. apply (anti_symm String.le). Qed.

#[global] Instance key_le_trans : Transitive key_le.
Proof.
  intros [[a1 a2] a3] [[b1 b2] b3] [[c1 c2] c3]. unfold key_le. simpl.
  intros Hab Hbc. repeat case_decide; subst; try done;
    try (by etrans);
    try (exfalso; match goal with
           | Hne : ?x ≠ ?y |- _ => apply Hne; by apply le_antisym_eq
           end).
Qed.

#[global] Instance key_le_total : Total key_le.
Proof.
  intros [[a1 a2] a3] [[b1 b2] b3]. unfold key_le. simpl.
  repeat case_decide; subst; try done; apply (total String.le).
Qed.

#[global] Instance summary_le_trans : Transitive summary_le.
Proof. intros a b c. unfold summary_le. apply key_le_trans. Qed.

#[global] Instance summary_le_total : Total summary_le.
Proof. intros a b. unfold summary_le. apply key_le_total. Qed.

(** The order of the three columns, read off the rows themselves: category
    names ascend; among equal category names manufacturers ascend; among
    equal manufacturers too, model names ascend. *)
Lemma summary_le_fields (a b : robot_summary) :
  summary_le a b →
  String.le (sum_category_name a) (sum_category_name b) ∧
  (sum_category_name a = sum_category_name b →
     String.le (sum_manufacturer a) (sum_manufacturer b) ∧
     (sum_manufacturer a = sum_manufacturer b →
        String.le (sum_model_name a) (sum_model_name b))).
Proof.
  unfold summary_le, key_le, order_key. simpl. intros Hle.
  destruct (decide (sum_category_name a = sum_category_name b)) as [Hc|Hc].
  - split; [by rewrite Hc|]. intros _.
    destruct (decide (sum_manufacturer a = sum_manufacturer b)) as [Hm|Hm].
    + split; [by rewrite Hm|]. done.
    + split; [done|]. intros Hm'. by destruct Hm.
  - split; [done|]. intros Hc'. by destruct Hc.
Qed.

Lemma StronglySorted_lookup {A} (R : relation A) (l : list A) (i j : nat) (a b : A) :
  StronglySorted R l → (i < j)%nat → l !! i = Some a → l !! j = Some b → R a b.
Proof.
  intros Hsorted. revert i j.
  induction Hsorted as [|x l Hsorted IH Hall]; intros i j Hij Hi Hj; [done|].
  destruct j as [|j]; [lia|]. simpl in Hj.
  destruct i as [|i]; simpl in Hi.
  - injection Hi as ->. rewrite Forall_forall in Hall.
    apply Hall. by eapply list_elem_of_lookup_2.
  - apply (IH i j); [lia|done..].
Qed.

Lemma left_join_fst {A B} (g : A → list B) (l : list A) (a : A) (b : option B) :
  (a, b) ∈ left_join l g → a ∈ l.
Proof.
  unfold left_join. intros (a' & Hin & Ha')%list_elem_of_bind.
  destruct (g a') as [|b0 bs].
  - apply list_elem_of_singleton in Hin. by injection Hin as -> _.
  - apply list_elem_of_fmap in Hin as (b' & [= -> _] & _). done.
Qed.

Lemma left_join_filter {A B} (P : A → Prop) `{∀ a, Decision (P a)}
    (g : A → list B) (l : list A) :
  filter (λ j, P j.1) (left_join l g) = left_join (filter P l) g.
Proof.
  unfold left_join. induction l as [|a l IH]; [done|].
  rewrite bind_cons, filter_app, IH, filter_cons.
  destruct (decide (P a)) as [Ha|Ha].
  - rewrite bind_cons. f_equal. apply filter_all, Forall_forall.
    intros [a' b] Hin. simpl.
    destruct (g a) as [|b0 bs].
    + apply list_elem_of_singleton in Hin. by injection Hin as -> _.
    + apply list_elem_of_fmap in Hin as (b' & [= -> _] & _). done.
  - rewrite filter_none; [done|]. apply Forall_forall.
    intros [a' b] Hin. simpl.
    destruct (g a) as [|b0 bs].
    + apply list_elem_of_singleton in Hin. by injection Hin as -> _.
    + apply list_elem_of_fmap in Hin as (b' & [= -> _] & _). done.
Qed.

Lemma elem_of_robots_categories d r rc :
  (r, rc) ∈ robots_categories d ↔
  r ∈ robots d ∧ rc ∈ robot_categories d ∧ category_id rc = robot_category_id r.
Proof.
  unfold robots_categories. split.
  - intros (r' & (rc' & Hin & Hrc)%list_elem_of_bind & Hr)%list_elem_of_bind.
    apply list_elem_of_singleton in Hin. injection Hin as -> ->.
    apply list_elem_of_filter in Hrc as [? ?]. done.
  - intros (Hr & Hrc & Hcid).
    apply list_elem_of_bind. exists r. split; [|done].
    apply list_elem_of_bind. exists rc. split; [left|].
    by apply list_elem_of_filter.
Qed.

(** Every robot whose category resolves to one row is joined once. *)
Lemma robots_categories_fst d :
  NoDup (category_id <$> robot_categories d) →
  Forall (λ r, robot_category_id r ∈ category_id <$> robot_categories d) (robots d) →
  (robots_categories d).*1 = robots d.
Proof.
  intros Hcats Hrefs. unfold robots_categories.
  induction Hrefs as [|r rs Hr _ IH]; [done|].
  rewrite bind_cons, fmap_app, IH. 
  apply list_elem_of_fmap in Hr as (rc0 & Hcid & Hrc0).
  rewrite Hcid, (filter_key_singleton category_id _ rc0 Hcats Hrc0).
  done.
Qed.

Lemma filter_starts_with_match {A} (P : A → Prop) `{∀ x, Decision (P x)}
    (l : list A) (x : A) :
  x ∈ l → P x → ∃ y rest, filter P l = y :: rest ∧ y ∈ l ∧ P y.
Proof.
  intros Hin HP.
  destruct (head_filter_Some P l x Hin HP) as (y & Hhead & Hy & HPy).
  destruct (filter P l) as [|y' rest]; [done|].
  injection Hhead as ->. by exists y, rest.
Qed.

Lemma group_by_robot_ids (joined : list (robot * category * option photo)) :
  sum_robot_id <$> group_by_robot joined
  = remove_dups ((λ j, robot_id j.1.1) <$> joined).
Proof.
  unfold group_by_robot.
  assert (Hall : ∀ k, k ∈ remove_dups ((λ j, robot_id j.1.1) <$> joined) →
                      k ∈ (λ j, robot_id j.1.1) <$> joined).
  { intros k. by rewrite elem_of_remove_dups. }
  induction (remove_dups ((λ j, robot_id j.1.1) <$> joined)) as [|k ks IH]; [done|].
  rewrite bind_cons, fmap_app, IH by (intros k' Hk'; apply Hall; by right).
  destruct (proj1 (list_elem_of_fmap _ _ _) (Hall k ltac:(left)))
    as (j & Hk & Hj).
  destruct (filter_starts_with_match (λ j, robot_id j.1.1 = k) joined j Hj
              (eq_sym Hk)) as ([[r rc] po] & rest & -> & _ & Hid).
  simpl in Hid. simpl. by rewrite Hid.
Qed.

Lemma elem_of_group_by_robot (joined : list (robot * category * option photo)) row :
  row ∈ group_by_robot joined →
  ∃ r rc,
    (∃ po, (r, rc, po) ∈ joined) ∧
    row = make_summary r rc
            (length (filter (λ j, is_Some j.2)
                       (filter (λ j, robot_id j.1.1 = robot_id r) joined))).
Proof.
  unfold group_by_robot. intros (k & Hrow & Hk)%list_elem_of_bind.
  destruct (filter (λ j, robot_id j.1.1 = k) joined) as [|[[r rc] po] rest] eqn:Hf;
    [by apply elem_of_nil in Hrow|].
  apply list_elem_of_singleton in Hrow.
  assert (Hin : (r, rc, po) ∈ filter (λ j, robot_id j.1.1 = k) joined)
    by (rewrite Hf; left).
  apply list_elem_of_filter in Hin as [Hid Hin]. simpl in Hid. subst k.
  exists r, rc. split; [by exists po|]. by rewrite Hf.
Qed.

Lemma robot_photo_count d r rc :
  NoDup (robot_id <$> robots d) →
  NoDup (category_id <$> robot_categories d) →
  Forall (λ r, robot_category_id r ∈ category_id <$> robot_categories d) (robots d) →
  (r, rc) ∈ robots_categories d →
  length (filter (λ j, is_Some j.2)
            (filter (λ j, robot_id j.1.1 = robot_id r) (robots_categories_photos d)))
  = length (filter (λ p, photo_robot_id p = robot_id r) (photos d)).
Proof.
  intros Hrobots Hcats Hrefs Hpair. unfold robots_categories_photos.
  pose proof (left_join_filter
                (λ a : robot * category, robot_id a.1 = robot_id r)
                (λ j : robot * category,
                   filter (λ p, photo_robot_id p = robot_id j.1) (photos d))
                (robots_categories d)) as Hfilter.
  cbv beta in Hfilter. rewrite Hfilter, left_join_matched.
  pose proof (filter_key_singleton (λ a : robot * category, robot_id a.1)
                (robots_categories d) (r, rc)) as Hone.
  simpl in Hone. rewrite Hone; [simpl; lia| |done].
  rewrite <- (robots_categories_fst d Hcats Hrefs) in Hrobots.
  rewrite <- list_fmap_compose in Hrobots. exact Hrobots.
Qed.

(** The rows behind list_all_robots, before they are put in order. *)
Lemma robot_rows d :
  schema_ok d → references_ok d →
  sum_robot_id <$> group_by_robot (robots_categories_photos d)
  ≡ₚ robot_id <$> robots d ∧
  ∀ row, row ∈ group_by_robot (robots_categories_photos d) →
    ∃ r rc,
      r ∈ robots d ∧ rc ∈ robot_categories d ∧
      category_id rc = robot_category_id r ∧
      row = make_summary r rc
              (length (filter (λ p, photo_robot_id p = robot_id r) (photos d))).
Proof.
  intros (Hcats & Hrobots & _) [Hrefs _]. split.
  - rewrite group_by_robot_ids. apply NoDup_Permutation.
    + apply NoDup_remove_dups.
    + done.
    + intros k. rewrite elem_of_remove_dups, !list_elem_of_fmap. split.
      * intros ([[r rc] po] & -> & Hj). simpl. exists r. split; [done|].
        apply left_join_fst in Hj. by apply elem_of_robots_categories in Hj as [? _].
      * intros (r & -> & Hr).
        rewrite Forall_forall in Hrefs.
        destruct (proj1 (list_elem_of_fmap _ _ _) (Hrefs r Hr)) as (rc & Hcid & Hrc).
        assert (Hpair : (r, rc) ∈ robots_categories d)
          by by apply elem_of_robots_categories.
        destruct (left_join_keeps
                    (λ j : robot * category,
                       filter (λ p, photo_robot_id p = robot_id j.1) (photos d))
                    _ _ Hpair) as (po & Hj).
        by exists (r, rc, po).
  - intros row (r & rc & [po Hj] & ->)%elem_of_group_by_robot.
    apply left_join_fst in Hj.
    pose proof Hj as (Hr & Hrc & Hcid)%elem_of_robots_categories.
    exists r, rc. repeat split; try done.
    by rewrite (robot_photo_count d r rc Hrobots Hcats Hrefs Hj).
Qed.

Lemma select_category_id_inv name d cid :
  select_category_id name d = Some cid →
  ∃ c, c ∈ robot_categories d ∧ category_name c = name ∧ category_id c = cid.
Proof.
  unfold select_category_id.
  destruct (filter (λ c, category_name c = name) (robot_categories d))
    as [|c rest] eqn:Hf; [done|].
  intros [= <-]. exists c.
  assert (Hin : c ∈ filter (λ c, category_name c = name) (robot_categories d))
    by (rewrite Hf; left).
  apply list_elem_of_filter in Hin as [? ?]. done.
Qed.

(** What a call of add_robot that returns has done to the tables. *)
Lemma add_robot_returns cname manuf model rtype year specs w rid w' :
  add_robot cname manuf model rtype year specs w = (Returns rid, w') →
  ∃ c,
    c ∈ robot_categories (view (conn w)) ∧ category_name c = cname ∧
    rid = robot_id (new_robot (view (conn w)) (category_id c) manuf model rtype year specs) ∧
    view (conn w')
    = insert_robot (new_robot (view (conn w)) (category_id c) manuf model rtype year specs)
                   (view (conn w)).
Proof.
  unfold add_robot, mbind, py_bind, query, implicit_begin, with_conn.
  destruct (select_category_id cname (view (conn w))) as [cid|] eqn:Hsel; [|done].
  destruct (select_category_id_inv _ _ _ Hsel) as (c & Hc & Hname & <-).
  destruct year as [y|].
  - match goal with
    | |- context [bind_integer ?s y ?w1] =>
        destruct (bind_integer s y w1) as [[[]|e] w0] eqn:Hbind; [|done]
    end.
    apply bind_integer_keeps_world in Hbind. subst w0.
    intros [= <- <-]. by exists c.
  - intros [= <- <-]. by exists c.
Qed.

Lemma schema_ok_insert_robot r d :
  schema_ok d → robot_id r ∉ robot_id <$> robots d → schema_ok (insert_robot r d).
Proof.
  intros (H1 & H2 & H3 & H4 & H5 & H6) Hfresh.
  repeat split; try done. simpl. rewrite fmap_app.
  apply NoDup_app. split; [done|]. split.
  - intros x Hx [->|[]%elem_of_nil]%elem_of_cons. done.
  - apply NoDup_singleton.
Qed.

Lemma references_ok_insert_robot r d :
  references_ok d →
  robot_category_id r ∈ category_id <$> robot_categories d →
  references_ok (insert_robot r d).
Proof.
  intros [Hr Hp] Hcat. split; simpl.
  - apply Forall_app. split; [done|]. by apply Forall_singleton.
  - eapply Forall_impl; [exact Hp|]. simpl. intros p Hin.
    rewrite fmap_app. apply elem_of_app. by left.
Qed.

(** C8: list_all_robots returns its rows sorted by category name, then
    manufacturer, then model name: of two rows the earlier one has the
    smaller or equal category name; when the category names are equal, the
    smaller or equal manufacturer; and when the manufacturers are equal too,
    the smaller or equal model name. When identifiers are keys and every
    robot references a category, there is exactly one row per robot, with
    the robot's columns, its category's name and the number of its photos
    (0 when it has none); and after add_robot has returned for a new robot,
    the list holds exactly one row for it, with photo_count 0. *)
Theorem list_all_robots_one_row_per_robot (w : world) :
  let d := view (conn w) in
  ∃ rows,
    list_all_robots w = (Returns rows, w) ∧
    (∀ i j a b,
       (i < j)%nat → rows !! i = Some a → rows !! j = Some b →
       String.le (sum_category_name a) (sum_category_name b) ∧
       (sum_category_name a = sum_category_name b →
          String.le (sum_manufacturer a) (sum_manufacturer b) ∧
          (sum_manufacturer a = sum_manufacturer b →
             String.le (sum_model_name a) (sum_model_name b)))) ∧
    (schema_ok d → references_ok d →
       sum_robot_id <$> rows ≡ₚ robot_id <$> robots d ∧
       (∀ row, row ∈ rows →
          ∃ r rc,
            r ∈ robots d ∧ rc ∈ robot_categories d ∧
            category_id rc = robot_category_id r ∧
            row = make_summary r rc
                    (length (filter (λ p, photo_robot_id p = robot_id r) (photos d)))) ∧
       (∀ cname manuf model rtype year specs rid w',
          add_robot cname manuf model rtype year specs w = (Returns rid, w') →
          ∃ rows' row,
            list_all_robots w' = (Returns rows', w') ∧
            filter (λ s, sum_robot_id s = rid) rows' = [row] ∧
            photo_count row = 0%nat ∧
            sum_category_name row = cname ∧
            sum_manufacturer row = manuf ∧
            sum_model_name row = model ∧
            sum_robot_type row = rtype)).
Proof.
  intros d. eexists. split; [reflexivity|]. fold d.
  split.
  { intros i j a b Hij Ha Hb. apply summary_le_fields.
    eapply StronglySorted_lookup;
      [apply (StronglySorted_merge_sort summary_le)|done..]. }
  intros Hschema Hrefs.
  destruct (robot_rows d Hschema Hrefs) as [Hids Hrows].
  split; [by rewrite merge_sort_Permutation|].
  split.
  { intros row Hrow. apply Hrows. by rewrite merge_sort_Permutation in Hrow. }
  intros cname manuf model rtype year specs rid w' Hadd.
  destruct (add_robot_returns _ _ _ _ _ _ _ _ _ Hadd) as (c & Hc & Hname & Hrid & Hview).
  fold d in Hc, Hrid, Hview.
  set (r := new_robot d (category_id c) manuf model rtype year specs) in *.
  assert (Hfresh : robot_id r ∉ robot_id <$> robots d) by apply next_rowid_fresh.
  assert (Hschema' : schema_ok (insert_robot r d))
    by by apply schema_ok_insert_robot.
  assert (Hrefs' : references_ok (insert_robot r d)).
  { apply references_ok_insert_robot; [done|].
    apply list_elem_of_fmap. by exists c. }
  destruct (robot_rows _ Hschema' Hrefs') as [Hids' Hrows'].
  set (rows' := merge_sort summary_le
                  (group_by_robot (robots_categories_photos (insert_robot r d)))).
  assert (Hperm : sum_robot_id <$> rows' ≡ₚ robot_id <$> robots (insert_robot r d)).
  { unfold rows'. by rewrite merge_sort_Permutation. }
  assert (Hnodup : NoDup (sum_robot_id <$> rows')).
  { rewrite Hperm. by destruct Hschema' as (_ & ? & _). }
  assert (Hin : rid ∈ sum_robot_id <$> rows').
  { rewrite Hperm, Hrid. unfold insert_robot. cbn [robots].
    rewrite fmap_app. apply elem_of_app. right. left. }
  apply list_elem_of_fmap in Hin as (row & Hrowid & Hrow).
  exists rows', row. split.
  { unfold list_all_robots, query. by rewrite Hview. }
  split.
  { rewrite Hrowid. by apply filter_key_singleton. }
  assert (Hrow' : row ∈ group_by_robot (robots_categories_photos (insert_robot r d))).
  { unfold rows' in Hrow. by rewrite merge_sort_Permutation in Hrow. }
  destruct (Hrows' row Hrow') as (r' & rc' & Hr' & Hrc' & Hcid' & ->).
  simpl in Hrowid.
  assert (r' = r) as ->.
  { destruct Hschema' as (_ & Hrobots' & _).
    apply (key_determines_row robot_id (robots (insert_robot r d))); try done.
    - simpl. apply elem_of_app. right. left.
    - congruence. }
  assert (rc' = c) as ->.
  { destruct Hschema as (Hcats & _).
    by apply (key_determines_row category_id (robot_categories d)). }
  simpl. repeat split; try done.
  rewrite filter_none; [done|]. apply Forall_forall. intros p Hp Hpid.
  apply Hfresh.
  destruct Hrefs as [_ Hphotos]. rewrite Forall_forall in Hphotos.
  pose proof (Hphotos p Hp) as Hmem. rewrite Hpid in Hmem. exact Hmem.
Qed.

Lemma list_all_robots_one_row_per_robot_witness :
  (∃ rows,
     list_all_robots demo_world_with_photo = (Returns rows, demo_world_with_photo) ∧
     sum_robot_id <$> rows
     ≡ₚ robot_id <$> robots (view (conn demo_world_with_photo))) ∧
  (∃ w' rows' row,
     add_robot "AMRs" "Bolt" "M2" "tugger" (Some 2021) None demo_world_with_photo
     = (Returns 2, w') ∧
     list_all_robots w' = (Returns rows', w') ∧
     filter (λ s, sum_robot_id s = 2) rows' = [row] ∧
     photo_count row = 0%nat) ∧
  (let w' := (add_robot "AMRs" "Bolt" "M2" "tugger" (Some 2021) None
                        demo_world_with_photo).2 in
   ∃ rows a b,
     list_all_robots w' = (Returns rows, w') ∧
     rows !! 0%nat = Some a ∧ rows !! 1%nat = Some b ∧
     sum_robot_id a = 2 ∧ sum_robot_id b = 1 ∧
     sum_category_name a = "AMRs" ∧ sum_category_name b = "Drones" ∧
     String.le (sum_category_name a) (sum_category_name b)).
Proof.
  destruct (list_all_robots_one_row_per_robot demo_world_with_photo)
    as (rows & Hrun & _ & Hrows).
  destruct Hrows as (Hids & _ & Hadd); [by_evaluation | by_evaluation |].
  split; [|split].
  - exists rows. split; [exact Hrun | exact Hids].
  - destruct (Hadd "AMRs" "Bolt" "M2" "tugger" (Some 2021) None 2 _ eq_refl)
      as (rows' & row & Hlist & Hone & Hcount & _).
    eexists _, rows', row. split; [reflexivity|].
    split; [exact Hlist|]. split; [exact Hone | exact Hcount].
  - intros w'.
    destruct (list_all_robots_one_row_per_robot w') as (rows2 & Hrun2 & Hord & _).
    assert (Hrows2 : ∃ a b,
               rows2 !! 0%nat = Some a ∧ rows2 !! 1%nat = Some b ∧
               sum_robot_id a = 2 ∧ sum_robot_id b = 1 ∧
               sum_category_name a = "AMRs" ∧ sum_category_name b = "Drones").
    { pose proof Hrun2 as Hc. vm_compute in Hc. injection Hc as <-.
      eexists _, _. split; [reflexivity|]. split; [reflexivity|].
      split; [reflexivity|]. split; [reflexivity|]. split; reflexivity. }
    destruct Hrows2 as (a & b & Ha & Hb & Hida & Hidb & Hca & Hcb).
    exists rows2, a, b. split; [exact Hrun2|].
    split; [exact Ha|]. split; [exact Hb|]. split; [exact Hida|].
    split; [exact Hidb|]. split; [exact Hca|]. split; [exact Hcb|].
    apply (Hord 0%nat 1%nat a b); [lia | exact Ha | exact Hb].
Defined.

(** ** The methods keep the invariants of the data model *)

Lemma NoDup_snoc_fresh {A} (l : list A) (x : A) :
  NoDup l → x ∉ l → NoDup (l ++ [x]).
Proof.
  intros Hnd Hx. apply NoDup_app. split; [done|]. split.
  - intros y Hy [->|[]%elem_of_nil]%elem_of_cons. done.
  - apply NoDup_singleton.
Qed.

Lemma schema_ok_insert_or_ignore_tag name d :
  schema_ok d → schema_ok (insert_or_ignore_tag name d).
Proof.
  intros (H1 & H2 & H3 & H4 & H5 & H6). unfold insert_or_ignore_tag.
  case_bool_decide as Hin; [done|].
  repeat split; try done; simpl; rewrite fmap_app.
  - apply NoDup_snoc_fresh; [done|]. apply next_rowid_fresh.
  - by apply NoDup_snoc_fresh.
Qed.

Lemma schema_ok_insert_or_ignore_link pid tid d :
  schema_ok d → schema_ok (insert_or_ignore_link pid tid d).
Proof.
  intros (H1 & H2 & H3 & H4 & H5 & H6). unfold insert_or_ignore_link.
  case_bool_decide as Hin; [done|].
  repeat split; try done. simpl. by apply NoDup_snoc_fresh.
Qed.

Lemma references_ok_tables d d' :
  robot_categories d' = robot_categories d →
  robots d' = robots d →
  photos d' = photos d →
  references_ok d → references_ok d'.
Proof. unfold references_ok. by intros -> -> ->. Qed.

Lemma add_tag_to_photo_keeps_invariants pid name w o w' :
  world_ok w → add_tag_to_photo pid name w = (o, w') → world_ok w'.
Proof.
  intros [Hschema Hrefs].
  destruct (select_tag_id_present name _ (tag_names_after_insert name (view (conn w))))
    as (t & Hsel & _).
  destruct (decide (bindable (photo_id <$> photos (view (conn w))) pid)) as [Hpid|Hpid].
  - rewrite (add_tag_to_photo_run _ _ _ _ Hpid Hsel). intros [= _ <-]. split; simpl.
    + by apply schema_ok_insert_or_ignore_link, schema_ok_insert_or_ignore_tag.
    + eapply references_ok_tables; [..|exact Hrefs];
        unfold insert_or_ignore_link, insert_or_ignore_tag;
        repeat case_bool_decide; done.
  - rewrite (add_tag_to_photo_overflow _ _ _ Hpid). intros [= _ <-]. split; simpl.
    + by apply schema_ok_insert_or_ignore_tag.
    + eapply references_ok_tables; [..|exact Hrefs];
        unfold insert_or_ignore_tag; case_bool_decide; done.
Qed.

Lemma for_each_add_tag_keeps_invariants pid (names : list string) w o w' :
  world_ok w →
  for_each names (add_tag_to_photo pid) w = (o, w') →
  world_ok w'.
Proof.
  revert w. induction names as [|name names IH]; intros w Hok.
  - by intros [= _ <-].
  - cbn [for_each]. unfold mbind, py_bind.
    destruct (add_tag_to_photo pid name w) as [[[]|e] w1] eqn:Hrun.
    + apply IH. by eapply add_tag_to_photo_keeps_invariants.
    + intros [= _ <-]. by eapply add_tag_to_photo_keeps_invariants.
Qed.

Lemma add_robot_keeps_invariants cname manuf model rtype year specs w rid w' :
  world_ok w →
  add_robot cname manuf model rtype year specs w = (Returns rid, w') →
  world_ok w'.
Proof.
  intros [Hschema Hrefs] Hadd.
  destruct (add_robot_returns _ _ _ _ _ _ _ _ _ Hadd) as (c & Hc & _ & _ & Hview).
  unfold world_ok. rewrite Hview. split.
  - apply schema_ok_insert_robot; [done|]. apply next_rowid_fresh.
  - apply references_ok_insert_robot; [done|].
    apply list_elem_of_fmap. by exists c.
Qed.

Lemma select_robot_category_Some rid d cname :
  select_robot_category rid d = Some cname → rid ∈ robot_id <$> robots d.
Proof.
  unfold select_robot_category. intros Hhead.
  destruct (filter (λ r, robot_id r = rid) (robots d)) as [|r rest] eqn:Hf; [done|].
  assert (Hin : r ∈ filter (λ r, robot_id r = rid) (robots d)) by (rewrite Hf; left).
  apply list_elem_of_filter in Hin as [<- Hin].
  apply list_elem_of_fmap. by exists r.
Qed.

Lemma commit_keeps_view w w' : commit w = (Returns tt, w') → view (conn w') = view (conn w).
Proof. unfold commit, with_conn. intros [= <-]. simpl. by destruct (in_txn (conn w)). Qed.

Lemma copy2_keeps_conn src dst w o w' : copy2 src dst w = (o, w') → conn w' = conn w.
Proof.
  unfold copy2, write_file, raise. intros H.
  repeat case_match; simplify_eq; done.
Qed.

Lemma st_size_keeps_world p w o w' : st_size p w = (o, w') → w' = w.
Proof.
  unfold st_size, raise. destruct (lookup_path p (disk w)); by intros [= _ <-].
Qed.

Lemma world_ok_conn w w' : conn w' = conn w → world_ok w → world_ok w'.
Proof. unfold world_ok. by intros ->. Qed.

Lemma add_photo_keeps_invariants
    rid source_file ptype descr tag_names photog timestamp today w o w' :
  world_ok w →
  add_photo rid source_file ptype descr tag_names photog timestamp today w
  = (o, w') →
  world_ok w'.
Proof.
  intros Hok.
  unfold add_photo, mbind, py_bind, path_exists, query.
  destruct (negb _); [by intros [= _ <-]|].
  destruct (bind_integer stored_robot_ids rid w) as [[[]|e] w0] eqn:Hbind;
    apply bind_integer_keeps_world in Hbind; subst w0; [|by intros [= _ <-]].
  destruct (select_robot_category rid (view (conn w))) as [cname|] eqn:Hsel;
    [|by intros [= _ <-]].
  apply select_robot_category_Some in Hsel.
  match goal with
  | |- context [copy2 ?s ?d ?w0] =>
      destruct (copy2 s d w0) as [[[]|e] w1] eqn:Hcopy
  end; apply copy2_keeps_conn in Hcopy;
    [|intros [= _ <-]; by apply (world_ok_conn w)].
  match goal with
  | |- context [st_size ?d ?w0] =>
      destruct (st_size d w0) as [[size|e] w2] eqn:Hsize
  end; apply st_size_keeps_world in Hsize; subst w2;
    [|intros [= _ <-]; by apply (world_ok_conn w)].
  unfold dml, with_conn. rewrite Hcopy.
  set (p := Photo _ _ _ _ _ _ _ _ _).
  set (w3 := World _ _ _).
  assert (Hok3 : world_ok w3).
  { destruct Hok as [(H1 & H2 & H3 & H4 & H5 & H6) [Hr Hp]]. split; simpl.
    - repeat split; try done. simpl. rewrite fmap_app.
      apply NoDup_snoc_fresh; [done|]. apply next_rowid_fresh.
    - split; simpl; [done|]. apply Forall_app. split; [done|].
      by apply Forall_singleton. }
  assert (Hfinish : ∀ w4, world_ok w4 →
            (let (o, w5) := commit w4 in
             match o with
             | Returns _ => (Returns (next_rowid (photo_id <$> photos (view (conn w)))), w5)
             | Raises e0 => (Raises e0, w5)
             end) = (o, w') → world_ok w').
  { intros w4 Hok4. destruct (commit w4) as [[[]|e] w5] eqn:Hc; [|done].
    intros [= _ <-]. unfold world_ok. by rewrite (commit_keeps_view _ _ Hc). }
  destruct tag_names as [[|t ts]|].
  - exact (Hfinish w3 Hok3).
  - destruct (for_each (t :: ts) _ w3) as [[[]|e] w4] eqn:Hfor.
    + apply Hfinish.
      exact (for_each_add_tag_keeps_invariants _ (t :: ts) w3 _ w4 Hok3 Hfor).
    + intros [= _ <-].
      exact (for_each_add_tag_keeps_invariants _ (t :: ts) w3 _ w4 Hok3 Hfor).
  - exact (Hfinish w3 Hok3).
Qed.

(** * Further properties of the data-access layer *)

(** ** What a returning call has done *)

Lemma add_tag_to_photo_effect pid name w :
  bindable (photo_id <$> photos (view (conn w))) pid →
  add_tag_to_photo pid name w
  = (Returns tt,
     let d' := tag_photo pid name (view (conn w)) in
     World (photo_storage w)
           (Connection d' d' false (d' :: journal (conn w))) (disk w)).
Proof.
  intros Hpid.
  destruct (select_tag_id_present name _ (tag_names_after_insert name (view (conn w))))
    as (t & Hsel & _).
  rewrite (add_tag_to_photo_run _ _ _ _ Hpid Hsel). unfold tag_photo. by rewrite Hsel.
Qed.

Lemma tag_photo_tables pid name d :
  robot_categories (tag_photo pid name d) = robot_categories d ∧
  robots (tag_photo pid name d) = robots d ∧
  photos (tag_photo pid name d) = photos d.
Proof.
  unfold tag_photo, insert_or_ignore_link, insert_or_ignore_tag.
  repeat (case_bool_decide || case_match); done.
Qed.

Lemma tag_photo_all_tables pid names d :
  robot_categories (tag_photo_all pid names d) = robot_categories d ∧
  robots (tag_photo_all pid names d) = robots d ∧
  photos (tag_photo_all pid names d) = photos d.
Proof.
  unfold tag_photo_all. revert d. induction names as [|name names IH]; intros d; [done|].
  simpl. destruct (IH (tag_photo pid name d)) as (-> & -> & ->).
  apply tag_photo_tables.
Qed.

Lemma for_each_add_tag_effect pid (names : list string) w :
  bindable (photo_id <$> photos (view (conn w))) pid →
  ∃ w',
    for_each names (add_tag_to_photo pid) w = (Returns tt, w') ∧
    view (conn w') = tag_photo_all pid names (view (conn w)) ∧
    disk w' = disk w ∧
    photo_storage w' = photo_storage w ∧
    (names ≠ [] → durable (conn w') = view (conn w') ∧ in_txn (conn w') = false).
Proof.
  revert w. induction names as [|name names IH]; intros w Hpid.
  - exists w. by repeat split.
  - pose proof (add_tag_to_photo_effect pid name w Hpid) as Hstep.
    destruct (IH (add_tag_to_photo pid name w).2) as (w' & Hrun & Hview & Hdisk & Hst & Hc).
    { rewrite Hstep. cbn [snd view conn].
      by destruct (tag_photo_tables pid name (view (conn w))) as (_ & _ & ->). }
    exists w'. cbn [for_each]. unfold mbind, py_bind.
    rewrite Hstep in *. simpl in *.
    split; [exact Hrun|]. split; [exact Hview|].
    split; [exact Hdisk|]. split; [exact Hst|].
    intros _. destruct names as [|n ns]; [|by apply Hc].
    simpl in Hrun. injection Hrun as <-. done.
Qed.

Lemma lookup_path_filter_ne (p q : string) (l : list (string * node)) :
  p ≠ q → lookup_path p (filter (λ e, e.1 ≠ q) l) = lookup_path p l.
Proof.
  intros Hne. induction l as [|[r n] l IH]; [done|].
  rewrite filter_cons. simpl. destruct (decide (r ≠ q)) as [Hr|Hr]; simpl.
  - by rewrite IH.
  - assert (r = q) as -> by (destruct (decide (r = q)); [done|tauto]).
    rewrite bool_decide_eq_false_2 by done. exact IH.
Qed.

Lemma write_file_lookup (p q : string) (size : Z) (w w' : world) :
  write_file p size w = (Returns tt, w') →
  lookup_path q (disk w')
  = if bool_decide (p = q) then Some (File size) else lookup_path q (disk w).
Proof.
  unfold write_file. intros [= <-]. simpl. case_bool_decide as Hpq; [done|].
  apply lookup_path_filter_ne. congruence.
Qed.

Lemma append_length (a b : string) :
  String.length (a +:+ b) = (String.length a + String.length b)%nat.
Proof. induction a as [|c a IH]; [done|]. rewrite append_cons. simpl. by rewrite IH. Qed.

Lemma path_join_ne (a b : string) : path_join a b ≠ a.
Proof.
  unfold path_join. intros Heq.
  apply (f_equal String.length) in Heq.
  rewrite !append_length in Heq. simpl in Heq. lia.
Qed.

Lemma copy2_raises src dst w e w' : copy2 src dst w = (Raises e, w') → w' = w.
Proof.
  unfold copy2, write_file, raise. intros H.
  repeat case_match; simplify_eq; done.
Qed.

Lemma copy2_keeps_connection src dst w o w' :
  copy2 src dst w = (o, w') → conn w' = conn w ∧ photo_storage w' = photo_storage w.
Proof.
  unfold copy2, write_file, raise. intros H.
  repeat case_match; simplify_eq; done.
Qed.

(** After a copy that succeeded, [stat] finds the destination. *)
Lemma st_size_after_copy2 src dst w w1 :
  copy2 src dst w = (Returns tt, w1) →
  ∃ n, lookup_path dst (disk w1) = Some n ∧ st_size dst w1 = (Returns (node_size n), w1).
Proof.
  unfold copy2, raise. intros H.
  assert (Hfound : ∃ n, lookup_path dst (disk w1) = Some n).
  { destruct (lookup_path src (disk w)) as [[size|?]|]; [|done..].
    destruct (lookup_path dst (disk w)) as [[?|dsize]|] eqn:Hdst.
    - rewrite (write_file_lookup _ dst _ _ _ H).
      rewrite bool_decide_eq_true_2 by done. eauto.
    - rewrite (write_file_lookup _ dst _ _ _ H).
      rewrite bool_decide_eq_false_2 by apply path_join_ne. rewrite Hdst. eauto.
    - destruct (lookup_path (path_parent dst) (disk w)) as [[?|?]|]; [done| |done].
      rewrite (write_file_lookup _ dst _ _ _ H).
      rewrite bool_decide_eq_true_2 by done. eauto. }
  destruct Hfound as (n & Hn). exists n. split; [done|].
  unfold st_size. by rewrite Hn.
Qed.

Lemma add_photo_after_copy
    rid source_file ptype descr tag_names photog timestamp today w cname w1 n :
  let d := view (conn w) in
  let dest := destination (photo_storage w) cname timestamp source_file in
  let pid := next_rowid (photo_id <$> photos d) in
  let p := Photo pid rid (timestamp +:+ "_" +:+ path_name source_file) dest today
                 ptype (node_size n `div` 1024) descr photog in
  is_Some (lookup_path source_file (disk w)) →
  select_robot_category rid d = Some cname →
  copy2 source_file dest w = (Returns tt, w1) →
  lookup_path dest (disk w1) = Some n →
  ∃ w',
    add_photo rid source_file ptype descr tag_names photog timestamp today w
    = (Returns pid, w') ∧
    view (conn w') = tag_photo_all pid (tags_given tag_names) (insert_photo p d) ∧
    durable (conn w') = view (conn w') ∧
    in_txn (conn w') = false ∧
    disk w' = disk w1 ∧
    photo_storage w' = photo_storage w.
Proof.
  intros d dest pid p Hsrc Hsel Hcopy Hn.
  destruct (copy2_keeps_connection _ _ _ _ _ Hcopy) as [Hconn Hstore].
  unfold add_photo, mbind, py_bind, path_exists, query.
  rewrite (bool_decide_eq_true_2 _ Hsrc). cbn [negb].
  unfold bind_integer.
  rewrite bind_integer_of_ok
    by (right; by apply (select_robot_category_Some _ _ cname)).
  fold d. rewrite Hsel.
  fold (destination (photo_storage w) cname timestamp source_file). fold dest.
  rewrite Hcopy. unfold st_size. rewrite Hn.
  unfold dml, with_conn. rewrite Hconn. fold d pid p.
  set (w3 := World (photo_storage w1)
                   (Connection (durable (conn w)) (insert_photo p d) true
                               (journal (conn w)))
                   (disk w1)).
  destruct tag_names as [[|t ts]|].
  - eexists. split; [reflexivity|]. simpl. by rewrite Hstore.
  - destruct (for_each_add_tag_effect pid (t :: ts) w3)
      as (w4 & Hfor & Hview & Hdisk & Hst & Hc);
      [apply (inserted_photo_is_bindable p)|].
    destruct (Hc ltac:(done)) as [Hdur Htxn].
    rewrite Hfor. unfold commit, with_conn. rewrite Htxn.
    eexists. split; [reflexivity|]. simpl.
    rewrite Hview, Hdur, Htxn, Hdisk, Hst, Hview. simpl. by rewrite Hstore.
  - eexists. split; [reflexivity|]. simpl. by rewrite Hstore.
Qed.

(** The steps of add_photo, read back from its outcome. *)
Lemma add_photo_cases
    rid source_file ptype descr tag_names photog timestamp today w :
  let d := view (conn w) in
  (∃ e, add_photo rid source_file ptype descr tag_names photog timestamp today w
        = (Raises e, w)) ∨
  (∃ cname w1 n,
     is_Some (lookup_path source_file (disk w)) ∧
     select_robot_category rid d = Some cname ∧
     copy2 source_file
           (destination (photo_storage w) cname timestamp source_file) w
     = (Returns tt, w1) ∧
     lookup_path (destination (photo_storage w) cname timestamp source_file)
                 (disk w1) = Some n).
Proof.
  intros d.
  destruct (lookup_path source_file (disk w)) as [node0|] eqn:Hsrc.
  2:{ left. eexists. unfold add_photo, mbind, py_bind, path_exists.
      rewrite Hsrc. rewrite bool_decide_eq_false_2; [done|]. by intros [? ?]. }
  destruct (decide (bindable (robot_id <$> robots d) rid)) as [Hrid|Hrid].
  2:{ left. eexists. unfold add_photo, mbind, py_bind, path_exists, query.
      rewrite Hsrc. rewrite bool_decide_eq_true_2 by eauto. cbn [negb].
      unfold bind_integer. by rewrite bind_integer_of_overflow. }
  destruct (select_robot_category rid d) as [cname|] eqn:Hsel.
  2:{ left. eexists. unfold add_photo, mbind, py_bind, path_exists, query.
      rewrite Hsrc. rewrite bool_decide_eq_true_2 by eauto. cbn [negb].
      unfold bind_integer. rewrite bind_integer_of_ok by done.
      fold d. by rewrite Hsel. }
  destruct (copy2 source_file
              (destination (photo_storage w) cname timestamp source_file) w)
    as [[[]|e] w1] eqn:Hcopy.
  - right. destruct (st_size_after_copy2 _ _ _ _ Hcopy) as (n & Hn & _).
    exists cname, w1, n. repeat split; eauto.
  - left. exists e. pose proof (copy2_raises _ _ _ _ _ Hcopy) as ->.
    unfold add_photo, mbind, py_bind, path_exists, query.
    rewrite Hsrc. rewrite bool_decide_eq_true_2 by eauto. cbn [negb].
    unfold bind_integer. rewrite bind_integer_of_ok by done.
    fold d. rewrite Hsel.
    fold (destination (photo_storage w) cname timestamp source_file).
    by rewrite Hcopy.
Qed.

Lemma add_photo_returns
    rid source_file ptype descr tag_names photog timestamp today w pid w' :
  add_photo rid source_file ptype descr tag_names photog timestamp today w
  = (Returns pid, w') →
  let d := view (conn w) in
  ∃ cname w1 n,
    select_robot_category rid d = Some cname ∧
    copy2 source_file (destination (photo_storage w) cname timestamp source_file) w
    = (Returns tt, w1) ∧
    lookup_path (destination (photo_storage w) cname timestamp source_file) (disk w1)
    = Some n ∧
    pid = next_rowid (photo_id <$> photos d) ∧
    view (conn w')
    = tag_photo_all pid (tags_given tag_names)
        (insert_photo
           (Photo pid rid (timestamp +:+ "_" +:+ path_name source_file)
                  (destination (photo_storage w) cname timestamp source_file)
                  today ptype (node_size n `div` 1024) descr photog) d) ∧
    durable (conn w') = view (conn w') ∧
    disk w' = disk w1.
Proof.
  intros Hrun d.
  destruct (add_photo_cases rid source_file ptype descr tag_names photog
              timestamp today w) as [[e He] | (cname & w1 & n & Hsrc & Hsel & Hcopy & Hn)].
  { rewrite He in Hrun. discriminate Hrun. }
  destruct (add_photo_after_copy rid source_file ptype descr tag_names photog
              timestamp today w cname w1 n Hsrc Hsel Hcopy Hn)
    as (w2 & Hrun2 & Hview & Hdur & _ & Hdisk & _).
  rewrite Hrun2 in Hrun. injection Hrun as <- <-.
  exists cname, w1, n. by repeat split.
Qed.

(** ** add_photo: what a successful call stores *)



(** ** Tags: linking and searching *)

(** The tag filter of search_photos selects the photos linked to any of
    the names. *)
Lemma elem_of_tagged_photo_ids pid names d :
  pid ∈ tagged_photo_ids names d ↔ ∃ name, name ∈ names ∧ linked pid name d.
Proof.
  unfold tagged_photo_ids, linked. split.
  - intros (pt & (tg & Hin & Htg)%list_elem_of_bind & Hpt)%list_elem_of_bind.
    apply list_elem_of_filter in Htg as [Hid Htg].
    case_bool_decide as Hname; [|by apply elem_of_nil in Hin].
    apply list_elem_of_singleton in Hin. subst pid.
    exists (tag_name tg). split; [done|]. exists tg. repeat split; try done.
    rewrite Hid. by destruct pt.
  - intros (name & Hname & tg & Htg & <- & Hlink).
    apply list_elem_of_bind. exists (PhotoTag pid (tag_id tg)). split; [|done].
    apply list_elem_of_bind. exists tg. split; [|by apply list_elem_of_filter].
    rewrite bool_decide_eq_true_2 by done. left.
Qed.

Lemma insert_or_ignore_tag_grows name d tg :
  tg ∈ tags d → tg ∈ tags (insert_or_ignore_tag name d).
Proof.
  intros Hin. unfold insert_or_ignore_tag. case_bool_decide; [done|]. simpl.
  apply elem_of_app. by left.
Qed.

Lemma insert_or_ignore_link_grows pid tid d l :
  l ∈ photo_tags d → l ∈ photo_tags (insert_or_ignore_link pid tid d).
Proof.
  intros Hin. unfold insert_or_ignore_link. case_bool_decide; [done|]. simpl.
  apply elem_of_app. by left.
Qed.

Lemma photo_tags_after_tag name d :
  photo_tags (insert_or_ignore_tag name d) = photo_tags d.
Proof. unfold insert_or_ignore_tag. by case_bool_decide. Qed.

Lemma tag_photo_unfold pid name d :
  ∃ tg,
    tg ∈ tags (insert_or_ignore_tag name d) ∧ tag_name tg = name ∧
    select_tag_id name (insert_or_ignore_tag name d) = Some (tag_id tg) ∧
    tag_photo pid name d
    = insert_or_ignore_link pid (tag_id tg) (insert_or_ignore_tag name d).
Proof.
  destruct (select_tag_id_present name _ (tag_names_after_insert name d))
    as (tg & Hsel & Htg & Hname).
  exists tg. repeat split; try done. unfold tag_photo. by rewrite Hsel.
Qed.

Lemma tag_photo_links pid name d : linked pid name (tag_photo pid name d).
Proof.
  destruct (tag_photo_unfold pid name d) as (tg & Htg & Hname & _ & ->).
  exists tg. split; [by rewrite tags_after_link|]. split; [done|].
  apply link_after_insert.
Qed.

Lemma tag_photo_keeps_links pid name d pid' name' :
  linked pid' name' d → linked pid' name' (tag_photo pid name d).
Proof.
  intros (tg' & Htg' & Hname' & Hlink').
  destruct (tag_photo_unfold pid name d) as (tg & _ & _ & _ & ->).
  exists tg'. split.
  - rewrite tags_after_link. by apply insert_or_ignore_tag_grows.
  - split; [done|]. apply insert_or_ignore_link_grows.
    by rewrite photo_tags_after_tag.
Qed.

Lemma tag_photo_all_keeps_links pid names d pid' name' :
  linked pid' name' d → linked pid' name' (tag_photo_all pid names d).
Proof.
  unfold tag_photo_all. revert d.
  induction names as [|name names IH]; intros d Hl; [done|].
  simpl. by apply IH, tag_photo_keeps_links.
Qed.

Lemma tag_photo_all_links pid names d name :
  name ∈ names → linked pid name (tag_photo_all pid names d).
Proof.
  unfold tag_photo_all. revert d.
  induction names as [|n names IH]; intros d Hin.
  - by apply elem_of_nil in Hin.
  - simpl. apply elem_of_cons in Hin as [->|Hin]; [|by apply IH].
    apply (tag_photo_all_keeps_links pid names), tag_photo_links.
Qed.

Lemma select_robot_category_inv rid d cname :
  select_robot_category rid d = Some cname →
  ∃ r rc,
    r ∈ robots d ∧ robot_id r = rid ∧
    rc ∈ robot_categories d ∧ category_id rc = robot_category_id r ∧
    category_name rc = cname.
Proof.
  unfold select_robot_category. intros Hhead.
  destruct (_ ≫= _) as [|x rest] eqn:Hbind; [done|].
  injection Hhead as ->.
  assert (Hin : cname ∈ cname :: rest) by left. rewrite <- Hbind in Hin.
  apply list_elem_of_bind in Hin as (r & (rc & Hin & Hrc)%list_elem_of_bind & Hr).
  apply list_elem_of_singleton in Hin.
  apply list_elem_of_filter in Hr as [? ?].
  apply list_elem_of_filter in Hrc as [? ?].
  by exists r, rc.
Qed.

(** X3: after add_photo has returned for a tag list, a search by any of
    those tags (alone or among other tag names) finds the new photo, with
    its robot's manufacturer, model and category. *)
Theorem add_photo_then_search_by_tag
    rid source_file ptype descr names photog timestamp today w pid w'
    (name : string) (wanted : list string) :
  add_photo rid source_file ptype descr (Some names) photog timestamp today w
  = (Returns pid, w') →
  name ∈ names →
  name ∈ wanted →
  ∃ rows row r rc,
    search_photos None None None (Some wanted) w' = (Returns rows, w') ∧
    row ∈ rows ∧
    row_photo_id row = pid ∧
    row_photo_type row = ptype ∧
    row_description row = descr ∧
    r ∈ robots (view (conn w)) ∧ robot_id r = rid ∧
    rc ∈ robot_categories (view (conn w)) ∧
    category_id rc = robot_category_id r ∧
    row_manufacturer row = manufacturer r ∧
    row_model_name row = model_name r ∧
    row_category_name row = category_name rc.
Proof.
  intros Hrun Hname Hwanted.
  destruct (add_photo_returns _ _ _ _ _ _ _ _ _ _ _ Hrun)
    as (cname & w1 & n & Hsel & _ & _ & Hpid & Hview & _).
  destruct (select_robot_category_inv _ _ _ Hsel) as (r & rc & Hr & Hrid & Hrc & Hcid & _).
  set (p := Photo pid rid (timestamp +:+ "_" +:+ path_name source_file)
                  (destination (photo_storage w) cname timestamp source_file)
                  today ptype (node_size n `div` 1024) descr photog) in *.
  simpl in Hview.
  destruct (tag_photo_all_tables pid names (insert_photo p (view (conn w))))
    as (Hc' & Hr' & Hp').
  eexists _, (make_photo_row p r rc), r, rc.
  split; [reflexivity|]. split; [|by repeat split].
  apply elem_of_select_photos. exists p, r, rc.
  rewrite Hview, Hc', Hr', Hp'. simpl.
  split; [apply elem_of_app; right; left|]. repeat split; try done.
  destruct wanted as [|w0 ws]; [by apply elem_of_nil in Hwanted|].
  simpl. rewrite andb_true_r. apply bool_decide_eq_true.
  apply elem_of_tagged_photo_ids. exists name. split; [done|].
  by apply tag_photo_all_links.
Qed.

Lemma add_photo_then_search_by_tag_witness :
  ∃ rows row,
    search_photos None None None (Some ["4k"]) demo_world_with_photo
    = (Returns rows, demo_world_with_photo) ∧
    row ∈ rows ∧ row_photo_id row = 1.
Proof.
  destruct (add_photo_then_search_by_tag 1 "uploads/x1.jpg" "general" None
              ["aerial"; "4k"] None "20240501_101500" "2024-05-01" demo_world
              1 demo_world_with_photo "4k" ["4k"])
    as (rows & row & _ & _ & Hrun & Hrow & Hid & _).
  - vm_compute. reflexivity.
  - by_evaluation.
  - by_evaluation.
  - by exists rows, row.
Defined.

(** ** Filters of search_photos only narrow *)

Lemma bind_sublist_pointwise {A B} (f g : A → list B) (l : list A) :
  (∀ x, f x `sublist_of` g x) → l ≫= f `sublist_of` l ≫= g.
Proof.
  intros Hfg. induction l as [|x l IH]; [done|].
  rewrite !bind_cons. by apply sublist_app.
Qed.

Lemma select_photos_sublist clauses d :
  select_photos clauses d `sublist_of` select_photos [] d.
Proof.
  unfold select_photos.
  apply bind_sublist_pointwise. intros p.
  apply bind_sublist_pointwise. intros r.
  apply bind_sublist_pointwise. intros rc.
  simpl. destruct (forallb _ clauses); [done|]. apply sublist_nil_l.
Qed.

(** X4: whatever the four filters are, search_photos returns only rows
    that the search without filters returns, and none of them more often:
    the rows of the filtered search are, up to their order, among the rows
    of the unfiltered one. *)
Theorem search_photos_filters_narrow
    (categ manuf model : option string) (tag_names : option (list string)) (w : world) :
  ∃ rows all,
    search_photos categ manuf model tag_names w = (Returns rows, w) ∧
    search_photos None None None None w = (Returns all, w) ∧
    rows ⊆+ all.
Proof.
  eexists _, _. split; [reflexivity|]. split; [reflexivity|].
  apply sublist_submseteq, select_photos_sublist.
Qed.

(** ** list_all_robots against get_statistics *)

Lemma photo_counts_add_up d :
  schema_ok d → references_ok d →
  sum_list_with photo_count (group_by_robot (robots_categories_photos d))
  = length (photos d).
Proof.
  intros Hschema Hrefs.
  destruct (robot_rows d Hschema Hrefs) as [Hids Hrows].
  destruct Hschema as (_ & Hrobots & _). destruct Hrefs as [_ Hphotos].
  set (cnt := λ k : Z, length (filter (λ p, photo_robot_id p = k) (photos d))).
  trans (sum_list_with cnt (sum_robot_id <$> group_by_robot (robots_categories_photos d))).
  { rewrite sum_list_with_fmap. apply sum_list_with_agree, Forall_forall.
    intros row Hrow. destruct (Hrows row Hrow) as (r & rc & _ & _ & _ & ->). done. }
  rewrite Hids.
  trans (sum_list_with
           (λ k, length (filter (λ p, photo_robot_id p = k ∧ True) (photos d)))
           (robot_id <$> robots d)).
  { apply sum_list_with_agree, Forall_forall. intros k _. unfold cnt.
    f_equal. apply list_filter_iff. tauto. }
  rewrite (sum_by_key photo_robot_id (λ _, True) (photos d) _ Hrobots).
  - f_equal. apply filter_all, Forall_forall. done.
  - rewrite Forall_forall in Hphotos. exact Hphotos.
Qed.

(** X5: when identifiers are keys and every photo references a robot and
    every robot a category, the list of list_all_robots has as many rows as
    get_statistics counts robots, and its photo counts add up to the
    total_photos of get_statistics. *)
Theorem list_all_robots_totals (w : world) :
  world_ok w →
  ∃ rows s,
    list_all_robots w = (Returns rows, w) ∧
    get_statistics w = (Returns s, w) ∧
    length rows = total_robots s ∧
    sum_list_with photo_count rows = total_photos s.
Proof.
  intros [Hschema Hrefs]. eexists _, _.
  split; [reflexivity|]. split; [reflexivity|]. simpl. split.
  - destruct (robot_rows _ Hschema Hrefs) as [Hids _].
    rewrite merge_sort_Permutation.
    rewrite <- (length_fmap sum_robot_id), Hids. apply length_fmap.
  - rewrite merge_sort_Permutation. by apply photo_counts_add_up.
Qed.

Lemma list_all_robots_totals_witness :
  ∃ rows s,
    list_all_robots demo_world_with_photo = (Returns rows, demo_world_with_photo) ∧
    get_statistics demo_world_with_photo = (Returns s, demo_world_with_photo) ∧
    length rows = total_robots s ∧
    sum_list_with photo_count rows = total_photos s.
Proof.
  apply (list_all_robots_totals demo_world_with_photo). by_evaluation.
Defined.

(** X6: list_all_robots lists a robot exactly when a category row carries
    the robot's category_id, whether or not the references hold: a robot
    whose category is missing is left out, and no robot_id is listed
    twice. *)
Theorem list_all_robots_needs_category (w : world) :
  let d := view (conn w) in
  ∃ rows,
    list_all_robots w = (Returns rows, w) ∧
    NoDup (sum_robot_id <$> rows) ∧
    ∀ rid,
      rid ∈ sum_robot_id <$> rows ↔
      ∃ r, r ∈ robots d ∧ robot_id r = rid ∧
           robot_category_id r ∈ category_id <$> robot_categories d.
Proof.
  intros d. eexists. split; [reflexivity|]. fold d.
  assert (Hids : sum_robot_id <$> merge_sort summary_le
                                    (group_by_robot (robots_categories_photos d))
                 ≡ₚ remove_dups ((λ j, robot_id j.1.1) <$> robots_categories_photos d)).
  { by rewrite merge_sort_Permutation, group_by_robot_ids. }
  split; [rewrite Hids; apply NoDup_remove_dups|].
  intros rid. rewrite Hids, elem_of_remove_dups, list_elem_of_fmap. split.
  - intros ([[r rc] po] & -> & Hj). simpl.
    apply left_join_fst, elem_of_robots_categories in Hj as (Hr & Hrc & Hcid).
    exists r. split; [done|]. split; [done|].
    apply list_elem_of_fmap. by exists rc.
  - intros (r & Hr & <- & (rc & Hcid & Hrc)%list_elem_of_fmap).
    assert (Hpair : (r, rc) ∈ robots_categories d)
      by by apply elem_of_robots_categories.
    destruct (left_join_keeps
                (λ j : robot * category,
                   filter (λ p, photo_robot_id p = robot_id j.1) (photos d))
                _ _ Hpair) as [po Hpo].
    by exists (r, rc, po).
Qed.

(** ** The writers keep the invariants *)

Lemma add_robot_raises cname manuf model rtype year specs w e w' :
  add_robot cname manuf model rtype year specs w = (Raises e, w') →
  view (conn w') = view (conn w).
Proof.
  unfold add_robot, mbind, py_bind, query, raise, implicit_begin, with_conn.
  destruct (select_category_id cname (view (conn w))); [|by intros [= _ <-]].
  destruct year as [y|]; [|done].
  match goal with
  | |- context [bind_integer ?s y ?w1] =>
      destruct (bind_integer s y w1) as [[[]|e0] w0] eqn:Hbind; [done|]
  end.
  apply bind_integer_keeps_world in Hbind. subst w0. by intros [= _ <-].
Qed.

(** X7: add_robot, add_photo and add_tag_to_photo keep the invariants of
    the data model: from tables whose identifiers are keys, whose tag names
    and links are unique and whose references resolve, each of them,
    whether it returns or raises, leaves tables of that kind. *)
Theorem writers_keep_invariants (w : world) :
  world_ok w →
  (∀ cname manuf model rtype year specs o w',
     add_robot cname manuf model rtype year specs w = (o, w') → world_ok w') ∧
  (∀ rid source_file ptype descr tag_names photog timestamp today o w',
     add_photo rid source_file ptype descr tag_names photog timestamp today w
     = (o, w') → world_ok w') ∧
  (∀ pid name o w',
     add_tag_to_photo pid name w = (o, w') → world_ok w').
Proof.
  intros Hok. split; [|split].
  - intros cname manuf model rtype year specs [rid|e] w' Hrun.
    + by eapply add_robot_keeps_invariants.
    + unfold world_ok. by rewrite (add_robot_raises _ _ _ _ _ _ _ _ _ Hrun).
  - intros rid source_file ptype descr tag_names photog timestamp today o w' Hrun.
    by eapply add_photo_keeps_invariants.
  - intros pid name o w' Hrun.
    by eapply add_tag_to_photo_keeps_invariants.
Qed.

Lemma writers_keep_invariants_witness :
  world_ok demo_world_with_photo.
Proof.
  destruct (writers_keep_invariants demo_world) as (_ & Hphoto & _).
  - by_evaluation.
  - apply (Hphoto 1 "uploads/x1.jpg" "general" None (Some ["aerial"; "4k"]) None
                  "20240501_101500" "2024-05-01" (Returns 1)).
    vm_compute. reflexivity.
Defined.

(** ** add_tag_to_photo links the photo_id *)

Lemma tag_photo_grows pid name d :
  robot_categories (tag_photo pid name d) = robot_categories d ∧
  robots (tag_photo pid name d) = robots d ∧
  photos (tag_photo pid name d) = photos d ∧
  (length (tags d) ≤ length (tags (tag_photo pid name d)) ≤ length (tags d) + 1)%nat ∧
  (length (photo_tags d) ≤ length (photo_tags (tag_photo pid name d))
   ≤ length (photo_tags d) + 1)%nat.
Proof.
  destruct (tag_photo_unfold pid name d) as (tg & _ & _ & _ & ->).
  unfold insert_or_ignore_link, insert_or_ignore_tag.
  repeat case_bool_decide; simpl; rewrite ?length_app; simpl; repeat split; lia.
Qed.

(** X8: add_tag_to_photo returns for every photo_id in the 64-bit
    range and every tag name, also for a photo_id no photo carries: the row
    it reads back after INSERT OR IGNORE is always there. Afterwards the
    photo_id is linked to a tag of that name, every earlier link is still
    there, at most one tag row and one link row were added, the other
    tables and the files are untouched and the change is committed. *)
Theorem add_tag_to_photo_always_links (pid : Z) (name : string) (w : world) :
  let d := view (conn w) in
  sqlite_integer pid →
  ∃ w',
    add_tag_to_photo pid name w = (Returns tt, w') ∧
    linked pid name (view (conn w')) ∧
    (∀ pid' name', linked pid' name' d → linked pid' name' (view (conn w'))) ∧
    robot_categories (view (conn w')) = robot_categories d ∧
    robots (view (conn w')) = robots d ∧
    photos (view (conn w')) = photos d ∧
    (length (tags d) ≤ length (tags (view (conn w'))) ≤ length (tags d) + 1)%nat ∧
    (length (photo_tags d) ≤ length (photo_tags (view (conn w')))
     ≤ length (photo_tags d) + 1)%nat ∧
    durable (conn w') = view (conn w') ∧
    disk w' = disk w.
Proof.
  intros d Hpid. eexists.
  split; [apply add_tag_to_photo_effect; by left|]. simpl. fold d.
  split; [apply tag_photo_links|].
  split; [intros pid' name'; apply tag_photo_keeps_links|].
  destruct (tag_photo_grows pid name d) as (? & ? & ? & ? & ?).
  repeat split; try done; lia.
Qed.

Lemma add_tag_to_photo_always_links_witness :
  ∃ w',
    add_tag_to_photo 7 "aerial" demo_world = (Returns tt, w') ∧
    linked 7 "aerial" (view (conn w')) ∧
    photos (view (conn w')) = [].
Proof.
  destruct (add_tag_to_photo_always_links 7 "aerial" demo_world)
    as (w' & Hrun & Hlinked & _ & _ & _ & Hphotos & _).
  - by_evaluation.
  - exists w'. split; [exact Hrun|]. split; [exact Hlinked | exact Hphotos].
Defined.

(** ** add_photo needs the category's directory *)

(** X9: add_photo does not create the directory it copies into. With the
    source file there, the robot known, nothing at the destination and no
    directory at photo_storage/<category in lower case, spaces as
    underscores>, the call raises FileNotFoundError or NotADirectoryError
    (NotADirectoryError when a regular file is at that path) and the world
    is as before: no file is written and no photo row inserted. *)
Theorem add_photo_needs_category_directory
    rid source_file ptype descr tag_names photog timestamp today w cname size :
  let d := view (conn w) in
  let dest := destination (photo_storage w) cname timestamp source_file in
  lookup_path source_file (disk w) = Some (File size) →
  select_robot_category rid d = Some cname →
  lookup_path dest (disk w) = None →
  ((∀ s, lookup_path (path_parent dest) (disk w) ≠ Some (Dir s)) →
     ∃ e,
       add_photo rid source_file ptype descr tag_names photog timestamp today w
       = (Raises e, w) ∧
       ((∃ msg, e = FileNotFoundError msg) ∨ (∃ msg, e = NotADirectoryError msg))) ∧
  (∀ s, lookup_path (path_parent dest) (disk w) = Some (File s) →
     ∃ msg,
       add_photo rid source_file ptype descr tag_names photog timestamp today w
       = (Raises (NotADirectoryError msg), w)).
Proof.
  intros d dest Hsrc Hsel Hdest.
  assert (Hrun : add_photo rid source_file ptype descr tag_names photog timestamp
                           today w
                 = match copy2 source_file dest w with
                   | (Raises e, w1) => (Raises e, w1)
                   | (Returns _, _) =>
                       add_photo rid source_file ptype descr tag_names photog
                                 timestamp today w
                   end).
  { destruct (copy2 source_file dest w) as [[[]|e] w1] eqn:Hcopy; [done|].
    unfold add_photo, mbind, py_bind, path_exists, query.
    rewrite Hsrc. rewrite bool_decide_eq_true_2 by eauto. cbn [negb].
    unfold bind_integer.
    rewrite bind_integer_of_ok
      by (right; by apply (select_robot_category_Some _ _ cname)).
    fold d. rewrite Hsel.
    fold (destination (photo_storage w) cname timestamp source_file). fold dest.
    by rewrite Hcopy. }
  split.
  - intros Hparent. rewrite Hrun. unfold copy2. rewrite Hsrc, Hdest.
    destruct (lookup_path (path_parent dest) (disk w)) as [[s|s]|] eqn:Hp.
    + eexists. split; [reflexivity|]. right. by eexists.
    + by destruct (Hparent s).
    + eexists. split; [reflexivity|]. left. by eexists.
  - intros s Hparent. eexists. rewrite Hrun. unfold copy2.
    rewrite Hsrc, Hdest, Hparent. reflexivity.
Qed.

Lemma add_photo_needs_category_directory_witness :
  ∃ e,
    add_photo 1 "uploads/x1.jpg" "general" None None None
              "20240501_101500" "2024-05-01" humanoid_world
    = (Raises e, humanoid_world) ∧
    ((∃ msg, e = FileNotFoundError msg) ∨ (∃ msg, e = NotADirectoryError msg)).
Proof.
  apply (add_photo_needs_category_directory
           1 "uploads/x1.jpg" "general" None None None
           "20240501_101500" "2024-05-01" humanoid_world "Humanoids" 200000).
  - vm_compute. reflexivity.
  - vm_compute. reflexivity.
  - vm_compute. reflexivity.
  - intros s. vm_compute. discriminate.
Defined.

(** ** The upload form: accepted file names *)

Lemma cut_last_None sep s :
  cut_last sep s = None ↔ contains_char sep s = false.
Proof.
  induction s as [|c s IH]; [done|]. simpl.
  destruct (cut_last sep s) as [[a b]|].
  - split; [done|]. intros [_ H]%orb_false_iff. by apply IH in H.
  - case_bool_decide; simpl; [done|]. split; [|done]. intros _. by apply IH.
Qed.

Lemma cut_last_Some sep s before after :
  cut_last sep s = Some (before, after) ↔
  s = before +:+ String sep after ∧ contains_char sep after = false.
Proof.
  revert before. induction s as [|c s IH]; intros before.
  - split; [done|]. intros [H _]. by destruct before.
  - simpl. destruct (cut_last sep s) as [[a b]|] eqn:Hcut.
    + split.
      * intros [= <- <-]. destruct (proj1 (IH a) eq_refl) as [-> Hb].
        by simpl_append.
      * intros [Heq Hafter]. destruct before as [|c' before']; simpl_append.
        -- injection Heq as -> ->.
           apply cut_last_None in Hafter. congruence.
        -- injection Heq as -> Heq.
           pose proof (proj2 (IH before') (conj Heq Hafter)) as Hcut'.
           by injection Hcut' as -> ->.
    + apply cut_last_None in Hcut. case_bool_decide as Hc.
      * subst c. split.
        -- intros [= <- <-]. by simpl_append.
        -- intros [Heq Hafter]. destruct before as [|c' before']; simpl_append.
           ++ by injection Heq as ->.
           ++ injection Heq as -> Heq. subst s.
              exfalso. clear -Hcut. induction before' as [|x l IHl]; simpl_append.
              ** simpl in Hcut. by rewrite bool_decide_eq_true_2 in Hcut.
              ** simpl in Hcut. apply orb_false_iff in Hcut as [_ Hcut]. auto.
      * split; [done|]. intros [Heq Hafter].
        destruct before as [|c' before']; simpl_append.
        -- by injection Heq as ->.
        -- injection Heq as -> Heq. subst s.
           exfalso. clear -Hcut. induction before' as [|x l IHl]; simpl_append.
           ++ simpl in Hcut. by rewrite bool_decide_eq_true_2 in Hcut.
           ++ simpl in Hcut. apply orb_false_iff in Hcut as [_ Hcut]. auto.
Qed.

(** X10: allowed_file accepts a name exactly when the text after its
    last dot, put in lower case, is one of jpg, jpeg, png, gif, webp: only
    the last extension counts, in any letter case, and a name without a dot
    is refused. *)
Theorem allowed_file_last_extension (filename : string) :
  allowed_file filename = true ↔
  ∃ stem extension,
    filename = stem +:+ "." +:+ extension ∧
    contains_char "." extension = false ∧
    py_lower extension ∈ ALLOWED_EXTENSIONS.
Proof.
  unfold allowed_file, rsplit1. split.
  - intros [Hdot Hext]%andb_true_iff.
    destruct (cut_last "." filename) as [[stem ext]|] eqn:Hcut; [|done].
    apply cut_last_Some in Hcut as [-> Hnodot]. simpl in Hext.
    apply bool_decide_eq_true in Hext. by exists stem, ext.
  - intros (stem & ext & -> & Hnodot & Hext).
    assert (Hcut : cut_last "." (stem +:+ "." +:+ ext) = Some (stem, ext))
      by by apply cut_last_Some.
    rewrite Hcut. simpl. rewrite (bool_decide_eq_true_2 _ Hext), andb_true_r.
    destruct (contains_char "." (stem +:+ "." +:+ ext)) eqn:Hc; [done|].
    apply cut_last_None in Hc. congruence.
Qed.

(** ** The upload form: tags *)

Lemma split_on_cons sep s : ∃ first rest, split_on sep s = first :: rest.
Proof.
  induction s as [|c s (first & rest & IH)]; [by eexists _, _|].
  simpl. case_bool_decide; [by eexists _, _|]. rewrite IH. by eexists _, _.
Qed.

Lemma split_on_no_sep sep s t :
  t ∈ split_on sep s → contains_char sep t = false.
Proof.
  revert t. induction s as [|c s IH]; intros t.
  - simpl. by intros ->%list_elem_of_singleton.
  - simpl. case_bool_decide as Hc.
    + intros [->|Hin]%elem_of_cons; [done|]. by apply IH.
    + destruct (split_on_cons sep s) as (first & rest & Hs).
      rewrite Hs in IH |- *.
      intros [->|Hin]%elem_of_cons.
      * simpl. rewrite bool_decide_eq_false_2 by done. apply IH. left.
      * apply IH. by right.
Qed.

Lemma contains_char_lstrip c s :
  contains_char c s = false → contains_char c (py_lstrip s) = false.
Proof.
  induction s as [|x s IH]; [done|]. simpl.
  intros [Hx Hs]%orb_false_iff. destruct (py_isspace x); [by apply IH|].
  simpl. by rewrite Hx, Hs.
Qed.

Lemma contains_char_rstrip c s :
  contains_char c s = false → contains_char c (py_rstrip s) = false.
Proof.
  induction s as [|x s IH]; [done|]. simpl.
  intros [Hx Hs]%orb_false_iff. specialize (IH Hs).
  destruct (py_rstrip s) as [|y r].
  - destruct (py_isspace x); [done|]. simpl. by rewrite Hx.
  - simpl. simpl in IH. by rewrite Hx, IH.
Qed.

Lemma py_rstrip_idem s : py_rstrip (py_rstrip s) = py_rstrip s.
Proof.
  induction s as [|x s IH]; [done|]. simpl.
  destruct (py_rstrip s) as [|y r] eqn:Hr.
  - destruct (py_isspace x) eqn:Hx; [done|]. simpl. by rewrite Hx.
  - simpl. simpl in IH. by rewrite IH.
Qed.

Lemma py_rstrip_lstrip s : py_rstrip s = s → py_rstrip (py_lstrip s) = py_lstrip s.
Proof.
  induction s as [|x s IH]; [done|]. intros Hs.
  assert (Htail : py_rstrip s = s).
  { simpl in Hs. destruct (py_rstrip s) as [|y r].
    - destruct (py_isspace x); [done|]. by injection Hs.
    - by injection Hs. }
  simpl. destruct (py_isspace x); [by apply IH|]. exact Hs.
Qed.

Lemma py_lstrip_idem s : py_lstrip (py_lstrip s) = py_lstrip s.
Proof.
  induction s as [|x s IH]; [done|]. simpl.
  destruct (py_isspace x) eqn:Hx; [done|]. simpl. by rewrite Hx.
Qed.

Lemma py_strip_idem s : py_strip (py_strip s) = py_strip s.
Proof.
  unfold py_strip.
  rewrite (py_rstrip_lstrip (py_rstrip s)) by apply py_rstrip_idem.
  apply py_lstrip_idem.
Qed.

(** X11: every tag upload_photo passes on from the form field is
    trimmed and not empty and holds no comma: the field is cut at the
    commas, each piece stripped of surrounding white space, and the pieces
    that are blank are dropped. *)
Theorem upload_photo_tags_trimmed (field : option string) (tag_names : list string)
    (t : string) :
  upload_photo_tags field = Some tag_names →
  t ∈ tag_names →
  t ≠ "" ∧ py_strip t = t ∧ contains_char "," t = false ∧
  ∃ s piece, field = Some s ∧ piece ∈ split_on "," s ∧ t = py_strip piece.
Proof.
  unfold upload_photo_tags, given_str.
  destruct field as [s|]; [|done].
  case_bool_decide; [done|].
  destruct (split_on_cons "," s) as (first & rest & Hs). rewrite Hs. simpl.
  intros [= <-] (piece & -> & Hpiece)%list_elem_of_fmap.
  apply list_elem_of_filter in Hpiece as [Hne Hpiece]. rewrite <- Hs in Hpiece.
  split; [done|]. split; [apply py_strip_idem|]. split.
  - apply contains_char_lstrip, contains_char_rstrip.
    by apply (split_on_no_sep "," s).
  - by exists s, piece.
Qed.

Lemma upload_photo_tags_trimmed_witness :
  upload_photo_tags (Some " aerial, ,4k ") = Some ["aerial"; "4k"] ∧
  py_strip "4k" = "4k".
Proof.
  assert (Hrun : upload_photo_tags (Some " aerial, ,4k ") = Some ["aerial"; "4k"])
    by (vm_compute; reflexivity).
  split; [exact Hrun|].
  destruct (upload_photo_tags_trimmed (Some " aerial, ,4k ") ["aerial"; "4k"] "4k")
    as (_ & Hstrip & _).
  - exact Hrun.
  - by_evaluation.
  - exact Hstrip.
Defined.

(** ** The storage tree: __init__, add_photo and serve_photo *)


Lemma contains_char_app c (a b : string) :
  contains_char c (a +:+ b) = contains_char c a || contains_char c b.
Proof.
  induction a as [|x a IH]; [done|]. rewrite append_cons. simpl.
  by rewrite IH, orb_assoc.
Qed.









Lemma mkdir_exist_ok_ready p w :
  is_dir p (disk w) = true → mkdir_exist_ok p w = (Returns tt, w).
Proof.
  unfold is_dir, mkdir_exist_ok. by destruct (lookup_path p (disk w)) as [[s|s]|].
Qed.


Lemma for_each_fmap {A B} (f : A → B) (body : B → py unit) (l : list A) :
  for_each l (λ x, body (f x)) = for_each (f <$> l) body.
Proof. induction l as [|x l IH]; [done|]. simpl. by rewrite IH. Qed.


Lemma for_each_mkdir_ready (paths : list string) w :
  Forall (λ p, is_dir p (disk w) = true) paths →
  for_each paths mkdir_exist_ok w = (Returns tt, w).
Proof.
  induction 1 as [|p paths Hp _ IH]; [done|].
  simpl. unfold mbind, py_bind. by rewrite (mkdir_exist_ok_ready _ _ Hp).
Qed.

Lemma init_ready storage w :
  storage_ready storage (disk w) → init storage w = (Returns tt, w).
Proof.
  intros Hready. unfold init. rewrite for_each_fmap.
  exact (for_each_mkdir_ready _ _ Hready).
Qed.





Lemma serve_photo_ready pid w :
  storage_ready "photo_storage" (disk w) →
  bindable (photo_id <$> photos (durable (conn w))) pid →
  serve_photo pid w
  = match select_file_path pid (durable (conn w)) with
    | Some path =>
        match lookup_path path (disk w) with
        | Some (File size) => (Returns (SendFile path size "image/jpeg"), w)
        | Some (Dir _) => (Raises (OSError ("Is a directory: " +:+ path)), w)
        | None => (Returns NotFound, w)
        end
    | None => (Returns NotFound, w)
    end.
Proof.
  intros Hready Hpid. unfold serve_photo, mbind, py_bind.
  rewrite (init_ready _ _ Hready).
  rewrite bind_integer_of_ok by done.
  destruct (select_file_path pid (durable (conn w))) as [path|]; [|done].
  unfold path_exists, send_file, raise.
  destruct (lookup_path path (disk w)) as [[s|s]|] eqn:Hpath; simpl.
  all: try rewrite Hpath. all: try done.
Qed.



(** X14: with the storage tree in place and a photo_id in the 64-bit
    range, serve_photo answers 404 exactly when no committed photo row has
    the photo_id or nothing is at the file_path of the first such row; it
    reads the committed tables, so a row that is not yet committed is not
    served. In every case the world is left as it was. *)
Theorem serve_photo_not_found (pid : Z) (w : world) :
  storage_ready "photo_storage" (disk w) →
  sqlite_integer pid →
  (∃ o, serve_photo pid w = (o, w)) ∧
  (serve_photo pid w = (Returns NotFound, w) ↔
   ∀ path, select_file_path pid (durable (conn w)) = Some path →
           lookup_path path (disk w) = None) ∧
  (pid ∉ photo_id <$> photos (durable (conn w)) →
   serve_photo pid w = (Returns NotFound, w)).
Proof.
  intros Hready Hpid.
  rewrite (serve_photo_ready _ _ Hready (integer_is_bindable _ _ Hpid)).
  split; [|split].
  - destruct (select_file_path pid (durable (conn w))) as [path|]; [|eauto].
    destruct (lookup_path path (disk w)) as [[s|s]|]; eauto.
  - destruct (select_file_path pid (durable (conn w))) as [path|]; [|done].
    destruct (lookup_path path (disk w)) as [[s|s]|] eqn:Hpath.
    + split; [done|]. intros Hall. specialize (Hall path eq_refl). congruence.
    + split; [done|]. intros Hall. specialize (Hall path eq_refl). congruence.
    + split; [|done]. by intros _ path' [= <-].
  - intros Hmissing. unfold select_file_path.
    by rewrite (filter_key_absent photo_id _ pid Hmissing).
Qed.

Lemma serve_photo_not_found_witness :
  serve_photo 7 demo_world = (Returns NotFound, demo_world).
Proof.
  destruct (serve_photo_not_found 7 demo_world) as (_ & _ & Hmissing).
  - by_evaluation.
  - by_evaluation.
  - apply Hmissing. by_evaluation.
Defined.

(** ** search_photos: the tag filter *)

Lemma where_clauses_tags categ manuf model (names : list string) d p r rc :
  names ≠ [] →
  forallb (λ clause, clause p r rc) (where_clauses categ manuf model (Some names) d)
  = forallb (λ clause, clause p r rc) (where_clauses categ manuf model None d)
    && bool_decide (photo_id p ∈ tagged_photo_ids names d).
Proof.
  intros Hnames. unfold where_clauses.
  destruct names as [|t ts]; [done|]. simpl given_list. cbv iota.
  rewrite !app_nil_r, !app_assoc, forallb_app. simpl. by rewrite andb_true_r.
Qed.

(** X15: the tag filter of search_photos keeps the rows whose photo
    carries at least one of the given tags (any of them, not all of them);
    the other filters apply as they do without it. *)
Theorem search_photos_any_tag
    (categ manuf model : option string) (t : string) (ts : list string) (w : world) :
  let d := view (conn w) in
  ∃ rows others,
    search_photos categ manuf model (Some (t :: ts)) w = (Returns rows, w) ∧
    search_photos categ manuf model None w = (Returns others, w) ∧
    ∀ row,
      row ∈ rows ↔
      row ∈ others ∧ ∃ name, name ∈ t :: ts ∧ linked (row_photo_id row) name d.
Proof.
  intros d. eexists _, _. split; [reflexivity|]. split; [reflexivity|]. fold d.
  intros row. rewrite !elem_of_select_photos. split.
  - intros (p & r & rc & Hp & Hr & Hrid & Hrc & Hcid & Hwhere & ->).
    rewrite where_clauses_tags in Hwhere by done.
    apply andb_true_iff in Hwhere as [Hwhere Htag].
    apply bool_decide_eq_true, elem_of_tagged_photo_ids in Htag.
    split; [|exact Htag]. by exists p, r, rc.
  - intros [(p & r & rc & Hp & Hr & Hrid & Hrc & Hcid & Hwhere & ->) Htag].
    exists p, r, rc. repeat split; try done.
    rewrite where_clauses_tags, Hwhere by done. simpl.
    by apply bool_decide_eq_true, elem_of_tagged_photo_ids.
Qed.

(** ** list_all_robots after add_photo *)

Lemma robot_rows_iff d row :
  schema_ok d → references_ok d →
  row ∈ group_by_robot (robots_categories_photos d) ↔
  ∃ r rc,
    r ∈ robots d ∧ rc ∈ robot_categories d ∧
    category_id rc = robot_category_id r ∧
    row = make_summary r rc
            (length (filter (λ p, photo_robot_id p = robot_id r) (photos d))).
Proof.
  intros Hschema Hrefs.
  destruct (robot_rows d Hschema Hrefs) as [Hids Hrows].
  split; [apply Hrows|].
  intros (r & rc & Hr & Hrc & Hcid & ->).
  destruct Hschema as (Hcats & Hrobots & _).
  assert (Hid : robot_id r ∈ sum_robot_id <$> group_by_robot (robots_categories_photos d)).
  { rewrite Hids. apply list_elem_of_fmap. by exists r. }
  apply list_elem_of_fmap in Hid as (row0 & Hid & Hrow0).
  destruct (Hrows row0 Hrow0) as (r0 & rc0 & Hr0 & Hrc0 & Hcid0 & ->).
  simpl in Hid.
  assert (r0 = r) as -> by by apply (key_determines_row robot_id (robots d)).
  assert (rc0 = rc) as ->.
  { apply (key_determines_row category_id (robot_categories d)); [done..|].
    congruence. }
  done.
Qed.

(** X16: a photo add_photo has stored shows in list_all_robots as one
    more photo of its robot and of no other. With invariants holding
    before the call, the rows after it are the rows before it with the
    photo_count of the robot of the call raised by one. *)
Theorem add_photo_counts_in_list_all_robots
    rid source_file ptype descr tag_names photog timestamp today w pid w' :
  world_ok w →
  add_photo rid source_file ptype descr tag_names photog timestamp today w
  = (Returns pid, w') →
  ∃ rows rows',
    list_all_robots w = (Returns rows, w) ∧
    list_all_robots w' = (Returns rows', w') ∧
    length rows' = length rows ∧
    ∀ row',
      row' ∈ rows' ↔
      ∃ row, row ∈ rows ∧
        row' = RobotSummary
                 (sum_robot_id row) (sum_manufacturer row) (sum_model_name row)
                 (sum_robot_type row) (sum_year_released row)
                 (sum_category_name row)
                 (if decide (sum_robot_id row = rid)
                  then S (photo_count row) else photo_count row).
Proof.
  intros Hok Hrun.
  pose proof (add_photo_keeps_invariants _ _ _ _ _ _ _ _ _ _ _ Hok Hrun) as Hok'.
  destruct Hok as [Hschema Hrefs]. destruct Hok' as [Hschema' Hrefs'].
  destruct (add_photo_returns _ _ _ _ _ _ _ _ _ _ _ Hrun)
    as (cname & w1 & n & _ & _ & _ & _ & Hview & _).
  simpl in Hview.
  match type of Hview with
  | _ = tag_photo_all ?i ?l (insert_photo ?p0 ?d0) =>
      destruct (tag_photo_all_tables i l (insert_photo p0 d0)) as (Hc & Hr & Hp);
      set (p := p0) in *
  end.
  rewrite <- Hview in Hc, Hr, Hp. simpl in Hc, Hr, Hp.
  set (d := view (conn w)) in *. set (d' := view (conn w')) in *.
  assert (Hcount : ∀ r,
            length (filter (λ q, photo_robot_id q = robot_id r) (photos d'))
            = if decide (robot_id r = rid)
              then S (length (filter (λ q, photo_robot_id q = robot_id r) (photos d)))
              else length (filter (λ q, photo_robot_id q = robot_id r) (photos d))).
  { intros r. rewrite Hp, filter_app, length_app, filter_cons. simpl.
    destruct (decide (rid = robot_id r)) as [Heq|Hne].
    - rewrite decide_True by done. simpl. lia.
    - rewrite decide_False by congruence. simpl. lia. }
  eexists _, _. split; [reflexivity|]. split; [reflexivity|]. fold d d'.
  split.
  { destruct (robot_rows d Hschema Hrefs) as [Hids _].
    destruct (robot_rows d' Hschema' Hrefs') as [Hids' _].
    rewrite !merge_sort_Permutation.
    rewrite <- (length_fmap sum_robot_id), Hids', Hr, <- Hids.
    apply length_fmap. }
  intros row'. rewrite merge_sort_Permutation.
  rewrite (robot_rows_iff d' row' Hschema' Hrefs'). split.
  - intros (r & rc & Hr' & Hrc' & Hcid & ->).
    rewrite Hr in Hr'. rewrite Hc in Hrc'.
    exists (make_summary r rc
              (length (filter (λ q, photo_robot_id q = robot_id r) (photos d)))).
    split.
    + rewrite merge_sort_Permutation. apply robot_rows_iff; [done..|].
      by exists r, rc.
    + unfold make_summary. simpl. by rewrite Hcount.
  - intros (row & Hrow & ->). rewrite merge_sort_Permutation in Hrow.
    apply robot_rows_iff in Hrow as (r & rc & Hr0 & Hrc0 & Hcid & ->); [|done..].
    exists r, rc. rewrite Hr, Hc. repeat split; try done.
    unfold make_summary. simpl. by rewrite Hcount.
Qed.

Lemma add_photo_counts_in_list_all_robots_witness :
  ∃ rows rows',
    list_all_robots demo_world = (Returns rows, demo_world) ∧
    list_all_robots demo_world_with_photo = (Returns rows', demo_world_with_photo) ∧
    length rows' = length rows.
Proof.
  destruct (add_photo_counts_in_list_all_robots
              1 "uploads/x1.jpg" "general" None (Some ["aerial"; "4k"]) None
              "20240501_101500" "2024-05-01" demo_world 1 demo_world_with_photo)
    as (rows & rows' & Hrows & Hrows' & Hlen & _).
  - by_evaluation.
  - vm_compute. reflexivity.
  - by exists rows, rows'.
Defined.

(** ** get_statistics: what by_category counts *)

Lemma length_filter_indicator {A} (P : A → Prop) `{∀ x, Decision (P x)} (l : list A) :
  length (filter P l) = sum_list_with (λ x, if decide (P x) then 1%nat else 0%nat) l.
Proof.
  induction l as [|x l IH]; [done|]. rewrite length_filter_cons, IH. done.
Qed.

Lemma photo_in_category_iff d name p :
  photo_in_category d name p ↔
  ∃ r rc,
    r ∈ robots d ∧ robot_id r = photo_robot_id p ∧
    rc ∈ robot_categories d ∧ category_id rc = robot_category_id r ∧
    category_name rc = name.
Proof.
  unfold photo_in_category. rewrite Exists_exists. split.
  - intros (r & Hr & Hid & (rc & Hrc & Hcid & Hname)%Exists_exists).
    by exists r, rc.
  - intros (r & rc & Hr & Hid & Hrc & Hcid & Hname).
    exists r. split; [done|]. split; [done|].
    apply Exists_exists. by exists rc.
Qed.

(** The photos a robot contributes to the count of a category name. *)
Lemma robot_in_category_count d name r :
  NoDup (category_id <$> robot_categories d) →
  length (filter (λ rc, robot_category_id r = category_id rc)
            (filter (λ rc, category_name rc = name) (robot_categories d)))
  = if decide (Exists (λ rc, category_id rc = robot_category_id r ∧
                             category_name rc = name) (robot_categories d))
    then 1%nat else 0%nat.
Proof.
  intros Hcats. rewrite list_filter_filter.
  destruct (decide (robot_category_id r ∈ category_id <$> robot_categories d))
    as [(rc0 & Hcid & Hrc0)%list_elem_of_fmap | Hout].
  - trans (length (filter (λ rc, category_name rc = name)
                     (filter (λ rc, category_id rc0 = category_id rc)
                             (robot_categories d)))).
    { rewrite list_filter_filter. f_equal. apply list_filter_iff.
      intros rc. rewrite Hcid. tauto. }
    rewrite (filter_key_singleton_flip category_id _ rc0 Hcats Hrc0).
    rewrite filter_cons, filter_nil.
    destruct (decide (category_name rc0 = name)) as [Hname|Hname].
    + rewrite decide_True; [done|]. apply Exists_exists. by exists rc0.
    + rewrite decide_False; [done|].
      intros (rc & Hrc & Hcid' & Hname')%Exists_exists. apply Hname.
      rewrite <- Hname'. f_equal. symmetry.
      apply (key_determines_row category_id (robot_categories d)); [done..|].
      congruence.
  - rewrite filter_none.
    + rewrite decide_False; [done|].
      intros (rc & Hrc & Hcid & _)%Exists_exists. apply Hout.
      apply list_elem_of_fmap. by exists rc.
    + apply Forall_forall. intros rc Hrc [Hcid _]. apply Hout.
      apply list_elem_of_fmap. by exists rc.
Qed.

Lemma by_category_count d name :
  NoDup (category_id <$> robot_categories d) →
  NoDup (robot_id <$> robots d) →
  length (filter (λ j, category_name j.1.1 = name ∧ is_Some j.2)
            (categories_robots_photos d))
  = length (filter (photo_in_category d name) (photos d)).
Proof.
  intros Hcats Hrobots.
  set (h := λ r, length (filter (λ p, photo_robot_id p = robot_id r) (photos d))).
  set (c := λ r, length (filter (λ rc, robot_category_id r = category_id rc)
                           (filter (λ rc, category_name rc = name)
                                   (robot_categories d)))).
  trans (sum_list_with (λ r, length (filter (λ p, photo_robot_id p = robot_id r)
                                       (photos d)) * c r)%nat (robots d)).
  { trans (length (filter (λ j : category * option robot * option photo, is_Some j.2)
                     (filter (λ j, category_name j.1.1 = name)
                             (categories_robots_photos d)))).
    { rewrite list_filter_filter. f_equal. apply list_filter_iff. intros j. tauto. }
    unfold categories_robots_photos.
    pose proof (left_join_filter
                  (λ a : category * option robot, category_name a.1 = name)
                  (λ j : category * option robot,
                     match j.2 with
                     | Some r => filter (λ p, photo_robot_id p = robot_id r) (photos d)
                     | None => []
                     end)
                  (left_join (robot_categories d)
                     (λ rc, filter (λ r, robot_category_id r = category_id rc)
                                   (robots d)))) as Hf1.
    cbv beta in Hf1. rewrite Hf1. clear Hf1.
    pose proof (left_join_filter
                  (λ rc : category, category_name rc = name)
                  (λ rc, filter (λ r, robot_category_id r = category_id rc) (robots d))
                  (robot_categories d)) as Hf2.
    cbv beta in Hf2. rewrite Hf2. clear Hf2.
    rewrite left_join_matched.
    etrans.
    { apply sum_list_with_agree, Forall_forall. intros j _.
      instantiate (1 := λ j, match j.2 with Some r => h r | None => 0%nat end).
      simpl. by destruct (j.2). }
    rewrite left_join_sum.
    rewrite (sum_over_matches_swap
               (λ rc r, robot_category_id r = category_id rc) h).
    apply sum_list_with_agree, Forall_forall. intros r _. unfold h, c. lia. }
  rewrite <- (sum_over_matches_swap
                (λ p r, photo_robot_id p = robot_id r) c (photos d) (robots d)).
  rewrite length_filter_indicator.
  apply sum_list_with_agree, Forall_forall. intros p Hp.
  destruct (decide (photo_robot_id p ∈ robot_id <$> robots d))
    as [(r0 & Hrid & Hr0)%list_elem_of_fmap | Hout].
  - rewrite Hrid, (filter_key_singleton_flip robot_id _ r0 Hrobots Hr0).
    simpl. unfold c. rewrite (robot_in_category_count d name r0 Hcats).
    rewrite Nat.add_0_r.
    destruct (decide (Exists _ (robot_categories d))) as [Hin|Hnin].
    + rewrite decide_True; [done|]. apply Exists_exists. by exists r0.
    + rewrite decide_False; [done|].
      intros (r & Hr & Hid & Hrc)%Exists_exists. apply Hnin.
      assert (r = r0) as ->; [|done].
      apply (key_determines_row robot_id (robots d)); [done..|]. congruence.
  - rewrite filter_none.
    + rewrite decide_False; [done|].
      intros (r & Hr & Hid & _)%Exists_exists. apply Hout.
      apply list_elem_of_fmap. by exists r.
    + apply Forall_forall. intros r Hr Hid. apply Hout.
      apply list_elem_of_fmap. by exists r.
Qed.

Lemma photos_by_category_names d name :
  name ∈ (photos_by_category d).*1 → name ∈ category_name <$> robot_categories d.
Proof.
  rewrite photos_by_category_keys, elem_of_remove_dups.
  intros ([[rc r] p] & -> & Hj)%list_elem_of_fmap. simpl.
  apply left_join_fst, left_join_fst in Hj.
  apply list_elem_of_fmap. by exists rc.
Qed.

(** X17: what by_category counts. When identifiers are keys, the entry
    of a category's name is the number of photos whose robot is in a
    category of that name, and the dictionary has no entry for a name that
    no category carries. *)
Theorem get_statistics_by_category_counts (w : world) :
  let d := view (conn w) in
  schema_ok d →
  ∃ s,
    get_statistics w = (Returns s, w) ∧
    (∀ rc, rc ∈ robot_categories d →
       by_category s !! category_name rc
       = Some (length (filter (photo_in_category d (category_name rc)) (photos d)))) ∧
    (∀ name, name ∉ category_name <$> robot_categories d →
       by_category s !! name = None).
Proof.
  intros d (Hcats & Hrobots & _). eexists. split; [reflexivity|]. simpl. fold d.
  assert (Hkeys : NoDup ((photos_by_category d).*1)).
  { rewrite photos_by_category_keys. apply NoDup_remove_dups. }
  split.
  - intros rc Hrc. rewrite <- (by_category_count d _ Hcats Hrobots).
    apply (dict_of_rows_lookup _ _ _ Hkeys), photos_by_category_entry, Hrc.
  - intros name Hname. rewrite dict_of_rows_list_to_map.
    apply not_elem_of_list_to_map_1. rewrite fmap_reverse, elem_of_reverse.
    intros Hin. by apply Hname, photos_by_category_names.
Qed.

Lemma get_statistics_by_category_counts_witness :
  ∃ s,
    get_statistics demo_world_with_photo = (Returns s, demo_world_with_photo) ∧
    by_category s !! "Drones" = Some 1%nat ∧
    by_category s !! "Humanoids" = None.
Proof.
  destruct (get_statistics_by_category_counts demo_world_with_photo)
    as (s & Hrun & Hcount & Hnone).
  - by_evaluation.
  - exists s. split; [exact Hrun|]. split.
    + apply (Hcount (Category 1 "Drones")). by_evaluation.
    + apply Hnone. by_evaluation.
Defined.

(** ** Product images *)

Lemma pad_to_four_cons (u : string) (rest : list string) :
  pad_to_four (u :: rest)
  = Some ((u :: rest) ++ replicate (4 - length (u :: rest)) u)%list.
Proof.
  remember (4 - length (u :: rest))%nat as n eqn:Hn. revert rest Hn.
  induction n as [|n IH]; intros rest Hn.
  - rewrite pad_to_four_equation.
    destruct (Nat.ltb_spec (length (u :: rest)) 4); [simpl in *; lia|].
    by rewrite app_nil_r.
  - rewrite pad_to_four_equation.
    destruct (Nat.ltb_spec (length (u :: rest)) 4); [|simpl in *; lia].
    rewrite (IH (rest ++ [u])%list).
    + simpl. by rewrite <- app_assoc.
    + simpl in *. rewrite length_app. simpl. lia.
Qed.

Lemma take_padded (u : string) (rest : list string) :
  take 4 ((u :: rest) ++ replicate (4 - length (u :: rest)) u)%list
  = take 4 ((u :: rest) ++ replicate 3 u)%list.
Proof. by destruct rest as [|a [|b [|c rest]]]. Qed.

(** X18: a product always gets exactly four images, and 'image' is the
    first of them: the padding loop ends and never indexes an empty list.
    Without photo URLs the four are the placeholder; otherwise they are the
    first four of the URLs followed by copies of the first URL. *)
Theorem product_images_four (urls : list string) (manuf model : string) :
  ∃ image images,
    product_images urls manuf model = Some (image, images) ∧
    length images = 4%nat ∧
    head images = Some image ∧
    match urls with
    | [] => images = replicate 4 (placeholder_url manuf model)
    | u :: _ => images = take 4 (urls ++ replicate 3 u)%list
    end.
Proof.
  unfold product_images. destruct urls as [|u rest].
  - rewrite pad_to_four_cons. by eexists _, _.
  - rewrite pad_to_four_cons.
    exists u, (take 4 ((u :: rest) ++ replicate 3 u)%list).
    split; [by rewrite <- take_padded|].
    split; [|done].
    rewrite length_take, length_app, length_replicate. cbn [length]. lia.
Qed.

(** ** Content types *)

Lemma map_string_app f (a b : string) :
  map_string f (a +:+ b) = map_string f a +:+ map_string f b.
Proof. induction a as [|c a IH]; [done|]. rewrite append_cons. simpl. by rewrite IH. Qed.

Lemma py_lower_char_dot c : py_lower_char c = "."%char ↔ c = "."%char.
Proof.
  split; [|by intros ->].
  destruct c as [[] [] [] [] [] [] [] []]; vm_compute; congruence.
Qed.

Lemma contains_dot_lower s :
  contains_char "." (py_lower s) = contains_char "." s.
Proof.
  induction s as [|c s IH]; [done|]. unfold py_lower in *. simpl. rewrite IH. f_equal.
  apply bool_decide_ext, py_lower_char_dot.
Qed.

Lemma ends_with_no_dot suffix s :
  contains_char "." s = false → ends_with (String "." suffix) s = false.
Proof.
  induction s as [|c s IH]; [done|]. simpl.
  intros [Hc Hs]%orb_false_iff. rewrite (IH Hs), orb_false_r.
  apply bool_decide_eq_false. intros [= -> _].
  by rewrite bool_decide_eq_true_2 in Hc.
Qed.

Lemma ends_with_extension suffix stem ext :
  contains_char "." suffix = false → contains_char "." ext = false →
  ends_with (String "." suffix) (stem +:+ String "." ext) = bool_decide (ext = suffix).
Proof.
  intros Hsuffix Hext. induction stem as [|c stem IH].
  - rewrite append_nil_l. simpl. rewrite (ends_with_no_dot _ _ Hext), orb_false_r.
    apply bool_decide_ext. split; congruence.
  - rewrite append_cons. simpl. rewrite IH.
    rewrite bool_decide_eq_false_2; [done|].
    intros [= _ Heq]. apply (f_equal (contains_char ".")) in Heq.
    rewrite contains_char_app, Hsuffix in Heq. simpl in Heq.
    by rewrite orb_true_r in Heq.
Qed.

(** X19: for every file name allowed_file accepts, upload_photos gives
    the S3 object the content type of the name's last extension:
    image/png, image/webp and image/gif for those extensions in any letter
    case, image/jpeg for jpg and jpeg. *)
Theorem content_type_of_allowed_file (file_name : string) :
  allowed_file file_name = true →
  ∃ stem extension,
    file_name = stem +:+ "." +:+ extension ∧
    py_lower extension ∈ ALLOWED_EXTENSIONS ∧
    content_type file_name
    = if bool_decide (py_lower extension = "jpg") then "image/jpeg"
      else "image/" +:+ py_lower extension.
Proof.
  unfold allowed_file, rsplit1.
  intros [Hdot Hext]%andb_true_iff.
  destruct (cut_last "." file_name) as [[stem ext]|] eqn:Hcut; [|done].
  apply cut_last_Some in Hcut as [-> Hnodot]. simpl in Hext.
  apply bool_decide_eq_true in Hext.
  exists stem, ext. split; [done|]. split; [done|].
  unfold content_type, py_lower. rewrite map_string_app.
  change (map_string py_lower_char (String "." ext))
    with (String "." (py_lower ext)).
  fold py_lower.
  rewrite !ends_with_extension by (by rewrite ?contains_dot_lower).
  unfold ALLOWED_EXTENSIONS in Hext.
  repeat (apply elem_of_cons in Hext as [->|Hext]; [done|]).
  by apply elem_of_nil in Hext.
Qed.

Lemma content_type_of_allowed_file_witness :
  content_type "20240501_101500_x1.final.PNG" = "image/png".
Proof.
  destruct (content_type_of_allowed_file "20240501_101500_x1.final.PNG")
    as (stem & ext & Hname & _ & Htype).
  - vm_compute. reflexivity.
  - vm_compute. reflexivity.
Defined.

(** ** search_photos: wildcards in the filter value *)

Lemma sql_like_all_percent (p t : string) :
  all_percent p = true → sql_like (String "%" p) t = true.
Proof.
  revert t. induction p as [|c p IH]; intros t Hp.
  - apply sql_like_percent_all.
  - simpl in Hp. apply andb_true_iff in Hp as [Hc Hp].
    apply bool_decide_eq_true in Hc. subst c.
    apply sql_like_percent_iff. exists "", t. split; [done|]. by apply IH.
Qed.

Lemma all_percent_app (a b : string) :
  all_percent (a +:+ b) = all_percent a && all_percent b.
Proof.
  induction a as [|c a IH]; [done|]. rewrite append_cons. simpl.
  by rewrite IH, andb_assoc.
Qed.

Lemma select_photos_ext clauses clauses' d :
  (∀ p r rc, forallb (λ clause, clause p r rc) clauses
             = forallb (λ clause, clause p r rc) clauses') →
  select_photos clauses d = select_photos clauses' d.
Proof.
  intros Hext. unfold select_photos.
  apply list_bind_ext; [|done]. intros p.
  apply list_bind_ext; [|done]. intros r.
  apply list_bind_ext; [|done]. intros rc. by rewrite Hext.
Qed.

(** X21: the wildcards of LIKE are not escaped in the manufacturer and
    model filters: a filter value made of "%" characters only matches every
    manufacturer (or model), so the search returns what it returns without
    that filter. *)
Theorem search_photos_percent_filter
    (categ other : option string) (tag_names : option (list string))
    (m : string) (w : world) :
  m ≠ "" → all_percent m = true →
  search_photos categ (Some m) other tag_names w
  = search_photos categ None other tag_names w ∧
  search_photos categ other (Some m) tag_names w
  = search_photos categ other None tag_names w.
Proof.
  intros Hm Hall.
  assert (Hlike : ∀ t, sql_like ("%" +:+ m +:+ "%") t = true).
  { intros t. change ("%" +:+ m +:+ "%") with (String "%" (m +:+ "%")).
    apply sql_like_all_percent. by rewrite all_percent_app, Hall. }
  unfold search_photos, query. split; f_equal; f_equal; apply select_photos_ext;
    intros p r rc.
  - by rewrite where_clauses_manufacturer, Hlike.
  - by rewrite where_clauses_model, Hlike.
Qed.

Lemma search_photos_percent_filter_witness :
  search_photos None (Some "%") None None demo_world_with_photo
  = search_photos None None None None demo_world_with_photo.
Proof.
  destruct (search_photos_percent_filter None None None "%" demo_world_with_photo)
    as [Hmanuf _]; [done|done|exact Hmanuf].
Defined.

(** ** add_photo: how often it commits *)

Lemma add_photo_commits_once_without_tags
    rid source_file ptype descr tag_names photog timestamp today w pid w' :
  tags_given tag_names = [] →
  add_photo rid source_file ptype descr tag_names photog timestamp today w
  = (Returns pid, w') →
  length (journal (conn w')) = S (length (journal (conn w))).
Proof.
  intros Hnone.
  unfold add_photo, mbind, py_bind, path_exists, query.
  destruct (negb _); [done|].
  destruct (bind_integer stored_robot_ids rid w) as [[[]|e] w0] eqn:Hbind; [|done].
  apply bind_integer_keeps_world in Hbind. subst w0.
  destruct (select_robot_category rid (view (conn w))) as [cname|]; [|done].
  match goal with
  | |- context [copy2 ?s ?d ?w0] =>
      destruct (copy2 s d w0) as [[[]|e] w1] eqn:Hcopy
  end; [|done].
  match goal with
  | |- context [st_size ?d ?w0] =>
      destruct (st_size d w0) as [[size|e] w2] eqn:Hsize
  end; [|done].
  assert (Hw2 : conn w2 = conn w).
  { unfold st_size in Hsize. destruct (lookup_path _ (disk w1)); [|done].
    injection Hsize as _ <-.
    by destruct (copy2_keeps_connection _ _ _ _ _ Hcopy). }
  unfold dml, with_conn, commit, with_conn.
  destruct tag_names as [[|t ts]|]; [|done|];
    simpl; intros [= _ <-]; simpl; by rewrite Hw2.
Qed.

(** X22: a call of add_photo that returns has committed once when it
    was given no tags ([None] or the empty list) and once per tag
    otherwise: each add_tag_to_photo commits, and the commit at the end of
    add_photo then finds nothing pending. *)
Theorem add_photo_commit_count
    rid source_file ptype descr tag_names photog timestamp today w pid w' :
  add_photo rid source_file ptype descr tag_names photog timestamp today w
  = (Returns pid, w') →
  length (journal (conn w'))
  = (length (journal (conn w)) + Nat.max 1 (length (tags_given tag_names)))%nat.
Proof.
  intros Hrun. destruct tag_names as [[|t ts]|].
  - rewrite (add_photo_commits_once_without_tags
               rid source_file ptype descr (Some []) photog timestamp today w pid w'
               eq_refl Hrun).
    simpl. lia.
  - rewrite (add_photo_one_commit_per_tag _ _ _ _ _ _ _ _ _ _ _ _ Hrun).
    simpl. lia.
  - rewrite (add_photo_commits_once_without_tags
               rid source_file ptype descr None photog timestamp today w pid w'
               eq_refl Hrun).
    simpl. lia.
Qed.

Lemma add_photo_commit_count_witness :
  length (journal (conn demo_world_with_photo)) = 2%nat.
Proof.
  apply (add_photo_commit_count 1 "uploads/x1.jpg" "general" None
           (Some ["aerial"; "4k"]) None "20240501_101500" "2024-05-01"
           demo_world 1 demo_world_with_photo).
  vm_compute. reflexivity.
Defined.

(** ** The routes that read *)

Lemma with_new_database_ready {A} (reads : py A) w :
  storage_ready "photo_storage" (disk w) →
  with_new_database reads w
  = ((reads (World "photo_storage" (fresh_connection (durable (conn w))) (disk w))).1,
     w).
Proof.
  intros Hready. unfold with_new_database, mbind, py_bind.
  by rewrite (init_ready _ _ Hready).
Qed.

Lemma bind_query {A B} (q : db → A) (k : A → py B) w :
  (x ← query q; k x) w = k (q (view (conn w))) w.
Proof. reflexivity. Qed.

Lemma map_py_reads {A B} (f : A → py B) (g : A → world → B) (l : list A) w :
  (∀ x w0, f x w0 = (Returns (g x w0), w0)) →
  map_py f l w = (Returns ((λ x, g x w) <$> l), w).
Proof.
  intros Hf. induction l as [|x l IH]; [done|].
  cbn [map_py]. unfold mbind, py_bind. by rewrite Hf, IH.
Qed.

Lemma get_robots_ready w :
  let d := durable (conn w) in
  storage_ready "photo_storage" (disk w) →
  get_robots w
  = (Returns ((λ robot, RobotWithPhotos robot
                          (select_robot_photos (sum_robot_id robot) d))
              <$> merge_sort summary_le (group_by_robot (robots_categories_photos d))),
     w).
Proof.
  intros d Hready. unfold get_robots.
  rewrite (with_new_database_ready _ _ Hready). f_equal.
  unfold list_all_robots. rewrite bind_query.
  by rewrite (map_py_reads _ (λ robot w0,
                RobotWithPhotos robot
                  (select_robot_photos (sum_robot_id robot) (view (conn w0))))).
Qed.

(** X23: in the answer of get_robots the photo_count of a robot is the
    number of entries of its photos list, and these are the committed
    photos of that robot. This needs identifiers to be keys and the
    references to resolve in the committed tables; the storage tree is in
    place, and the route changes nothing. *)
Theorem get_robots_counts_match (w : world) :
  let d := durable (conn w) in
  storage_ready "photo_storage" (disk w) →
  schema_ok d → references_ok d →
  ∃ entries,
    get_robots w = (Returns entries, w) ∧
    length entries = length (robots d) ∧
    ∀ entry, entry ∈ entries →
      photo_count (rwp_robot entry) = length (rwp_photos entry) ∧
      rwp_photos entry
      = select_robot_photos (sum_robot_id (rwp_robot entry)) d.
Proof.
  intros d Hready Hschema Hrefs. rewrite (get_robots_ready _ Hready). fold d.
  eexists. split; [reflexivity|].
  destruct (robot_rows d Hschema Hrefs) as [Hids Hrows].
  split.
  - rewrite length_fmap, merge_sort_Permutation.
    rewrite <- (length_fmap sum_robot_id), Hids. apply length_fmap.
  - intros entry (row & -> & Hrow)%list_elem_of_fmap. simpl.
    split; [|done].
    rewrite merge_sort_Permutation in Hrow.
    destruct (Hrows row Hrow) as (r & rc & _ & _ & _ & ->).
    unfold select_robot_photos. simpl. by rewrite length_fmap.
Qed.

Lemma get_robots_counts_match_witness :
  ∃ entries,
    get_robots demo_world_with_photo = (Returns entries, demo_world_with_photo) ∧
    length entries = 1%nat.
Proof.
  destruct (get_robots_counts_match demo_world_with_photo)
    as (entries & Hrun & Hlen & _).
  - by_evaluation.
  - by_evaluation.
  - by_evaluation.
  - exists entries. split; [exact Hrun | exact Hlen].
Defined.

Lemma fmap_singleton_of_length {A B} (f : A → B) (x : B) (l : list A) :
  length l = 1%nat → Forall (λ y, f y = x) l → f <$> l = [x].
Proof.
  destruct l as [|y [|z l]]; [done| |done].
  intros _ [Hy _]%Forall_cons. simpl. by rewrite Hy.
Qed.

Lemma select_photos_unfiltered_ids d :
  schema_ok d → references_ok d →
  row_photo_id <$> select_photos [] d = photo_id <$> photos d.
Proof.
  intros (Hcats & Hrobots & _) Hrefs. unfold select_photos. simpl.
  assert (Hall : ∀ p, p ∈ photos d → photo_resolves d p)
    by (intros p Hp; by apply references_ok_resolves).
  induction (photos d) as [|p ps IH]; [done|].
  rewrite bind_cons, fmap_app, fmap_cons, IH by (intros q Hq; apply Hall; by right).
  rewrite (fmap_singleton_of_length row_photo_id (photo_id p)); [done| |].
  - rewrite (joined_rows_of_photo d p Hrobots Hcats).
    rewrite decide_True; [done|]. apply Hall. left.
  - apply Forall_forall.
    intros row (r & (rc & Hrow & _)%list_elem_of_bind & _)%list_elem_of_bind.
    apply list_elem_of_singleton in Hrow. by subst row.
Qed.

(** X24: the gallery shows as many photos as its statistics count. With
    the storage tree in place and, in the committed tables, identifiers
    that are keys and references that resolve, gallery hands the template
    one row per committed photo (the rows carry the identifiers of the
    photo table, each as often as the table holds it, in whatever order the
    query yields them) and a total_photos equal to the number of rows; the
    route reads the committed tables and changes nothing. *)
Theorem gallery_shows_every_photo (w : world) :
  let d := durable (conn w) in
  storage_ready "photo_storage" (disk w) →
  schema_ok d → references_ok d →
  ∃ rows stats,
    gallery w = (Returns (rows, stats), w) ∧
    length rows = total_photos stats ∧
    row_photo_id <$> rows ≡ₚ photo_id <$> photos d.
Proof.
  intros d Hready Hschema Hrefs. unfold gallery.
  rewrite (with_new_database_ready _ _ Hready).
  exists (select_photos [] d),
         (Statistics (length (photos d)) (dict_of_rows (photos_by_category d))
                     (length (robots d))
                     (py_round2 (inject_Z (or_zero (sql_sum (file_size_kb <$> photos d)))
                                 / 1024)%Q)).
  split; [reflexivity|]. cbn [total_photos].
  pose proof (select_photos_unfiltered_ids d Hschema Hrefs) as Hids.
  split; [|by rewrite Hids].
  rewrite <- (length_fmap row_photo_id), Hids. apply length_fmap.
Qed.

Lemma gallery_shows_every_photo_witness :
  ∃ rows stats,
    gallery demo_world_with_photo = (Returns (rows, stats), demo_world_with_photo) ∧
    length rows = total_photos stats.
Proof.
  destruct (gallery_shows_every_photo demo_world_with_photo)
    as (rows & stats & Hrun & Hlen & _).
  - by_evaluation.
  - by_evaluation.
  - by_evaluation.
  - by exists rows, stats.
Defined.
